(** * The LP file reader of HiGHS (extern/filereaderlp/reader.cpp)

    A shallow embedding of the reader: the lexer ([readnexttoken]), the token
    classifier ([processtokens]), the section splitter ([splittokens]), the
    expression parser ([parseexpression]) and the section processors, followed
    by the properties the specification states about them.

    Iterators into [processedtokens] are indices into the token list; the
    members of the [Reader] class are the fields of the record [Reader]; a
    member function is a function from a [Reader] to an [outcome]. *)

From Stdlib Require Import ZArith String Ascii SpecFloat.
From stdpp Require Import gmap strings list fin_maps.

Local Open Scope string_scope.
Local Open Scope list_scope.
Local Open Scope nat_scope.

(** ** Doubles

    A C++ [double] is an IEEE 754 binary64 number: [spec_float] with
    precision 53 and maximal exponent 1024. *)

Definition double : Type := spec_float.

Definition prec : Z := 53.
Definition emax : Z := 1024.

Definition dadd (x y : double) : double := SFadd prec emax x y.
Definition dneg (x : double) : double := SFopp x.
Definition deqb (x y : double) : bool := SFeqb x y.
Definition double_of_Z (z : Z) : double := binary_normalize prec emax z 0 false.

Definition infinity : double := S754_infinity false.
Definition d0 : double := S754_zero false.
Definition d1 : double := double_of_Z 1.
Definition d2 : double := double_of_Z 2.

(** ** Tokens *)

Module RawTokenType.
Inductive t :=
  NONE | STR | CONS | LESS | GREATER | EQUAL | COLON | LNEND | FLEND
| BRKOP | BRKCL | PLUS | MINUS | HAT | SLASH | ASTERISK.

#[global] Instance eq_dec : EqDecision t.
Proof. solve_decision. Defined.
End RawTokenType.

Record RawToken := {
  rtype : RawTokenType.t;
  svalue : string;
  dvalue : double
}.

(** [RawToken]'s default member initialisers. *)
Definition RawToken_default : RawToken :=
  {| rtype := RawTokenType.NONE; svalue := EmptyString; dvalue := d0 |}.

Definition istype (t : RawToken) (ty : RawTokenType.t) : bool :=
  bool_decide (rtype t = ty).

(** The three assignment operators of [RawToken]: each sets the type and at
    most one payload, and leaves the other payload as it was. *)
Definition assign_type (t : RawToken) (ty : RawTokenType.t) : RawToken :=
  {| rtype := ty; svalue := svalue t; dvalue := dvalue t |}.
Definition assign_string (t : RawToken) (v : string) : RawToken :=
  {| rtype := RawTokenType.STR; svalue := v; dvalue := dvalue t |}.
Definition assign_double (t : RawToken) (v : double) : RawToken :=
  {| rtype := RawTokenType.CONS; svalue := svalue t; dvalue := v |}.

Module ProcessedTokenType.
Inductive t :=
  NONE | SECID | VARID | CONID | CONST | FREE | BRKOP | BRKCL | COMP
| LNEND | SLASH | ASTERISK | HAT | SOSTYPE.

#[global] Instance eq_dec : EqDecision t.
Proof. solve_decision. Defined.
End ProcessedTokenType.

Module LpSectionKeyword.
Inductive t := NONE | OBJMIN | OBJMAX | CON | BOUNDS | GEN | BIN | SEMI | SOS | END.

#[global] Instance eq_dec : EqDecision t.
Proof. solve_decision. Defined.

Definition to_nat (k : t) : nat :=
  match k with
  | NONE => 0 | OBJMIN => 1 | OBJMAX => 2 | CON => 3 | BOUNDS => 4
  | GEN => 5 | BIN => 6 | SEMI => 7 | SOS => 8 | END => 9
  end.

Definition of_nat (n : nat) : option t :=
  match n with
  | 0 => Some NONE | 1 => Some OBJMIN | 2 => Some OBJMAX | 3 => Some CON
  | 4 => Some BOUNDS | 5 => Some GEN | 6 => Some BIN | 7 => Some SEMI
  | 8 => Some SOS | 9 => Some END | _ => None
  end.

#[global] Instance countable : Countable t.
Proof. refine (inj_countable to_nat of_nat _). by intros []. Defined.
End LpSectionKeyword.

Module SosType.
Inductive t := SOS1 | SOS2.

#[global] Instance eq_dec : EqDecision t.
Proof. solve_decision. Defined.
End SosType.

Module LpComparisonType.
Inductive t := LEQ | L | EQ | G | GEQ.

#[global] Instance eq_dec : EqDecision t.
Proof. solve_decision. Defined.
End LpComparisonType.

(** [ProcessedToken] is a type tag with a union; each constructor of the
    class gives one shape of token. *)
Inductive ProcessedToken :=
| TokNONE
| TokSECID (keyword : LpSectionKeyword.t)
| TokVARID (name : string)
| TokCONID (name : string)
| TokCONST (value : double)
| TokFREE
| TokBRKOP
| TokBRKCL
| TokCOMP (dir : LpComparisonType.t)
| TokLNEND
| TokSLASH
| TokASTERISK
| TokHAT
| TokSOSTYPE (sostype : SosType.t).

Definition ptype (t : ProcessedToken) : ProcessedTokenType.t :=
  match t with
  | TokNONE => ProcessedTokenType.NONE
  | TokSECID _ => ProcessedTokenType.SECID
  | TokVARID _ => ProcessedTokenType.VARID
  | TokCONID _ => ProcessedTokenType.CONID
  | TokCONST _ => ProcessedTokenType.CONST
  | TokFREE => ProcessedTokenType.FREE
  | TokBRKOP => ProcessedTokenType.BRKOP
  | TokBRKCL => ProcessedTokenType.BRKCL
  | TokCOMP _ => ProcessedTokenType.COMP
  | TokLNEND => ProcessedTokenType.LNEND
  | TokSLASH => ProcessedTokenType.SLASH
  | TokASTERISK => ProcessedTokenType.ASTERISK
  | TokHAT => ProcessedTokenType.HAT
  | TokSOSTYPE _ => ProcessedTokenType.SOSTYPE
  end.

(** ** Outcomes *)

(** Modelled from the spec: the fatal errors of section 7.  [lpassert] is
    a macro of def.hpp, which is not among the sources at hand; by the
    specification a violated [lpassert] aborts the whole read with one fatal
    error of these categories.  Each [lpassert] of reader.cpp is tagged below
    with the category the specification gives for the component it sits in. *)
Inductive LpError :=
| UnopenableInput
| UnexpectedCharacter
| UnknownToken
| DuplicateSection
| UnexpectedEndOfSection
| MalformedExpression
| MalformedBound
| MalformedSpecialOrderedSetEntry.

(** What a member function does: it returns, it throws out of an [lpassert],
    it runs into undefined behaviour (an iterator dereferenced outside the
    token vector, a failed [assert]), or the loop counter of the embedding
    runs out.  Every turn of a loop over tokens reads the token under its
    iterator and moves the iterator forward, so the loops are given the number
    of tokens from the iterator on, plus one, as their counter; the loops of
    the lexer are given the number of characters and lines still to read. *)
Inductive outcome (A : Type) :=
| Ok (a : A)
| Throw (e : LpError)
| Undefined
| OutOfFuel.

Arguments Ok {A} a.
Arguments Throw {A} e.
Arguments Undefined {A}.
Arguments OutOfFuel {A}.

Definition bind {A B : Type} (m : outcome A) (f : A → outcome B) : outcome B :=
  match m with
  | Ok a => f a
  | Throw e => Throw e
  | Undefined => Undefined
  | OutOfFuel => OutOfFuel
  end.

Notation "'let*' p ':=' m 'in' k" := (bind m (fun p => k))
  (at level 10, p pattern, m at level 100, k at level 200).

(** Modelled from the spec: the macro [lpassert] of def.hpp; the error it
    throws is given with each use. *)
Definition lpassert (e : LpError) (condition : bool) : outcome unit :=
  if condition then Ok tt else Throw e.

(** ** The section map

    [sectiontokens] maps a section keyword to the pair of iterators (begin,
    one past the end) of its tokens.  [operator[]] of [std::map] inserts a
    value-initialised pair when the key is absent; a value-initialised
    iterator is written as index 0 (the code only ever compares two of them
    with each other). *)
Abbreviation sections := (gmap LpSectionKeyword.t (nat * nat)).

Definition count (m : sections) (k : LpSectionKeyword.t) : nat :=
  if m !! k is Some _ then 1 else 0.

Definition at_key (m : sections) (k : LpSectionKeyword.t) : nat * nat :=
  default (0, 0) (m !! k).

Definition set_first (k : LpSectionKeyword.t) (it : nat) (m : sections) : sections :=
  <[k := (it, (at_key m k).2)]> m.

Definition set_second (k : LpSectionKeyword.t) (it : nat) (m : sections) : sections :=
  <[k := ((at_key m k).1, it)]> m.

(** ** The model under construction

    model.hpp and builder.hpp, which declare the structures of the model and
    the builder, are not among the sources at hand: reader.cpp gives the names
    of the members it uses, the specification (sections 3 and 4.6) the rest.
    The code holds variables through shared pointers; here a variable is held
    by its name, the key under which the builder registers the one object of
    that name. *)

Module VariableType.
(** Modelled from the spec: the enumeration [VariableType] of model.hpp;
    its five kinds are those of section 3. *)
Inductive t := CONTINUOUS | BINARY | GENERAL | SEMICONTINUOUS | SEMIINTEGER.

#[global] Instance eq_dec : EqDecision t.
Proof. solve_decision. Defined.
End VariableType.

Module ObjectiveSense.
(** Modelled from the spec: the enumeration [ObjectiveSense] of model.hpp
    (minimize, maximize). *)
Inductive t := MIN | MAX.
End ObjectiveSense.

Module Var.
(** Modelled from the spec: the structure [Variable] of model.hpp. *)
Record t := {
  type : VariableType.t;
  lowerbound : double;
  upperbound : double;
  name : string
}.

(** Modelled from the spec: the defaults of a [Variable] (section 3): kind
    continuous, lower bound 0, upper bound +infinity. *)
Definition new (n : string) : t :=
  {| type := VariableType.CONTINUOUS; lowerbound := d0;
     upperbound := infinity; name := n |}.

Definition set_type (ty : VariableType.t) (v : t) : t :=
  {| type := ty; lowerbound := lowerbound v; upperbound := upperbound v;
     name := name v |}.
Definition set_lowerbound (x : double) (v : t) : t :=
  {| type := type v; lowerbound := x; upperbound := upperbound v;
     name := name v |}.
Definition set_upperbound (x : double) (v : t) : t :=
  {| type := type v; lowerbound := lowerbound v; upperbound := x;
     name := name v |}.
End Var.

Module LinTerm.
(** Modelled from the spec: the structure [LinTerm] of model.hpp. *)
Record t := { coef : double; var : string }.
End LinTerm.

Module QuadTerm.
(** Modelled from the spec: the structure [QuadTerm] of model.hpp. *)
Record t := { coef : double; var1 : string; var2 : string }.
End QuadTerm.

Module Expression.
(** Modelled from the spec: the structure [Expression] of model.hpp. *)
Record t := {
  linterms : list LinTerm.t;
  quadterms : list QuadTerm.t;
  offset : double;
  name : string
}.

(** Modelled from the spec: the defaults of an [Expression] (section 3):
    no terms, offset 0, no name. *)
Definition new : t :=
  {| linterms := []; quadterms := []; offset := d0; name := EmptyString |}.

Definition set_name (n : string) (e : t) : t :=
  {| linterms := linterms e; quadterms := quadterms e; offset := offset e;
     name := n |}.
Definition push_linterm (l : LinTerm.t) (e : t) : t :=
  {| linterms := linterms e ++ [l]; quadterms := quadterms e;
     offset := offset e; name := name e |}.
Definition push_quadterm (q : QuadTerm.t) (e : t) : t :=
  {| linterms := linterms e; quadterms := quadterms e ++ [q];
     offset := offset e; name := name e |}.
Definition add_offset (x : double) (e : t) : t :=
  {| linterms := linterms e; quadterms := quadterms e;
     offset := dadd (offset e) x; name := name e |}.
End Expression.

Module Constraint.
(** Modelled from the spec: the structure [Constraint] of model.hpp. *)
Record t := {
  lowerbound : double;
  upperbound : double;
  expr : Expression.t
}.

(** Modelled from the spec: the defaults of a [Constraint] (sections 3
    and 8): lower bound -infinity, upper bound +infinity, a new expression. *)
Definition new : t :=
  {| lowerbound := dneg infinity; upperbound := infinity;
     expr := Expression.new |}.
End Constraint.

Module SOS.
(** Modelled from the spec: the structure [SOS] of model.hpp. *)
Record t := {
  name : string;
  type : nat;
  entries : list (string * double)
}.
End SOS.

Module Model.
(** Modelled from the spec: the structure [Model] of model.hpp; its
    vectors of shared pointers are lists, the one of variables a list of
    names, and the objective is [None] as long as the pointer is null. *)
Record t := {
  objective : option Expression.t;
  sense : ObjectiveSense.t;
  constraints : list Constraint.t;
  variables : list string;
  soss : list SOS.t
}.
End Model.

(** Modelled from the spec: the structure [Builder] of builder.hpp: the
    variables registered so far, by name, and the model. *)
Record Builder := {
  variables : gmap string Var.t;
  model : Model.t
}.

(** Modelled from the spec: [Builder::getvarbyname] of builder.hpp
    (section 4.6): the variable registered under [name]; when there is none, a
    new one with the defaults is registered and appended to the model's
    variables, which so keep the order of first reference. *)
Definition getvarbyname (name : string) (b : Builder) : Builder :=
  match variables b !! name with
  | Some _ => b
  | None =>
      {| variables := <[name := Var.new name]> (variables b);
         model :=
           {| Model.objective := Model.objective (model b);
              Model.sense := Model.sense (model b);
              Model.constraints := Model.constraints (model b);
              Model.variables := Model.variables (model b) ++ [name];
              Model.soss := Model.soss (model b) |} |}
  end.

(** [var->field = ...] through the pointer [getvarbyname] returned. *)
Definition update_var (name : string) (f : Var.t → Var.t) (b : Builder) : Builder :=
  {| variables := alter f name (variables b); model := model b |}.

Definition update_model (f : Model.t → Model.t) (b : Builder) : Builder :=
  {| variables := variables b; model := f (model b) |}.

Definition set_objective (e : Expression.t) (m : Model.t) : Model.t :=
  {| Model.objective := Some e; Model.sense := Model.sense m;
     Model.constraints := Model.constraints m;
     Model.variables := Model.variables m; Model.soss := Model.soss m |}.
Definition set_sense (s : ObjectiveSense.t) (m : Model.t) : Model.t :=
  {| Model.objective := Model.objective m; Model.sense := s;
     Model.constraints := Model.constraints m;
     Model.variables := Model.variables m; Model.soss := Model.soss m |}.
Definition push_constraint (c : Constraint.t) (m : Model.t) : Model.t :=
  {| Model.objective := Model.objective m; Model.sense := Model.sense m;
     Model.constraints := Model.constraints m ++ [c];
     Model.variables := Model.variables m; Model.soss := Model.soss m |}.
Definition push_sos (s : SOS.t) (m : Model.t) : Model.t :=
  {| Model.objective := Model.objective m; Model.sense := Model.sense m;
     Model.constraints := Model.constraints m;
     Model.variables := Model.variables m; Model.soss := Model.soss m ++ [s] |}.

(** ** The reader

    The file is the list of its lines still to be read ([getline] takes the
    first; [eof] holds once the last has been taken). *)
Record Reader := {
  file : list string;
  linebuffer : string;
  linebufferpos : nat;
  rawtokens : list RawToken;
  rawtokenpos : nat;
  processedtokens : list ProcessedToken;
  sectiontokens : sections;
  builder : Builder
}.

Definition with_sectiontokens (st : sections) (r : Reader) : Reader :=
  {| file := file r; linebuffer := linebuffer r; linebufferpos := linebufferpos r;
     rawtokens := rawtokens r; rawtokenpos := rawtokenpos r;
     processedtokens := processedtokens r; sectiontokens := st;
     builder := builder r |}.

Definition with_builder (b : Builder) (r : Reader) : Reader :=
  {| file := file r; linebuffer := linebuffer r; linebufferpos := linebufferpos r;
     rawtokens := rawtokens r; rawtokenpos := rawtokenpos r;
     processedtokens := processedtokens r; sectiontokens := sectiontokens r;
     builder := b |}.

Definition with_processedtokens (ts : list ProcessedToken) (r : Reader) : Reader :=
  {| file := file r; linebuffer := linebuffer r; linebufferpos := linebufferpos r;
     rawtokens := rawtokens r; rawtokenpos := rawtokenpos r;
     processedtokens := ts; sectiontokens := sectiontokens r;
     builder := builder r |}.

(** ** splittokens *)

Definition is_SECID (t : ProcessedToken) : bool :=
  bool_decide (ptype t = ProcessedTokenType.SECID).

(** The [for] loop of [splittokens]: [rest] holds the tokens from the
    iterator [it] to the end of [processedtokens]. *)
Fixpoint splittokens_loop (rest : list ProcessedToken) (it : nat)
    (currentsection : LpSectionKeyword.t) (st : sections)
    : outcome (LpSectionKeyword.t * sections) :=
  match rest with
  | [] => Ok (currentsection, st)
  | TokSECID keyword :: rest' =>
      (* mark end of previous section *)
      let st :=
        if decide (currentsection ≠ LpSectionKeyword.NONE)
        then set_second currentsection it st else st in
      let currentsection := keyword in
      (* make sure this section did not yet occur *)
      let* _ := lpassert DuplicateSection (bool_decide (count st currentsection = 0)) in
      (* skip empty section *)
      match rest' with
      | [] => splittokens_loop rest' (S it) LpSectionKeyword.NONE st
      | next :: _ =>
          if is_SECID next
          then splittokens_loop rest' (S it) LpSectionKeyword.NONE st
          else
            (* remember begin of new section: the token following this one *)
            splittokens_loop rest' (S it) currentsection
              (set_first currentsection (S it) st)
      end
  | _ :: rest' => splittokens_loop rest' (S it) currentsection st
  end.

Definition splittokens (r : Reader) : outcome Reader :=
  let* (currentsection, st) := splittokens_loop (processedtokens r) 0
                            LpSectionKeyword.NONE (sectiontokens r) in
  (* mark end of last section *)
  let st :=
    if decide (currentsection ≠ LpSectionKeyword.NONE)
    then set_second currentsection (length (processedtokens r)) st else st in
  Ok (with_sectiontokens st r).

(** ** Reading tokens through iterators *)

(** [*it]: outside the vector the behaviour is undefined. *)
Definition deref (toks : list ProcessedToken) (it : nat) : outcome ProcessedToken :=
  match toks !! it with
  | Some t => Ok t
  | None => Undefined
  end.

(** [it->type == ty] *)
Definition type_at (toks : list ProcessedToken) (it : nat)
    (ty : ProcessedTokenType.t) : outcome bool :=
  let* t := deref toks it in Ok (bool_decide (ptype t = ty)).

(** [it->type != ty] *)
Definition type_differs_at (toks : list ProcessedToken) (it : nat)
    (ty : ProcessedTokenType.t) : outcome bool :=
  let* t := deref toks it in Ok (bool_decide (ptype t ≠ ty)).

(** The members of the union; reading one the token does not hold is
    undefined. *)
Definition name_at (toks : list ProcessedToken) (it : nat) : outcome string :=
  let* t := deref toks it in
  match t with
  | TokVARID n | TokCONID n => Ok n
  | _ => Undefined
  end.

Definition value_at (toks : list ProcessedToken) (it : nat) : outcome double :=
  let* t := deref toks it in
  match t with
  | TokCONST v => Ok v
  | _ => Undefined
  end.

Definition dir_at (toks : list ProcessedToken) (it : nat) : outcome LpComparisonType.t :=
  let* t := deref toks it in
  match t with
  | TokCOMP d => Ok d
  | _ => Undefined
  end.

Definition sostype_at (toks : list ProcessedToken) (it : nat) : outcome SosType.t :=
  let* t := deref toks it in
  match t with
  | TokSOSTYPE s => Ok s
  | _ => Undefined
  end.

(** [a && b], the right operand evaluated only when the left one holds. *)
Definition and_then (a b : outcome bool) : outcome bool :=
  let* x := a in if x then b else Ok false.

Infix "&&&" := and_then (at level 40, left associativity).

Definition differs (it end_ : nat) : outcome bool := Ok (bool_decide (it ≠ end_)).

(** [if( it != end ) ++it], the guarded increment the lookahead iterators
    are built with. *)
Definition step (it end_ : nat) : nat :=
  if decide (it ≠ end_) then S it else it.

(** ** parseexpression *)

Definition quadterm (coef : double) (name1 name2 : string) : QuadTerm.t :=
  {| QuadTerm.coef := coef; QuadTerm.var1 := name1; QuadTerm.var2 := name2 |}.

Definition linterm (coef : double) (name : string) : LinTerm.t :=
  {| LinTerm.coef := coef; LinTerm.var := name |}.

(** The inner [while] of a bracketed group; it stops at the closing
    bracket, at the end of the range, or at the first token no pattern
    matches. *)
Fixpoint quadratic_loop (fuel : nat) (toks : list ProcessedToken) (it end_ : nat)
    (expr : Expression.t) (b : Builder) : outcome (nat * Expression.t * Builder) :=
  match fuel with
  | 0 => OutOfFuel
  | S fuel =>
      let* go := differs it end_ &&& type_differs_at toks it ProcessedTokenType.BRKCL in
      if negb go then Ok (it, expr, b) else
      let next1 := S it in
      let next2 := step next1 end_ in
      let next3 := step next2 end_ in
      (* const var hat const *)
      let* c := differs next3 end_
          &&& type_at toks it ProcessedTokenType.CONST
          &&& type_at toks next1 ProcessedTokenType.VARID
          &&& type_at toks next2 ProcessedTokenType.HAT
          &&& type_at toks next3 ProcessedTokenType.CONST in
      if c then
        let* name := name_at toks next1 in
        let* e := value_at toks next3 in
        let* _ := lpassert MalformedExpression (deqb e d2) in
        let* coef := value_at toks it in
        let b := getvarbyname name (getvarbyname name b) in
        quadratic_loop fuel toks (S next3) end_
          (Expression.push_quadterm (quadterm coef name name) expr) b
      else
      (* var hat const *)
      let* c := differs next2 end_
          &&& type_at toks it ProcessedTokenType.VARID
          &&& type_at toks next1 ProcessedTokenType.HAT
          &&& type_at toks next2 ProcessedTokenType.CONST in
      if c then
        let* name := name_at toks it in
        let* e := value_at toks next2 in
        let* _ := lpassert MalformedExpression (deqb e d2) in
        let b := getvarbyname name (getvarbyname name b) in
        quadratic_loop fuel toks next3 end_
          (Expression.push_quadterm (quadterm d1 name name) expr) b
      else
      (* const var asterisk var *)
      let* c := differs next3 end_
          &&& type_at toks it ProcessedTokenType.CONST
          &&& type_at toks next1 ProcessedTokenType.VARID
          &&& type_at toks next2 ProcessedTokenType.ASTERISK
          &&& type_at toks next3 ProcessedTokenType.VARID in
      if c then
        let* name1 := name_at toks next1 in
        let* name2 := name_at toks next3 in
        let* coef := value_at toks it in
        let b := getvarbyname name2 (getvarbyname name1 b) in
        quadratic_loop fuel toks (S next3) end_
          (Expression.push_quadterm (quadterm coef name1 name2) expr) b
      else
      (* var asterisk var *)
      let* c := differs next2 end_
          &&& type_at toks it ProcessedTokenType.VARID
          &&& type_at toks next1 ProcessedTokenType.ASTERISK
          &&& type_at toks next2 ProcessedTokenType.VARID in
      if c then
        let* name1 := name_at toks it in
        let* name2 := name_at toks next2 in
        let b := getvarbyname name2 (getvarbyname name1 b) in
        quadratic_loop fuel toks next3 end_
          (Expression.push_quadterm (quadterm d1 name1 name2) expr) b
      else Ok (it, expr, b)
  end.

(** What follows the inner loop: in the objective the group is closed by
    a bracket, a slash and the constant 2; elsewhere by the bracket. *)
Definition close_group (toks : list ProcessedToken) (it end_ : nat) (isobj : bool)
    : outcome nat :=
  if isobj then
    let next1 := S it in
    let next2 := step next1 end_ in
    let* _ := lpassert MalformedExpression (bool_decide (next2 ≠ end_)) in
    let* c := type_at toks it ProcessedTokenType.BRKCL in
    let* _ := lpassert MalformedExpression c in
    let* c := type_at toks next1 ProcessedTokenType.SLASH in
    let* _ := lpassert MalformedExpression c in
    let* c := type_at toks next2 ProcessedTokenType.CONST in
    let* _ := lpassert MalformedExpression c in
    let* v := value_at toks next2 in
    let* _ := lpassert MalformedExpression (deqb v d2) in
    Ok (S next2)
  else
    let* _ := lpassert MalformedExpression (bool_decide (it ≠ end_)) in
    let* c := type_at toks it ProcessedTokenType.BRKCL in
    let* _ := lpassert MalformedExpression c in
    Ok (S it).

(** The outer [while] of [parseexpression]. *)
Fixpoint expression_loop (fuel : nat) (toks : list ProcessedToken) (it end_ : nat)
    (expr : Expression.t) (isobj : bool) (b : Builder)
    : outcome (nat * Expression.t * Builder) :=
  match fuel with
  | 0 => OutOfFuel
  | S fuel =>
      if decide (it = end_) then Ok (it, expr, b) else
      let next := S it in
      (* const var *)
      let* c := differs next end_
          &&& type_at toks it ProcessedTokenType.CONST
          &&& type_at toks next ProcessedTokenType.VARID in
      if c then
        let* name := name_at toks next in
        let* coef := value_at toks it in
        expression_loop fuel toks (S (S it)) end_
          (Expression.push_linterm (linterm coef name) expr) isobj
          (getvarbyname name b)
      else
      (* const *)
      let* c := type_at toks it ProcessedTokenType.CONST in
      if c then
        let* v := value_at toks it in
        expression_loop fuel toks (S it) end_ (Expression.add_offset v expr) isobj b
      else
      (* var *)
      let* c := type_at toks it ProcessedTokenType.VARID in
      if c then
        let* name := name_at toks it in
        expression_loop fuel toks (S it) end_
          (Expression.push_linterm (linterm d1 name) expr) isobj
          (getvarbyname name b)
      else
      (* quadratic expression *)
      let* c := differs next end_ &&& type_at toks it ProcessedTokenType.BRKOP in
      if c then
        let* (it, expr, b) :=
          quadratic_loop (S (length toks - S it)) toks (S it) end_ expr b in
        let* it := close_group toks it end_ isobj in
        expression_loop fuel toks it end_ expr isobj b
      else Ok (it, expr, b)
  end.

(** [parseexpression(it, end, expr, isobj)]: the cursor [it] is passed by
    reference, the expression through its pointer; both come back in the
    result, with the builder. *)
Definition parseexpression (toks : list ProcessedToken) (it end_ : nat)
    (expr : Expression.t) (isobj : bool) (b : Builder)
    : outcome (nat * Expression.t * Builder) :=
  let* c := differs it end_ &&& type_at toks it ProcessedTokenType.CONID in
  let* (it, expr) := (if c then let* name := name_at toks it in Ok (S it, Expression.set_name name expr)
     else Ok (it, expr)) in
  expression_loop (S (length toks - it)) toks it end_ expr isobj b.

(** ** The section processors

    A processor takes the iterators of its section out of [sectiontokens]
    by reference; the cursor it advances is written back to the map. *)

Definition has_section (r : Reader) (k : LpSectionKeyword.t) : bool :=
  bool_decide (count (sectiontokens r) k ≠ 0).

Definition processnonesec (r : Reader) : outcome Reader :=
  let* _ := lpassert UnknownToken
              (bool_decide (count (sectiontokens r) LpSectionKeyword.NONE = 0)) in
  Ok r.

(** The body of either branch of [processobjsec]. *)
Definition objsec (k : LpSectionKeyword.t) (s : ObjectiveSense.t) (r : Reader)
    : outcome Reader :=
  let b := update_model (set_sense s) (builder r) in
  let '(begin_, end_) := at_key (sectiontokens r) k in
  let* (it, expr, b) :=
    parseexpression (processedtokens r) begin_ end_ Expression.new true b in
  (* all section tokens should have been processed *)
  let* _ := lpassert MalformedExpression (bool_decide (it = end_)) in
  Ok (with_builder (update_model (set_objective expr) b)
        (with_sectiontokens (set_first k it (sectiontokens r)) r)).

Definition processobjsec (r : Reader) : outcome Reader :=
  let r := with_builder (update_model (set_objective Expression.new) (builder r)) r in
  if has_section r LpSectionKeyword.OBJMIN then
    objsec LpSectionKeyword.OBJMIN ObjectiveSense.MIN r
  else if has_section r LpSectionKeyword.OBJMAX then
    objsec LpSectionKeyword.OBJMAX ObjectiveSense.MAX r
  else Ok r.

Definition set_bounds (c : Constraint.t) (lb ub : double) : Constraint.t :=
  {| Constraint.lowerbound := lb; Constraint.upperbound := ub;
     Constraint.expr := Constraint.expr c |}.

Definition set_expr (c : Constraint.t) (e : Expression.t) : Constraint.t :=
  {| Constraint.lowerbound := Constraint.lowerbound c;
     Constraint.upperbound := Constraint.upperbound c;
     Constraint.expr := e |}.

Fixpoint consec_loop (fuel : nat) (toks : list ProcessedToken) (begin_ end_ : nat)
    (b : Builder) : outcome (nat * Builder) :=
  match fuel with
  | 0 => OutOfFuel
  | S fuel =>
      if decide (begin_ = end_) then Ok (begin_, b) else
      let con := Constraint.new in
      let* (begin_, expr, b) :=
        parseexpression toks begin_ end_ (Constraint.expr con) false b in
      let con := set_expr con expr in
      (* should not be at end of section yet, but a comparison operator should be next *)
      let* _ := lpassert UnexpectedEndOfSection (bool_decide (begin_ ≠ end_)) in
      let* c := type_at toks begin_ ProcessedTokenType.COMP in
      let* _ := lpassert MalformedExpression c in
      let* dir := dir_at toks begin_ in
      let begin_ := S begin_ in
      (* should still not be at end of section yet, but a right-hand-side value should be next *)
      let* _ := lpassert UnexpectedEndOfSection (bool_decide (begin_ ≠ end_)) in
      let* c := type_at toks begin_ ProcessedTokenType.CONST in
      let* _ := lpassert MalformedExpression c in
      let* value := value_at toks begin_ in
      let* con :=
        match dir with
        | LpComparisonType.EQ => Ok (set_bounds con value value)
        | LpComparisonType.LEQ => Ok (set_bounds con (Constraint.lowerbound con) value)
        | LpComparisonType.GEQ => Ok (set_bounds con value (Constraint.upperbound con))
        | _ => Throw MalformedExpression
        end in
      consec_loop fuel toks (S begin_) end_ (update_model (push_constraint con) b)
  end.

Definition processconsec (r : Reader) : outcome Reader :=
  if negb (has_section r LpSectionKeyword.CON) then Ok r else
  let '(begin_, end_) := at_key (sectiontokens r) LpSectionKeyword.CON in
  let* (begin_, b) :=
    consec_loop (S (length (processedtokens r) - begin_)) (processedtokens r)
      begin_ end_ (builder r) in
  Ok (with_builder b
        (with_sectiontokens (set_first LpSectionKeyword.CON begin_ (sectiontokens r)) r)).

(** [var->lowerbound = ...] and the like in [processboundssec]; the
    comparison is the one written between the constant and the variable. *)
Definition bound_const_comp_var (dir : LpComparisonType.t) (value : double)
    (name : string) (b : Builder) : outcome Builder :=
  match dir with
  | LpComparisonType.LEQ => Ok (update_var name (Var.set_lowerbound value) b)
  | LpComparisonType.GEQ => Ok (update_var name (Var.set_upperbound value) b)
  | LpComparisonType.EQ =>
      Ok (update_var name (Var.set_lowerbound value)
            (update_var name (Var.set_upperbound value) b))
  | _ => Throw MalformedBound
  end.

Definition bound_var_comp_const (dir : LpComparisonType.t) (value : double)
    (name : string) (b : Builder) : outcome Builder :=
  match dir with
  | LpComparisonType.LEQ => Ok (update_var name (Var.set_upperbound value) b)
  | LpComparisonType.GEQ => Ok (update_var name (Var.set_lowerbound value) b)
  | LpComparisonType.EQ =>
      Ok (update_var name (Var.set_lowerbound value)
            (update_var name (Var.set_upperbound value) b))
  | _ => Throw MalformedBound
  end.

Fixpoint boundssec_loop (fuel : nat) (toks : list ProcessedToken) (begin_ end_ : nat)
    (b : Builder) : outcome (nat * Builder) :=
  match fuel with
  | 0 => OutOfFuel
  | S fuel =>
      if decide (begin_ = end_) then Ok (begin_, b) else
      let next1 := begin_ in  (* token after begin *)
      (* VAR free *)
      let* c := differs next1 end_
          &&& type_at toks begin_ ProcessedTokenType.VARID
          &&& type_at toks next1 ProcessedTokenType.FREE in
      if c then
        let* name := name_at toks begin_ in
        let b := getvarbyname name b in
        let b := update_var name (Var.set_lowerbound (dneg infinity)) b in
        let b := update_var name (Var.set_upperbound infinity) b in
        boundssec_loop fuel toks (S next1) end_ b
      else
      let next1 := S next1 in
      let next2 := step next1 end_ in
      let next3 := step next2 end_ in
      let next4 := step next3 end_ in
      (* CONST COMP VAR COMP CONST *)
      let* c := differs next4 end_
          &&& type_at toks begin_ ProcessedTokenType.CONST
          &&& type_at toks next1 ProcessedTokenType.COMP
          &&& type_at toks next2 ProcessedTokenType.VARID
          &&& type_at toks next3 ProcessedTokenType.COMP
          &&& type_at toks next4 ProcessedTokenType.CONST in
      if c then
        let* dir1 := dir_at toks next1 in
        let* _ := lpassert MalformedBound (bool_decide (dir1 = LpComparisonType.LEQ)) in
        let* dir3 := dir_at toks next3 in
        let* _ := lpassert MalformedBound (bool_decide (dir3 = LpComparisonType.LEQ)) in
        let* lb := value_at toks begin_ in
        let* ub := value_at toks next4 in
        let* name := name_at toks next2 in
        let b := getvarbyname name b in
        let b := update_var name (Var.set_lowerbound lb) b in
        let b := update_var name (Var.set_upperbound ub) b in
        boundssec_loop fuel toks (S next4) end_ b
      else
      (* CONST COMP VAR *)
      let* c := differs next2 end_
          &&& type_at toks begin_ ProcessedTokenType.CONST
          &&& type_at toks next1 ProcessedTokenType.COMP
          &&& type_at toks next2 ProcessedTokenType.VARID in
      if c then
        let* value := value_at toks begin_ in
        let* name := name_at toks next2 in
        let b := getvarbyname name b in
        let* dir := dir_at toks next1 in
        let* _ := lpassert MalformedBound
                    (bool_decide (dir ≠ LpComparisonType.L ∧ dir ≠ LpComparisonType.G)) in
        let* b := bound_const_comp_var dir value name b in
        boundssec_loop fuel toks next3 end_ b
      else
      (* VAR COMP CONST *)
      let* c := differs next2 end_
          &&& type_at toks begin_ ProcessedTokenType.VARID
          &&& type_at toks next1 ProcessedTokenType.COMP
          &&& type_at toks next2 ProcessedTokenType.CONST in
      if c then
        let* value := value_at toks next2 in
        let* name := name_at toks begin_ in
        let b := getvarbyname name b in
        let* dir := dir_at toks next1 in
        let* _ := lpassert MalformedBound
                    (bool_decide (dir ≠ LpComparisonType.L ∧ dir ≠ LpComparisonType.G)) in
        let* b := bound_var_comp_const dir value name b in
        boundssec_loop fuel toks next3 end_ b
      else Throw MalformedBound
  end.

Definition processboundssec (r : Reader) : outcome Reader :=
  if negb (has_section r LpSectionKeyword.BOUNDS) then Ok r else
  let '(begin_, end_) := at_key (sectiontokens r) LpSectionKeyword.BOUNDS in
  let* (begin_, b) :=
    boundssec_loop (S (length (processedtokens r) - begin_)) (processedtokens r)
      begin_ end_ (builder r) in
  Ok (with_builder b
        (with_sectiontokens (set_first LpSectionKeyword.BOUNDS begin_ (sectiontokens r)) r)).

(** The [for] loop of [processbinsec], [processgensec] and
    [processsemisec]: the three differ only in what they assign to the
    variable, given here as [body]. *)
Fixpoint varsec_loop (fuel : nat) (toks : list ProcessedToken) (begin_ end_ : nat)
    (body : Var.t → Var.t) (b : Builder) : outcome (nat * Builder) :=
  match fuel with
  | 0 => OutOfFuel
  | S fuel =>
      if decide (begin_ = end_) then Ok (begin_, b) else
      let* c := type_at toks begin_ ProcessedTokenType.VARID in
      let* _ := lpassert UnknownToken c in
      let* name := name_at toks begin_ in
      let b := getvarbyname name b in
      varsec_loop fuel toks (S begin_) end_ body (update_var name body b)
  end.

Definition varsec (k : LpSectionKeyword.t) (body : Var.t → Var.t) (r : Reader)
    : outcome Reader :=
  let '(begin_, end_) := at_key (sectiontokens r) k in
  let* (begin_, b) :=
    varsec_loop (S (length (processedtokens r) - begin_)) (processedtokens r)
      begin_ end_ body (builder r) in
  Ok (with_builder b (with_sectiontokens (set_first k begin_ (sectiontokens r)) r)).

Definition binsec_body (v : Var.t) : Var.t :=
  Var.set_upperbound d1 (Var.set_lowerbound d0 (Var.set_type VariableType.BINARY v)).

Definition gensec_body (v : Var.t) : Var.t :=
  if decide (Var.type v = VariableType.SEMICONTINUOUS)
  then Var.set_type VariableType.SEMIINTEGER v
  else Var.set_type VariableType.GENERAL v.

Definition semisec_body (v : Var.t) : Var.t :=
  if decide (Var.type v = VariableType.GENERAL)
  then Var.set_type VariableType.SEMIINTEGER v
  else Var.set_type VariableType.SEMICONTINUOUS v.

Definition processbinsec (r : Reader) : outcome Reader :=
  if negb (has_section r LpSectionKeyword.BIN) then Ok r else
  varsec LpSectionKeyword.BIN binsec_body r.

Definition processgensec (r : Reader) : outcome Reader :=
  if negb (has_section r LpSectionKeyword.GEN) then Ok r else
  varsec LpSectionKeyword.GEN gensec_body r.

(** The guard looks the integer section up; the iterators are those of the
    semicontinuous section. *)
Definition processsemisec (r : Reader) : outcome Reader :=
  if negb (has_section r LpSectionKeyword.GEN) then Ok r else
  varsec LpSectionKeyword.SEMI semisec_body r.

(** The inner [while] of [processsossec]: the entries of one set. *)
Fixpoint sos_entries (fuel : nat) (toks : list ProcessedToken) (begin_ end_ : nat)
    (entries : list (string * double)) (b : Builder)
    : outcome (nat * list (string * double) * Builder) :=
  match fuel with
  | 0 => OutOfFuel
  | S fuel =>
      if decide (begin_ = end_) then Ok (begin_, entries, b) else
      (* a string followed by a colon was classified as a CONID; in a SOS
         section it is a variable identifier *)
      let* c := type_differs_at toks begin_ ProcessedTokenType.CONID in
      if c then Ok (begin_, entries, b) else
      let* name := name_at toks begin_ in
      let begin_ := S begin_ in
      let* c := differs begin_ end_ &&& type_at toks begin_ ProcessedTokenType.CONST in
      if c then
        let b := getvarbyname name b in
        let* weight := value_at toks begin_ in
        sos_entries fuel toks (S begin_) end_ (entries ++ [(name, weight)]) b
      else Ok (begin_, entries, b)
  end.

Fixpoint sossec_loop (fuel : nat) (toks : list ProcessedToken) (begin_ end_ : nat)
    (b : Builder) : outcome (nat * Builder) :=
  match fuel with
  | 0 => OutOfFuel
  | S fuel =>
      if decide (begin_ = end_) then Ok (begin_, b) else
      (* name of SOS is mandatory *)
      let* c := type_at toks begin_ ProcessedTokenType.CONID in
      let* _ := lpassert MalformedSpecialOrderedSetEntry c in
      let* name := name_at toks begin_ in
      let begin_ := S begin_ in
      (* SOS type *)
      let* _ := lpassert MalformedSpecialOrderedSetEntry (bool_decide (begin_ ≠ end_)) in
      let* c := type_at toks begin_ ProcessedTokenType.SOSTYPE in
      let* _ := lpassert MalformedSpecialOrderedSetEntry c in
      let* sostype := sostype_at toks begin_ in
      let type := if decide (sostype = SosType.SOS1) then 1 else 2 in
      let begin_ := S begin_ in
      let* (begin_, entries, b) :=
        sos_entries (S (length toks - begin_)) toks begin_ end_ [] b in
      let sos := {| SOS.name := name; SOS.type := type; SOS.entries := entries |} in
      sossec_loop fuel toks begin_ end_ (update_model (push_sos sos) b)
  end.

Definition processsossec (r : Reader) : outcome Reader :=
  if negb (has_section r LpSectionKeyword.SOS) then Ok r else
  let '(begin_, end_) := at_key (sectiontokens r) LpSectionKeyword.SOS in
  let* (begin_, b) :=
    sossec_loop (S (length (processedtokens r) - begin_)) (processedtokens r)
      begin_ end_ (builder r) in
  Ok (with_builder b
        (with_sectiontokens (set_first LpSectionKeyword.SOS begin_ (sectiontokens r)) r)).

Definition processendsec (r : Reader) : outcome Reader :=
  let* _ := lpassert UnknownToken
              (bool_decide (count (sectiontokens r) LpSectionKeyword.END = 0)) in
  Ok r.

Definition processsections (r : Reader) : outcome Reader :=
  let* r := processnonesec r in
  let* r := processobjsec r in
  let* r := processconsec r in
  let* r := processboundssec r in
  let* r := processgensec r in
  let* r := processbinsec r in
  let* r := processsemisec r in
  let* r := processsossec r in
  processendsec r.

(** ** Keywords

    The keyword tables [LP_KEYWORD_*] are constants of def.hpp, which is not
    among the sources at hand; section 6 of the specification lists their
    entries. *)

(** Modelled from the spec: [LP_KEYWORD_MIN] of def.hpp. *)
Definition LP_KEYWORD_MIN : list string := ["min"; "minimize"; "minimise"].
(** Modelled from the spec: [LP_KEYWORD_MAX] of def.hpp. *)
Definition LP_KEYWORD_MAX : list string := ["max"; "maximize"; "maximise"].
(** Modelled from the spec: [LP_KEYWORD_ST] of def.hpp. *)
Definition LP_KEYWORD_ST : list string := ["st"; "s.t."; "subject to"; "such that"].
(** Modelled from the spec: [LP_KEYWORD_BOUNDS] of def.hpp. *)
Definition LP_KEYWORD_BOUNDS : list string := ["bounds"; "bound"].
(** Modelled from the spec: [LP_KEYWORD_BIN] of def.hpp. *)
Definition LP_KEYWORD_BIN : list string := ["bin"; "binary"; "binaries"].
(** Modelled from the spec: [LP_KEYWORD_GEN] of def.hpp. *)
Definition LP_KEYWORD_GEN : list string :=
  ["gen"; "general"; "generals"; "int"; "integer"; "integers"].
(** Modelled from the spec: [LP_KEYWORD_SEMI] of def.hpp. *)
Definition LP_KEYWORD_SEMI : list string := ["semi"; "semi-continuous"; "semis"].
(** Modelled from the spec: [LP_KEYWORD_SOS] of def.hpp. *)
Definition LP_KEYWORD_SOS : list string := ["sos"].
(** Modelled from the spec: [LP_KEYWORD_END] of def.hpp. *)
Definition LP_KEYWORD_END : list string := ["end"].
(** Modelled from the spec: [LP_KEYWORD_FREE] of def.hpp. *)
Definition LP_KEYWORD_FREE : list string := ["free"].
(** Modelled from the spec: [LP_KEYWORD_INF] of def.hpp. *)
Definition LP_KEYWORD_INF : list string := ["inf"; "infinity"].

Fixpoint iskeyword (str : string) (keywords : list string) : bool :=
  match keywords with
  | [] => false
  | k :: keywords => if decide (str = k) then true else iskeyword str keywords
  end.

(** [std::tolower] in the C locale. *)
Definition tolower (c : ascii) : ascii :=
  let n := nat_of_ascii c in
  if ((65 <=? n) && (n <=? 90))%nat then ascii_of_nat (n + 32) else c.

Fixpoint transform_tolower (s : string) : string :=
  match s with
  | EmptyString => EmptyString
  | String c s => String (tolower c) (transform_tolower s)
  end.

Definition parsesectionkeyword (str : string) : LpSectionKeyword.t :=
  let str := transform_tolower str in
  if iskeyword str LP_KEYWORD_MIN then LpSectionKeyword.OBJMIN
  else if iskeyword str LP_KEYWORD_MAX then LpSectionKeyword.OBJMAX
  else if iskeyword str LP_KEYWORD_ST then LpSectionKeyword.CON
  else if iskeyword str LP_KEYWORD_BOUNDS then LpSectionKeyword.BOUNDS
  else if iskeyword str LP_KEYWORD_BIN then LpSectionKeyword.BIN
  else if iskeyword str LP_KEYWORD_GEN then LpSectionKeyword.GEN
  else if iskeyword str LP_KEYWORD_SEMI then LpSectionKeyword.SEMI
  else if iskeyword str LP_KEYWORD_SOS then LpSectionKeyword.SOS
  else if iskeyword str LP_KEYWORD_END then LpSectionKeyword.END
  else LpSectionKeyword.NONE.

(** ** Strings as the lexer uses them *)

Definition NUL : ascii := "000"%char.
Definition TAB : ascii := "009"%char.
Definition LF : ascii := "010"%char.
Definition CR : ascii := "013"%char.

(** [s[pos]]; at [pos = s.size()] this is the terminating NUL. *)
Definition char_at (s : string) (pos : nat) : ascii :=
  default NUL (String.get pos s).

(** The characters of [s] from [pos] on. *)
Fixpoint suffix (s : string) (pos : nat) : string :=
  match pos, s with
  | 0, _ => s
  | S pos, String _ s => suffix s pos
  | S _, EmptyString => EmptyString
  end.

Fixpoint contains (chars : string) (c : ascii) : bool :=
  match chars with
  | EmptyString => false
  | String c' chars => if decide (c = c') then true else contains chars c
  end.

(** The index in [s] of the first character that is one of [chars]. *)
Fixpoint first_of (s chars : string) : option nat :=
  match s with
  | EmptyString => None
  | String c s => if contains chars c then Some 0 else S <$> first_of s chars
  end.

(** [s.find_first_of(chars, pos)]; [None] is [npos]. *)
Definition find_first_of (s chars : string) (pos : nat) : option nat :=
  (λ i, pos + i) <$> first_of (suffix s pos) chars.

(** [if (!s.empty() && s.back() == CR) s.pop_back()] *)
Fixpoint drop_cr (s : string) : string :=
  match s with
  | EmptyString => EmptyString
  | String c EmptyString => if decide (c = CR) then EmptyString else s
  | String c s => String c (drop_cr s)
  end.

(** The characters that end an identifier: the argument of
    [find_first_of] in [readnexttoken]. *)
Definition identifier_end : string :=
  String TAB (String LF "\:+<>^= /-*").

Definition with_line (line : string) (rest : list string) (r : Reader) : Reader :=
  {| file := rest; linebuffer := line; linebufferpos := 0;
     rawtokens := rawtokens r; rawtokenpos := rawtokenpos r;
     processedtokens := processedtokens r; sectiontokens := sectiontokens r;
     builder := builder r |}.

Definition with_linebufferpos (pos : nat) (r : Reader) : Reader :=
  {| file := file r; linebuffer := linebuffer r; linebufferpos := pos;
     rawtokens := rawtokens r; rawtokenpos := rawtokenpos r;
     processedtokens := processedtokens r; sectiontokens := sectiontokens r;
     builder := builder r |}.

Definition with_rawtokens (ts : list RawToken) (pos : nat) (r : Reader) : Reader :=
  {| file := file r; linebuffer := linebuffer r; linebufferpos := linebufferpos r;
     rawtokens := ts; rawtokenpos := pos;
     processedtokens := processedtokens r; sectiontokens := sectiontokens r;
     builder := builder r |}.

Definition clear_linebuffer (r : Reader) : Reader :=
  {| file := file r; linebuffer := EmptyString; linebufferpos := linebufferpos r;
     rawtokens := rawtokens r; rawtokenpos := rawtokenpos r;
     processedtokens := processedtokens r; sectiontokens := sectiontokens r;
     builder := builder r |}.

(** The single-character tokens of the [switch] in [readnexttoken]. *)
Definition single_character (c : ascii) : option RawTokenType.t :=
  if decide (c = "["%char) then Some RawTokenType.BRKOP
  else if decide (c = "]"%char) then Some RawTokenType.BRKCL
  else if decide (c = "<"%char) then Some RawTokenType.LESS
  else if decide (c = ">"%char) then Some RawTokenType.GREATER
  else if decide (c = "="%char) then Some RawTokenType.EQUAL
  else if decide (c = ":"%char) then Some RawTokenType.COLON
  else if decide (c = "+"%char) then Some RawTokenType.PLUS
  else if decide (c = "^"%char) then Some RawTokenType.HAT
  else if decide (c = "/"%char) then Some RawTokenType.SLASH
  else if decide (c = "*"%char) then Some RawTokenType.ASTERISK
  else if decide (c = "-"%char) then Some RawTokenType.MINUS
  else None.

Section Lexer.

(** [strtod] of the C library: the value converted from the start of
    the string and the number of characters the conversion used (0 when
    there is none). *)
Variable strtod : string → double * nat.

(** The part of [readnexttoken] after the line buffer has been
    refilled. *)
Definition readnexttoken_at (r : Reader) (t : RawToken)
    : outcome (bool * RawToken * Reader) :=
  let size := String.length (linebuffer r) in
  let pos := linebufferpos r in
  (* check single character tokens *)
  let nextchar := char_at (linebuffer r) pos in
  (* check for comment: skip rest of line *)
  if decide (nextchar = "\"%char) then Ok (false, t, with_linebufferpos size r)
  else
  match single_character nextchar with
  | Some ty => Ok (true, assign_type t ty, with_linebufferpos (S pos) r)
  | None =>
  (* check for whitespace *)
  if decide (nextchar = " "%char ∨ nextchar = TAB)
  then Ok (false, t, with_linebufferpos (S pos) r)
  (* check for line end *)
  else if decide (nextchar = ";"%char ∨ nextchar = LF)
  then Ok (false, t, with_linebufferpos size r)
  (* empty line *)
  else if decide (nextchar = NUL)
  then (if decide (pos = size) then Ok (false, t, r) else Undefined)
  else
  (* check for double value *)
  let '(constant, used) := strtod (suffix (linebuffer r) pos) in
  if decide (used ≠ 0)
  then Ok (true, assign_double t constant, with_linebufferpos (pos + used) r)
  else
  (* assume it is an (section/variable/constraint) identifier *)
  let endpos := default size (find_first_of (linebuffer r) identifier_end pos) in
  if decide (pos < endpos)%nat
  then Ok (true, assign_string t (String.substring pos (endpos - pos) (linebuffer r)),
           with_linebufferpos endpos r)
  else Throw UnexpectedCharacter
  end.

(** [readnexttoken(t)]: whether [t] has been set, [t], the reader. *)
Definition readnexttoken (r : Reader) (t : RawToken)
    : outcome (bool * RawToken * Reader) :=
  if decide (linebufferpos r = String.length (linebuffer r)) then
    (* read next line if any are left *)
    match file r with
    | [] => Ok (true, assign_type t RawTokenType.FLEND, r)
    | line :: rest => readnexttoken_at (with_line (drop_cr line) rest r) t
    end
  else readnexttoken_at r t.

(** What is left to read: every call of [readnexttoken] that sets no
    token makes it smaller. *)
Definition unread (r : Reader) : nat :=
  (String.length (linebuffer r) - linebufferpos r)
  + foldr (λ line n, S (String.length line) + n) 0 (file r).

(** [while( !readnexttoken(rawtokens[i]) ) ;] *)
Fixpoint fill_loop (fuel : nat) (i : nat) (r : Reader) : outcome Reader :=
  match fuel with
  | 0 => OutOfFuel
  | S fuel =>
      let t := default RawToken_default (rawtokens r !! i) in
      let* (set, t, r) := readnexttoken r t in
      let r := with_rawtokens (<[i := t]> (rawtokens r)) (rawtokenpos r) r in
      if set : bool then Ok r else fill_loop fuel i r
  end.

Definition fill (i : nat) (r : Reader) : outcome Reader :=
  fill_loop (S (unread r)) i r.

Fixpoint nextrawtoken (howmany : nat) (r : Reader) : outcome Reader :=
  match howmany with
  | 0 => Ok r
  | S howmany =>
      let* r := fill (rawtokenpos r mod 5) r in
      nextrawtoken howmany (with_rawtokens (rawtokens r) (S (rawtokenpos r)) r)
  end.

End Lexer.

Definition rawtoken (r : Reader) (offset : nat) : RawToken :=
  default RawToken_default (rawtokens r !! ((rawtokenpos r + offset) mod 5)).

(** ** processtokens *)

Definition emplace_back (t : ProcessedToken) (r : Reader) : Reader :=
  with_processedtokens (processedtokens r ++ [t]) r.

Definition keyword_of (str : string) : option LpSectionKeyword.t :=
  let keyword := parsesectionkeyword str in
  if decide (keyword ≠ LpSectionKeyword.NONE) then Some keyword else None.

Section Classifier.

Variable strtod : string → double * nat.

(** [do nextrawtoken(2); while (...)]: skip everything up to the next
    asterisk + slash. *)
Fixpoint skip_comment (fuel : nat) (r : Reader) : outcome Reader :=
  match fuel with
  | 0 => OutOfFuel
  | S fuel =>
      let* r := nextrawtoken strtod 2 r in
      if negb (istype (rawtoken r 0) RawTokenType.ASTERISK
               && istype (rawtoken r 1) RawTokenType.SLASH)
         && negb (istype (rawtoken r 0) RawTokenType.FLEND)
      then skip_comment fuel r
      else Ok r
  end.

(** One turn of the [while] loop of [processtokens], from its first
    [if] to the [continue] taken.  A name is kept as the raw token has it; the
    constructor of [ProcessedToken] copies it up to its first NUL character,
    so the tokens are those of the source for names that hold none. *)
Definition processtoken (r : Reader) : outcome Reader :=
  let has k ty := istype (rawtoken r k) ty in
  let str := svalue (rawtoken r 0) in
  (* Slash + asterisk: comment *)
  if has 0 RawTokenType.SLASH && has 1 RawTokenType.ASTERISK then
    let* r := skip_comment (S (5 + unread r)) r in
    nextrawtoken strtod 2 r
  else
  (* long section keyword semi-continuous *)
  match (if has 0 RawTokenType.STR && has 1 RawTokenType.MINUS && has 2 RawTokenType.STR
         then keyword_of (str +:+ "-" +:+ svalue (rawtoken r 2)) else None) with
  | Some keyword => nextrawtoken strtod 3 (emplace_back (TokSECID keyword) r)
  | None =>
  (* long section keyword subject to/such that *)
  match (if has 0 RawTokenType.STR && has 1 RawTokenType.STR
         then keyword_of (str +:+ " " +:+ svalue (rawtoken r 1)) else None) with
  | Some keyword => nextrawtoken strtod 2 (emplace_back (TokSECID keyword) r)
  | None =>
  (* other section keyword *)
  match (if has 0 RawTokenType.STR then keyword_of str else None) with
  | Some keyword => nextrawtoken strtod 1 (emplace_back (TokSECID keyword) r)
  | None =>
  (* sos type identifier? *)
  if has 0 RawTokenType.STR && has 1 RawTokenType.COLON && has 2 RawTokenType.COLON then
    let* _ := lpassert MalformedSpecialOrderedSetEntry
                (bool_decide (String.length str = 2)) in
    let* _ := lpassert MalformedSpecialOrderedSetEntry
                (bool_decide (char_at str 0 = "S"%char ∨ char_at str 0 = "s"%char)) in
    let* _ := lpassert MalformedSpecialOrderedSetEntry
                (bool_decide (char_at str 1 = "1"%char ∨ char_at str 1 = "2"%char)) in
    nextrawtoken strtod 3
      (emplace_back
         (TokSOSTYPE (if decide (char_at str 1 = "1"%char)
                      then SosType.SOS1 else SosType.SOS2)) r)
  (* constraint identifier? *)
  else if has 0 RawTokenType.STR && has 1 RawTokenType.COLON then
    nextrawtoken strtod 2 (emplace_back (TokCONID str) r)
  (* check if free *)
  else if has 0 RawTokenType.STR && iskeyword str LP_KEYWORD_FREE then
    nextrawtoken strtod 1 (emplace_back TokFREE r)
  (* check if infinity *)
  else if has 0 RawTokenType.STR && iskeyword str LP_KEYWORD_INF then
    nextrawtoken strtod 1 (emplace_back (TokCONST infinity) r)
  (* assume var identifier *)
  else if has 0 RawTokenType.STR then
    nextrawtoken strtod 1 (emplace_back (TokVARID str) r)
  (* + constant *)
  else if has 0 RawTokenType.PLUS && has 1 RawTokenType.CONS then
    nextrawtoken strtod 2 (emplace_back (TokCONST (dvalue (rawtoken r 1))) r)
  (* - constant *)
  else if has 0 RawTokenType.MINUS && has 1 RawTokenType.CONS then
    nextrawtoken strtod 2 (emplace_back (TokCONST (dneg (dvalue (rawtoken r 1)))) r)
  (* + [ *)
  else if has 0 RawTokenType.PLUS && has 1 RawTokenType.BRKOP then
    nextrawtoken strtod 2 (emplace_back TokBRKOP r)
  (* - [ *)
  else if has 0 RawTokenType.MINUS && has 1 RawTokenType.BRKOP then
    Throw MalformedExpression
  (* constant [ *)
  else if has 0 RawTokenType.CONS && has 1 RawTokenType.BRKOP then
    Throw MalformedExpression
  (* + *)
  else if has 0 RawTokenType.PLUS then
    nextrawtoken strtod 1 (emplace_back (TokCONST d1) r)
  (* - *)
  else if has 0 RawTokenType.MINUS then
    nextrawtoken strtod 1 (emplace_back (TokCONST (dneg d1)) r)
  (* constant *)
  else if has 0 RawTokenType.CONS then
    nextrawtoken strtod 1 (emplace_back (TokCONST (dvalue (rawtoken r 0))) r)
  (* [ *)
  else if has 0 RawTokenType.BRKOP then
    nextrawtoken strtod 1 (emplace_back TokBRKOP r)
  (* ] *)
  else if has 0 RawTokenType.BRKCL then
    nextrawtoken strtod 1 (emplace_back TokBRKCL r)
  (* / *)
  else if has 0 RawTokenType.SLASH then
    nextrawtoken strtod 1 (emplace_back TokSLASH r)
  (* * *)
  else if has 0 RawTokenType.ASTERISK then
    nextrawtoken strtod 1 (emplace_back TokASTERISK r)
  (* ^ *)
  else if has 0 RawTokenType.HAT then
    nextrawtoken strtod 1 (emplace_back TokHAT r)
  (* <= *)
  else if has 0 RawTokenType.LESS && has 1 RawTokenType.EQUAL then
    nextrawtoken strtod 2 (emplace_back (TokCOMP LpComparisonType.LEQ) r)
  (* < *)
  else if has 0 RawTokenType.LESS then
    nextrawtoken strtod 1 (emplace_back (TokCOMP LpComparisonType.L) r)
  (* >= *)
  else if has 0 RawTokenType.GREATER && has 1 RawTokenType.EQUAL then
    nextrawtoken strtod 2 (emplace_back (TokCOMP LpComparisonType.GEQ) r)
  (* > *)
  else if has 0 RawTokenType.GREATER then
    nextrawtoken strtod 1 (emplace_back (TokCOMP LpComparisonType.G) r)
  (* = *)
  else if has 0 RawTokenType.EQUAL then
    nextrawtoken strtod 1 (emplace_back (TokCOMP LpComparisonType.EQ) r)
  (* catch all unknown symbols *)
  else Throw UnknownToken
  end end end.

Fixpoint processtokens_loop (fuel : nat) (r : Reader) : outcome Reader :=
  match fuel with
  | 0 => OutOfFuel
  | S fuel =>
      if istype (rawtoken r 0) RawTokenType.FLEND then Ok r else
      let* r := processtoken r in
      processtokens_loop fuel r
  end.

Definition processtokens (r : Reader) : outcome Reader :=
  processtokens_loop (S (5 + unread r)) r.

(** The first half of [Reader::read]: the first five raw tokens, then
    [processtokens]. *)
Definition tokenize (r : Reader) : outcome Reader :=
  let r := with_rawtokens (rawtokens r) 0 (with_linebufferpos 0 r) in
  (* read first 5 token *)
  let* r := fill strtod 0 r in
  let* r := fill strtod 1 r in
  let* r := fill strtod 2 r in
  let* r := fill strtod 3 r in
  let* r := fill strtod 4 r in
  processtokens r.

(** [Reader::read]; the model it returns holds its variables by pointer,
    so the result here is the builder: the model and the variables it
    points to. *)
Definition read (r : Reader) : outcome Builder :=
  let* r := tokenize r in
  let r := clear_linebuffer r in
  let* r := splittokens r in
  let* r := processsections r in
  Ok (builder (with_processedtokens [] r)).

End Classifier.

(** A reader as its constructor leaves it, on a file of the given lines;
    [Model] gives its objective sense no initial value, so the builder
    starts from any. *)
Definition Builder_new (sense : ObjectiveSense.t) : Builder :=
  {| variables := ∅;
     model := {| Model.objective := None; Model.sense := sense;
                 Model.constraints := []; Model.variables := [];
                 Model.soss := [] |} |}.

Definition Reader_new (lines : list string) (sense : ObjectiveSense.t) : Reader :=
  {| file := lines; linebuffer := EmptyString; linebufferpos := 0;
     rawtokens := replicate 5 RawToken_default; rawtokenpos := 0;
     processedtokens := []; sectiontokens := ∅;
     builder := Builder_new sense |}.

(** ** A strtod for the examples

    [strtod] belongs to the C library, and the lexer above is stated for
    any.  The examples run it with the function below, which converts the
    decimal forms (digits with an optional point and an optional decimal
    exponent, after optional white space and sign) and INF, INFINITY and NAN,
    rounding to the nearest double.  The hexadecimal forms and the form
    NAN(...) are left out: on a text that starts with one of them the function
    converts less than the C library does. *)

Definition digit_of (c : ascii) : option Z :=
  let n := nat_of_ascii c in
  if ((48 <=? n) && (n <=? 57))%nat then Some (Z.of_nat (n - 48)) else None.

(** The leading digits of [s], appended to [acc]; how many; the rest. *)
Fixpoint digits (s : string) (acc : Z) : Z * nat * string :=
  match s with
  | EmptyString => (acc, 0, s)
  | String c s' =>
      match digit_of c with
      | Some d => let '(v, n, rest) := digits s' (10 * acc + d)%Z in (v, S n, rest)
      | None => (acc, 0, s)
      end
  end.

Definition isspace (c : ascii) : bool :=
  let n := nat_of_ascii c in ((n =? 32) || ((9 <=? n) && (n <=? 13)))%nat.

Fixpoint skip_space (s : string) : nat * string :=
  match s with
  | String c s' => if isspace c then let '(n, rest) := skip_space s' in (S n, rest) else (0, s)
  | EmptyString => (0, s)
  end.

Definition sign_of (s : string) : bool * nat * string :=
  match s with
  | String "-" s' => (true, 1, s')
  | String "+" s' => (false, 1, s')
  | _ => (false, 0, s)
  end.

(** [m * 10 ^ e] rounded to the nearest double. *)
Definition decimal (neg : bool) (m e : Z) : double :=
  match m with
  | Zpos p =>
      if (0 <=? e)%Z then binary_normalize prec emax (cond_Zopp neg (m * 10 ^ e)) 0 neg
      else
        match (10 ^ (- e))%Z with
        | Zpos q => SFdiv prec emax (S754_finite neg p 0) (S754_finite false q 0)
        | _ => S754_nan
        end
  | _ => S754_zero neg
  end.

Definition starts_with (p s : string) : bool :=
  bool_decide (transform_tolower (String.substring 0 (String.length p) s) = p).

Definition strtod_decimal (s : string) : double * nat :=
  let '(n0, s) := skip_space s in
  let '(neg, n1, s) := sign_of s in
  let '(m, ni, s) := digits s 0 in
  let '(m, nf, np, s) :=
    match s with
    | String "." s' => let '(m, nf, rest) := digits s' m in (m, nf, 1, rest)
    | _ => (m, 0, 0, s)
    end in
  if decide (ni + nf = 0) then
    if decide (np ≠ 0) then (d0, 0)
    else if starts_with "infinity" s then (S754_infinity neg, n0 + n1 + 8)
    else if starts_with "inf" s then (S754_infinity neg, n0 + n1 + 3)
    else if starts_with "nan" s then (S754_nan, n0 + n1 + 3)
    else (d0, 0)
  else
    let '(e, ne) :=
      match s with
      | String c s' =>
          if decide (c = "e"%char ∨ c = "E"%char) then
            let '(eneg, n2, s'') := sign_of s' in
            let '(e, n3, _) := digits s'' 0 in
            if decide (n3 = 0) then (0%Z, 0) else (cond_Zopp eneg e, 1 + n2 + n3)
          else (0%Z, 0)
      | EmptyString => (0%Z, 0)
      end in
    (decimal neg m (e - Z.of_nat nf), n0 + n1 + ni + np + nf + ne).

(** * Properties

    ** What the statements are about *)

Section Predicates.

Implicit Types (toks rest : list ProcessedToken) (st : sections)
  (k cur : LpSectionKeyword.t) (i j it : nat).

(** The tokens of [toks] from [begin_] on are those of [seg]. *)
Definition holds_at toks (begin_ : nat) (seg : list ProcessedToken) : Prop :=
  ∀ i t, seg !! i = Some t → toks !! (i + begin_) = Some t.

(** The token at [i] is the section keyword [k]. *)
Definition keyword_at toks i k : Prop := toks !! i = Some (TokSECID k).

(** The keyword at [i] has content: a token follows it that is not a
    section keyword. *)
Definition content_after toks i : Prop :=
  ∃ t, toks !! S i = Some t ∧ is_SECID t = false.

Definition recorded_at toks i k : Prop :=
  keyword_at toks i k ∧ content_after toks i.

(** A keyword occurs that the map holds already, or that occurs with
    content before. *)
Definition duplicate toks st : Prop :=
  ∃ j k, keyword_at toks j k
         ∧ (is_Some (st !! k) ∨ ∃ i, i < j ∧ recorded_at toks i k).

(** A keyword occurs again after an occurrence of it with content. *)
Definition duplicated toks : Prop :=
  ∃ i j k, i < j ∧ recorded_at toks i k ∧ keyword_at toks j k.

(** The open section, if any, has its entry. *)
Definition open_ok cur st : Prop :=
  cur = LpSectionKeyword.NONE ∨ is_Some (st !! cur).

(** The kind of the variable [name]: the one it has, or, when it is not
    registered yet, the one it gets at its first reference. *)
Definition kind (b : Builder) (name : string) : VariableType.t :=
  default VariableType.CONTINUOUS (Var.type <$> variables b !! name).

(** What one entry of the semicontinuous section makes of a kind. *)
Definition semi_rule (k : VariableType.t) : VariableType.t :=
  if decide (k = VariableType.GENERAL)
  then VariableType.SEMIINTEGER else VariableType.SEMICONTINUOUS.

(** How often [names] lists [name]. *)
Definition listings (names : list string) (name : string) : nat :=
  length (filter (λ n, n = name) names).

(** What an entry of a section that lists variables does to the builder. *)
Definition entry (body : Var.t → Var.t) (b : Builder) (name : string) : Builder :=
  update_var name body (getvarbyname name b).

(** The bracket at [it] is followed, inside the range, by a slash and a
    constant that compares equal to 2.0. *)
Definition halved toks it (end_ : nat) : Prop :=
  S it ≠ end_ ∧ S (S it) ≠ end_ ∧ toks !! S it = Some TokSLASH
  ∧ ∃ v, toks !! S (S it) = Some (TokCONST v) ∧ SFcompare v d2 = Some Eq.





Definition d3 : double := double_of_Z 3.
Definition d7 : double := double_of_Z 7.

(** A reader that holds the given tokens and nothing else. *)
Definition reader_on (toks : list ProcessedToken) : Reader :=
  with_processedtokens toks (Reader_new [] ObjectiveSense.MIN).

(** A reader that holds the given tokens, section map and builder. *)
Definition reader_with (toks : list ProcessedToken) (st : sections) (b : Builder)
    : Reader :=
  with_builder b (with_sectiontokens st (reader_on toks)).

(** The integer section lists x, the semicontinuous section x and y. *)
Definition semi_tokens : list ProcessedToken :=
  [TokSECID LpSectionKeyword.GEN; TokVARID "x";
   TokSECID LpSectionKeyword.SEMI; TokVARID "x"; TokVARID "y"].

Definition semi_reader : Reader :=
  reader_with semi_tokens
    {[ LpSectionKeyword.GEN := (2, 2); LpSectionKeyword.SEMI := (3, 5) ]}
    (entry gensec_body (Builder_new ObjectiveSense.MIN) "x").

(** The integer section lists x, the semicontinuous section x twice. *)
Definition semi_twice_tokens : list ProcessedToken :=
  [TokSECID LpSectionKeyword.GEN; TokVARID "x";
   TokSECID LpSectionKeyword.SEMI; TokVARID "x"; TokVARID "x"].

Definition semi_twice_reader : Reader :=
  reader_with semi_twice_tokens
    {[ LpSectionKeyword.GEN := (2, 2); LpSectionKeyword.SEMI := (3, 5) ]}
    (entry gensec_body (Builder_new ObjectiveSense.MIN) "x").


End Predicates.

(** ** What the further properties are about

    Predicates on readers and builders, and the token sequences of the
    well-formed sections, for the properties that follow those of the
    specification. *)

(** The input is exhausted: no line is left and the line buffer has been
    read to its end. *)
Definition exhausted (r : Reader) : Prop :=
  file r = [] ∧ linebufferpos r = String.length (linebuffer r).

(** What is still to come: the input not yet read and the raw tokens of
    the window that are not the end-of-file token. *)
Definition pending (r : Reader) : nat :=
  unread r + length (filter (λ t, rtype t ≠ RawTokenType.FLEND) (rawtokens r)).

(** The tokens [processtokens] emits: every shape but the plain [NONE], the
    line end, and the section keyword [NONE]. *)
Definition emitted (t : ProcessedToken) : Prop :=
  t ≠ TokNONE ∧ t ≠ TokLNEND ∧ t ≠ TokSECID LpSectionKeyword.NONE.

(** An end-of-file token in the window means that the input is exhausted. *)
Definition flend_last (r : Reader) : Prop :=
  ∀ t, t ∈ rawtokens r → rtype t = RawTokenType.FLEND → exhausted r.

(** [fill i] has put a token into slot [i]. *)
Definition filled (i : nat) (r r' : Reader) : Prop :=
  ∃ t, rawtokens r' = <[i := t]> (rawtokens r)
       ∧ rtype t ≠ RawTokenType.NONE
       ∧ rawtokenpos r' = rawtokenpos r
       ∧ (rtype t = RawTokenType.FLEND ∧ exhausted r' ∧ unread r' ≤ unread r
          ∨ rtype t ≠ RawTokenType.FLEND ∧ unread r' < unread r).

(** What the lexer leaves alone. *)
Definition same_parse (r r' : Reader) : Prop :=
  processedtokens r' = processedtokens r ∧ sectiontokens r' = sectiontokens r
  ∧ builder r' = builder r.

(** What one turn of the loop of [processtokens] does to the reader. *)
Definition classified (r r' : Reader) : Prop :=
  length (rawtokens r') = 5 ∧ pending r' < pending r
  ∧ sectiontokens r' = sectiontokens r ∧ builder r' = builder r
  ∧ (∃ new, processedtokens r' = processedtokens r ++ new ∧ Forall emitted new)
  ∧ (flend_last r → flend_last r').

(** A turn of the loop ends, and when it returns it has classified. *)
Definition turn (r : Reader) (m : outcome Reader) : Prop :=
  m ≠ OutOfFuel ∧ ∀ r', m = Ok r' → classified r r'.

(** The slots below [k] hold an end-of-file token only when the input is
    exhausted. *)
Definition slots_read (k : nat) (r : Reader) : Prop :=
  ∀ j t, j < k → rawtokens r !! j = Some t → rtype t = RawTokenType.FLEND →
         exhausted r.

(** The token at [j] is no section keyword. *)
Definition plain_at (toks : list ProcessedToken) (j : nat) : Prop :=
  ∃ t, toks !! j = Some t ∧ is_SECID t = false.

(** [begin_] and [end_] delimit the section of the keyword [k]: the keyword
    stands right before [begin_], the tokens from [begin_] up to [end_] are no
    section keywords and there is at least one, and at [end_] the tokens end
    or the next section keyword stands. *)
Definition section_range (toks : list ProcessedToken) (k : LpSectionKeyword.t)
    (begin_ end_ : nat) : Prop :=
  0 < begin_ ∧ begin_ < end_ ∧ end_ ≤ length toks
  ∧ toks !! (begin_ - 1) = Some (TokSECID k)
  ∧ (∀ j, begin_ ≤ j < end_ → plain_at toks j)
  ∧ (end_ < length toks → ∃ k', toks !! end_ = Some (TokSECID k')).

(** What [splittokens] has recorded when its iterator stands at [it]: the
    open section, if any, begins behind its keyword and holds no keyword so
    far; every other section is delimited. *)
Definition split_inv (toks : list ProcessedToken) (it : nat)
    (cur : LpSectionKeyword.t) (st : sections) : Prop :=
  (cur ≠ LpSectionKeyword.NONE →
   ∃ b e, st !! cur = Some (b, e) ∧ 0 < b ≤ it
          ∧ toks !! (b - 1) = Some (TokSECID cur) ∧ plain_at toks b
          ∧ ∀ j, b ≤ j < it → plain_at toks j)
  ∧ (∀ k b e, k ≠ LpSectionKeyword.NONE → k ≠ cur → st !! k = Some (b, e) →
              section_range toks k b e).

(** [m] ends within its counter, and when it returns, the result
    satisfies [Q]. *)
Definition returns {A : Type} (Q : A → Prop) (m : outcome A) : Prop :=
  match m with
  | Ok a => Q a
  | OutOfFuel => False
  | _ => True
  end.

(** [m] reads a token: it returns or is undefined. *)
Definition reads {A : Type} (m : outcome A) : Prop :=
  match m with
  | Ok _ | Undefined => True
  | _ => False
  end.

(** What a section processor leaves behind. *)
Definition processed (R : Builder → Builder → Prop) (r r' : Reader) : Prop :=
  R (builder r) (builder r') ∧ processedtokens r' = processedtokens r.

(** The bounds of the variable [name]: those it has, or, when it is not
    registered yet, those it gets at its first reference. *)
Definition bounds (b : Builder) (name : string) : double * double :=
  default (d0, infinity)
    ((λ v, (Var.lowerbound v, Var.upperbound v)) <$> variables b !! name).

(** What one entry of the integer section makes of a kind. *)
Definition gen_rule (k : VariableType.t) : VariableType.t :=
  if decide (k = VariableType.SEMICONTINUOUS)
  then VariableType.SEMIINTEGER else VariableType.GENERAL.

(** [b'] holds what [b] holds, and possibly more behind it. *)
Definition grows (b b' : Builder) : Prop :=
  Model.constraints (model b) `prefix_of` Model.constraints (model b')
  ∧ Model.soss (model b) `prefix_of` Model.soss (model b')
  ∧ Model.variables (model b) `prefix_of` Model.variables (model b')
  ∧ (∀ name, is_Some (variables b !! name) → is_Some (variables b' !! name)).

(** The parts of the model other than its variables. *)
Definition same_model (b b' : Builder) : Prop :=
  Model.objective (model b') = Model.objective (model b)
  ∧ Model.sense (model b') = Model.sense (model b)
  ∧ Model.constraints (model b') = Model.constraints (model b)
  ∧ Model.soss (model b') = Model.soss (model b).

(** A linear term as it is written: a variable, with or without a
    coefficient before it. *)
Definition term : Type := option double * string.

Definition term_tokens (t : term) : list ProcessedToken :=
  match t.1 with
  | Some coef => [TokCONST coef; TokVARID t.2]
  | None => [TokVARID t.2]
  end.

Definition linear_tokens (terms : list term) : list ProcessedToken :=
  terms ≫= term_tokens.

Definition label_tokens (label : option string) : list ProcessedToken :=
  match label with
  | Some name => [TokCONID name]
  | None => []
  end.

(** What [parseexpression] makes of a term: a coefficient left out is 1. *)
Definition term_of (t : term) : LinTerm.t :=
  {| LinTerm.coef := default d1 t.1; LinTerm.var := t.2 |}.

Definition add_terms (terms : list term) (expr : Expression.t) : Expression.t :=
  foldl (λ e t, Expression.push_linterm (term_of t) e) expr terms.

Definition register (terms : list term) (b : Builder) : Builder :=
  foldl (λ b t, getvarbyname t.2 b) b terms.

Definition set_label (label : option string) (expr : Expression.t) : Expression.t :=
  match label with
  | Some name => Expression.set_name name expr
  | None => expr
  end.

(** A row of the constraints section: label, terms, comparison, right-hand
    side. *)
Record row := {
  row_label : option string;
  row_terms : list term;
  row_dir : LpComparisonType.t;
  row_rhs : double
}.

Definition row_tokens (c : row) : list ProcessedToken :=
  label_tokens (row_label c) ++ linear_tokens (row_terms c)
  ++ [TokCOMP (row_dir c); TokCONST (row_rhs c)].

Definition row_expr (c : row) : Expression.t :=
  add_terms (row_terms c) (set_label (row_label c) Expression.new).

(** The constraint of a row: [=] sets both bounds, [<=] the upper and [>=]
    the lower one. *)
Definition row_constraint (c : row) : Constraint.t :=
  {| Constraint.lowerbound :=
       match row_dir c with
       | LpComparisonType.EQ | LpComparisonType.GEQ => row_rhs c
       | _ => dneg infinity
       end;
     Constraint.upperbound :=
       match row_dir c with
       | LpComparisonType.EQ | LpComparisonType.LEQ => row_rhs c
       | _ => infinity
       end;
     Constraint.expr := row_expr c |}.

Definition add_row (b : Builder) (c : row) : Builder :=
  update_model (push_constraint (row_constraint c)) (register (row_terms c) b).

(** The comparisons a row may be written with. *)
Definition weak (dir : LpComparisonType.t) : Prop :=
  dir = LpComparisonType.LEQ ∨ dir = LpComparisonType.EQ ∨ dir = LpComparisonType.GEQ.

(** The expression ends where its range ends or a comparison stands. *)
Definition ends_at (toks : list ProcessedToken) (j end_ : nat) : Prop :=
  j = end_ ∨ (j < end_ ∧ ∃ dir, toks !! j = Some (TokCOMP dir)).

(** The objective section that [processobjsec] reads: the minimize section,
    or, when there is none, the maximize section. *)
Definition objective_section (r : Reader) (k : LpSectionKeyword.t) : Prop :=
  k = LpSectionKeyword.OBJMIN
  ∨ (k = LpSectionKeyword.OBJMAX ∧ sectiontokens r !! LpSectionKeyword.OBJMIN = None).

Definition sense_of (k : LpSectionKeyword.t) : ObjectiveSense.t :=
  if decide (k = LpSectionKeyword.OBJMIN) then ObjectiveSense.MIN else ObjectiveSense.MAX.

(** An entry of a special ordered set as it is written: a variable, a
    colon, a weight. *)
Definition entry_tokens (e : string * double) : list ProcessedToken :=
  [TokCONID e.1; TokCONST e.2].

(** A special ordered set as it is written: its name, its type, its
    entries. *)
Definition set_tokens (name : string) (sostype : SosType.t)
    (entries : list (string * double)) : list ProcessedToken :=
  [TokCONID name; TokSOSTYPE sostype] ++ (entries ≫= entry_tokens).

Definition set_of (name : string) (sostype : SosType.t)
    (entries : list (string * double)) : SOS.t :=
  {| SOS.name := name;
     SOS.type := if decide (sostype = SosType.SOS1) then 1 else 2;
     SOS.entries := entries |}.

Definition register_entries (entries : list (string * double)) (b : Builder) : Builder :=
  foldl (λ b e, getvarbyname e.1 b) b entries.

(** The comparison read from the other side. *)
Definition mirror (dir : LpComparisonType.t) : LpComparisonType.t :=
  match dir with
  | LpComparisonType.LEQ => LpComparisonType.GEQ
  | LpComparisonType.GEQ => LpComparisonType.LEQ
  | LpComparisonType.EQ => LpComparisonType.EQ
  | LpComparisonType.L => LpComparisonType.G
  | LpComparisonType.G => LpComparisonType.L
  end.

(** The bounds that  value dir x  leaves of the bounds (lb, ub). *)
Definition bounded (dir : LpComparisonType.t) (value : double) (old : double * double)
    : double * double :=
  match dir with
  | LpComparisonType.LEQ => (value, old.2)
  | LpComparisonType.GEQ => (old.1, value)
  | _ => (value, value)
  end.

#[local] Instance exhausted_dec r : Decision (exhausted r).
Proof. unfold exhausted. apply _. Defined.

(** A line that holds nothing to read: blanks and tabs, and then the end
    of the line, or a backslash or a semicolon and anything behind it. *)
Fixpoint blank (s : string) : bool :=
  match s with
  | EmptyString => true
  | String c s =>
      if decide (c = " "%char ∨ c = TAB) then blank s
      else bool_decide (c = "\"%char ∨ c = ";"%char)
  end.

(** Nothing is left to read but blank lines. *)
Definition blank_rest (r : Reader) : Prop :=
  linebufferpos r ≤ String.length (linebuffer r)
  ∧ blank (suffix (linebuffer r) (linebufferpos r)) = true
  ∧ Forall (λ line, blank (drop_cr line) = true) (file r).

(** An upper-case letter of ASCII. *)
Definition is_upper (c : ascii) : bool :=
  (65 <=? nat_of_ascii c) && (nat_of_ascii c <=? 90).

(** [c] and [c'] are the same character, or the upper-case and the
    lower-case form of one letter: in ASCII the lower-case form stands 32
    places behind the upper-case form. *)
Definition same_letter (c c' : ascii) : bool :=
  bool_decide (c = c')
  || (is_upper c && (nat_of_ascii c' =? nat_of_ascii c + 32))
  || (is_upper c' && (nat_of_ascii c =? nat_of_ascii c' + 32)).

(** Two strings that differ in nothing but the case of letters. *)
Fixpoint same_word (s s' : string) : bool :=
  match s, s' with
  | EmptyString, EmptyString => true
  | String c s, String c' s' => same_letter c c' && same_word s s'
  | _, _ => false
  end.

(** The window holds the strings FREE and end, read behind the variable
    x, and the end of the file. *)
Definition free_reader : Reader :=
  with_rawtokens
    [assign_string RawToken_default "FREE";
     assign_string RawToken_default "end";
     assign_type RawToken_default RawTokenType.FLEND;
     assign_type RawToken_default RawTokenType.FLEND;
     assign_type RawToken_default RawTokenType.FLEND] 0
    (reader_on [TokVARID "x"]).

(** The model of a file that holds nothing: an objective without terms,
    no constraint, no variable, no set. *)
Definition empty_model (sense : ObjectiveSense.t) : Builder :=
  update_model (set_objective Expression.new) (Builder_new sense).



(** c1: 2 x + y <= 7   and   x >= 1 *)
Definition two_rows : list row :=
  [ {| row_label := Some "c1"; row_terms := [(Some d2, "x"); (None, "y")];
       row_dir := LpComparisonType.LEQ; row_rhs := d7 |};
    {| row_label := None; row_terms := [(None, "x")];
       row_dir := LpComparisonType.GEQ; row_rhs := d1 |} ].

(** The window holds  / * a * /  and the line goes on with  b c d e. *)
Definition comment_reader : Reader :=
  with_rawtokens
    [assign_type RawToken_default RawTokenType.SLASH;
     assign_type RawToken_default RawTokenType.ASTERISK;
     assign_string RawToken_default "a";
     assign_type RawToken_default RawTokenType.ASTERISK;
     assign_type RawToken_default RawTokenType.SLASH] 0
    (with_line " b c d e" [] (Reader_new [] ObjectiveSense.MIN)).

#[local] Set Warnings "-clear-no-such-hyp".

(** ** The section splitter *)

Section Splitter.

Implicit Types (toks rest : list ProcessedToken) (st : sections)
  (k cur : LpSectionKeyword.t) (i j it : nat).

Lemma set_second_Some k it st k' :
  is_Some (st !! k) → is_Some (set_second k it st !! k') ↔ is_Some (st !! k').
Proof.
  intros Hk. unfold set_second.
  destruct (decide (k = k')) as [->|Hne].
  - rewrite lookup_insert_eq. split; eauto.
  - by rewrite lookup_insert_ne.
Qed.

Lemma set_first_Some k it st k' :
  is_Some (set_first k it st !! k') ↔ k = k' ∨ is_Some (st !! k').
Proof.
  unfold set_first. destruct (decide (k = k')) as [->|Hne].
  - rewrite lookup_insert_eq. split; eauto.
  - rewrite lookup_insert_ne by done. naive_solver.
Qed.

Lemma close_open_Some cur it st k :
  open_ok cur st →
  is_Some ((if decide (cur ≠ LpSectionKeyword.NONE)
            then set_second cur it st else st) !! k) ↔ is_Some (st !! k).
Proof.
  intros [->|Hcur]; case_decide; try done.
  by apply set_second_Some.
Qed.

Lemma count_zero st k : count st k = 0 ↔ st !! k = None.
Proof. unfold count. destruct (st !! k); naive_solver. Qed.

Lemma keyword_at_cons t rest j k :
  keyword_at (t :: rest) j k ↔
  (j = 0 ∧ t = TokSECID k) ∨ (∃ j', j = S j' ∧ keyword_at rest j' k).
Proof.
  unfold keyword_at. destruct j as [|j]; simpl; naive_solver.
Qed.

Lemma recorded_at_S t rest i k :
  recorded_at (t :: rest) (S i) k ↔ recorded_at rest i k.
Proof. done. Qed.

Lemma recorded_at_0 t rest k :
  recorded_at (t :: rest) 0 k ↔
  t = TokSECID k ∧ ∃ n, head rest = Some n ∧ is_SECID n = false.
Proof.
  unfold recorded_at, keyword_at, content_after. simpl.
  rewrite <-head_lookup. naive_solver.
Qed.

(** Skipping a token that records nothing. *)
Lemma duplicate_skip t rest st st' :
  (∀ k, is_Some (st' !! k) ↔ is_Some (st !! k)) →
  (∀ k, t = TokSECID k → st !! k = None) →
  (∀ k, ¬ recorded_at (t :: rest) 0 k) →
  duplicate (t :: rest) st ↔ duplicate rest st'.
Proof.
  intros Hst Hfresh Hrec. split.
  - intros (j & k & Hj & Hdup).
    apply keyword_at_cons in Hj as [[-> ->]|(j' & -> & Hj')].
    + destruct Hdup as [Hin|(i & Hi & _)]; [|lia].
      rewrite Hfresh in Hin by done. by destruct Hin.
    + exists j', k. split; [done|].
      destruct Hdup as [Hin|(i & Hi & Hr)]; [left; by apply Hst|].
      destruct i as [|i]; [by apply Hrec in Hr|].
      right. exists i. split; [lia|done].
  - intros (j & k & Hj & Hdup). exists (S j), k. split; [done|].
    destruct Hdup as [Hin|(i & Hi & Hr)]; [left; by apply Hst|].
    right. exists (S i). split; [lia|done].
Qed.

(** Skipping a keyword that has been recorded. *)
Lemma duplicate_record kw rest st st' :
  (∀ k, is_Some (st' !! k) ↔ kw = k ∨ is_Some (st !! k)) →
  st !! kw = None →
  recorded_at (TokSECID kw :: rest) 0 kw →
  duplicate (TokSECID kw :: rest) st ↔ duplicate rest st'.
Proof.
  intros Hst Hfresh Hrec. split.
  - intros (j & k & Hj & Hdup).
    apply keyword_at_cons in Hj as [[-> [= <-]]|(j' & -> & Hj')].
    + destruct Hdup as [Hin|(i & Hi & _)]; [|lia].
      rewrite Hfresh in Hin. by destruct Hin.
    + exists j', k. split; [done|].
      destruct Hdup as [Hin|(i & Hi & Hr)]; [left; apply Hst; by right|].
      destruct i as [|i].
      * left. apply Hst. left. destruct Hr as [Hr _]. by injection Hr.
      * right. exists i. split; [lia|done].
  - intros (j & k & Hj & Hdup). exists (S j), k. split; [done|].
    destruct Hdup as [Hin|(i & Hi & Hr)].
    + apply Hst in Hin as [<-|Hin]; [|by left].
      right. exists 0. split; [lia|done].
    + right. exists (S i). split; [lia|done].
Qed.

(** What the loop does: it throws exactly on a duplicate, and
    otherwise leaves an entry for every keyword with content. *)
Lemma splittokens_loop_spec rest : ∀ it cur st,
  open_ok cur st →
  (duplicate rest st ∧ splittokens_loop rest it cur st = Throw DuplicateSection)
  ∨ (¬ duplicate rest st ∧
     ∃ cur' st', splittokens_loop rest it cur st = Ok (cur', st')
       ∧ open_ok cur' st'
       ∧ ∀ k, is_Some (st' !! k) ↔ is_Some (st !! k) ∨ ∃ i, recorded_at rest i k).
Proof.
  induction rest as [|t rest IH]; intros it cur st Hopen.
  { right. split.
    - intros (j & k & Hj & _). unfold keyword_at in Hj. by rewrite lookup_nil in Hj.
    - exists cur, st. split_and!; [done..|].
      intros k. split; [by left|]. intros [?|(i & Hi & _)]; [done|].
      unfold keyword_at in Hi. by rewrite lookup_nil in Hi. }
  assert (Hplain : (∀ k, t ≠ TokSECID k) →
    splittokens_loop (t :: rest) it cur st = splittokens_loop rest (S it) cur st).
  { intros Ht. destruct t; try done. by destruct (Ht keyword). }
  assert (Hcase : (∃ k, t = TokSECID k) ∨ ∀ k, t ≠ TokSECID k)
    by (destruct t; eauto).
  destruct Hcase as [[kw ->]|Hno']; last first.
  {      rewrite Hplain by done.
    assert (Hdup : duplicate (t :: rest) st ↔ duplicate rest st).
    { apply duplicate_skip; [done|intros k Hk; by apply Hno' in Hk|].
      intros k [Hk _]. injection Hk as ->. by apply (Hno' k). }
    destruct (IH (S it) cur st Hopen) as [[Hd ->]|(Hd & cur' & st' & -> & Ho & Hst)].
    - left. by rewrite Hdup.
    - right. rewrite Hdup. split; [done|]. exists cur', st'. split_and!; [done..|].
      intros k. rewrite Hst. apply or_iff_compat_l. split.
      + intros (i & Hi). by exists (S i).
      + intros ([|i] & Hi); [|by exists i].
        destruct Hi as [Hk _]. injection Hk as ->. by destruct (Hno' k). }
  simpl.
  set (st1 := if decide (cur ≠ LpSectionKeyword.NONE) then set_second cur it st else st).
  assert (Hst1 : ∀ k, is_Some (st1 !! k) ↔ is_Some (st !! k))
    by (intros k; by apply close_open_Some).
  destruct (st !! kw) as [p|] eqn:Hkw.
  { left. split.
    - exists 0, kw. split; [done|]. left. by rewrite Hkw.
    - assert (is_Some (st1 !! kw)) as [q Hq] by (apply Hst1; by rewrite Hkw).
      unfold count. by rewrite Hq. }
  assert (Hkw1 : st1 !! kw = None).
  { apply eq_None_not_Some. rewrite Hst1, Hkw. by intros []. }
  rewrite (proj2 (count_zero st1 kw) Hkw1). simpl.
  assert (Hempty : ¬ (∃ n, head rest = Some n ∧ is_SECID n = false) →
    (duplicate (TokSECID kw :: rest) st
       ∧ splittokens_loop rest (S it) LpSectionKeyword.NONE st1 = Throw DuplicateSection)
    ∨ (¬ duplicate (TokSECID kw :: rest) st ∧
       ∃ cur' st', splittokens_loop rest (S it) LpSectionKeyword.NONE st1 = Ok (cur', st')
         ∧ open_ok cur' st'
         ∧ ∀ k, is_Some (st' !! k) ↔
                is_Some (st !! k) ∨ ∃ i, recorded_at (TokSECID kw :: rest) i k)).
  { intros Hnone.
    assert (Hnorec : ∀ k, ¬ recorded_at (TokSECID kw :: rest) 0 k).
    { intros k Hr. apply recorded_at_0 in Hr as [_ Hr]. by apply Hnone. }
    assert (Hdup : duplicate (TokSECID kw :: rest) st ↔ duplicate rest st1).
    { apply duplicate_skip; [done| |done]. by intros k [= <-]. }
    destruct (IH (S it) LpSectionKeyword.NONE st1) as [[Hd ->]|(Hd & cur' & st' & -> & Ho & Hst)];
      [by left| |].
    - left. by rewrite Hdup.
    - right. rewrite Hdup. split; [done|]. exists cur', st'. split_and!; [done..|].
      intros k. rewrite Hst, Hst1. apply or_iff_compat_l. split.
      + intros (i & Hi). by exists (S i).
      + intros ([|i] & Hi); [by apply Hnorec in Hi|by exists i]. }
  destruct rest as [|next rest'] eqn:Hrest.
  { apply Hempty. by intros (n & [=] & _). }
  destruct (is_SECID next) eqn:Hnext.
  { apply Hempty. intros (n & [= <-] & Hn). congruence. }
  rewrite <-Hrest in *. clear Hempty.
  set (st2 := set_first kw (S it) st1).
  assert (Hst2 : ∀ k, is_Some (st2 !! k) ↔ kw = k ∨ is_Some (st !! k)).
  { intros k. unfold st2. by rewrite set_first_Some, Hst1. }
  assert (Hrec : recorded_at (TokSECID kw :: rest) 0 kw).
  { apply recorded_at_0. split; [done|]. exists next. by rewrite Hrest. }
  assert (Hdup : duplicate (TokSECID kw :: rest) st ↔ duplicate rest st2)
    by by apply duplicate_record.
  destruct (IH (S it) kw st2) as [[Hd ->]|(Hd & cur' & st' & -> & Ho & Hst)].
  - right. apply Hst2. by left.
  - left. by rewrite Hdup.
  - right. rewrite Hdup. split; [done|]. exists cur', st'. split_and!; [done..|].
    intros k. rewrite Hst, Hst2. split.
    + intros [[<-|?]|(i & Hi)]; [right; by exists 0|by left|right; by exists (S i)].
    + intros [?|([|i] & Hi)]; [left; by right| |right; by exists i].
      left. left. destruct Hi as [Hi _]. by injection Hi.
Qed.


(** [splittokens] on a reader whose section map is empty, as [read] calls
    it. *)
Lemma splittokens_spec (r : Reader) :
  sectiontokens r = ∅ →
  (duplicated (processedtokens r) ∧ splittokens r = Throw DuplicateSection)
  ∨ (¬ duplicated (processedtokens r) ∧
     ∃ r', splittokens r = Ok r'
       ∧ ∀ k, is_Some (sectiontokens r' !! k) ↔ ∃ i, recorded_at (processedtokens r) i k).
Proof.
  intros Hempty. unfold splittokens.
  assert (Hdup : duplicate (processedtokens r) ∅ ↔ duplicated (processedtokens r)).
  { split.
    - intros (j & k & Hj & [Hin|(i & Hi & Hr)]).
      + rewrite lookup_empty in Hin. by destruct Hin.
      + by exists i, j, k.
    - intros (i & j & k & Hlt & Hr & Hj). exists j, k. split; [done|].
      right. by exists i. }
  destruct (splittokens_loop_spec (processedtokens r) 0 LpSectionKeyword.NONE
              (sectiontokens r)) as [[Hd ->]|(Hd & cur' & st' & -> & Ho & Hst)].
  - by left.
  - left. rewrite Hempty in Hd. by apply Hdup in Hd.
  - right. rewrite Hempty in Hd, Hst. split; [by rewrite <-Hdup|].
    eexists. split; [done|]. intros k. simpl.
    rewrite close_open_Some by done. rewrite Hst.
    split; [|by right]. intros [Hin|?]; [|done].
    rewrite lookup_empty in Hin. by destruct Hin.
Qed.

End Splitter.

(** C3 (as amended).  A section keyword that occurs again after an
    occurrence of the same keyword with content makes [splittokens] fail
    with [DuplicateSection]; when [splittokens] accepts the tokens, the section
    map has an entry for a keyword exactly when the keyword occurs with
    content, and it does so at one place only. *)
Theorem splittokens_duplicate_section (r : Reader) :
  sectiontokens r = ∅ →
  (∀ i j k, i < j → recorded_at (processedtokens r) i k →
            keyword_at (processedtokens r) j k →
            splittokens r = Throw DuplicateSection)
  ∧ (∀ r', splittokens r = Ok r' →
       ∀ k, (is_Some (sectiontokens r' !! k) ↔ ∃ i, recorded_at (processedtokens r) i k)
            ∧ (∀ i i', recorded_at (processedtokens r) i k →
                       recorded_at (processedtokens r) i' k → i = i')).
Proof.
  intros Hempty.
  destruct (splittokens_spec r Hempty) as [[Hd Hr]|(Hd & r' & Hr & Hst)].
  - split; [done|]. intros r'' Hr''. congruence.
  - split.
    + intros i j k Hlt Hi Hj. destruct Hd. by exists i, j, k.
    + intros r'' Hr'' k. assert (r'' = r') as -> by congruence.
      split; [done|]. intros i i' Hi Hi'.
      destruct (Nat.lt_trichotomy i i') as [Hlt|[->|Hlt]]; [|done|].
      * destruct Hd. exists i, i', k. split_and!; [done..|]. by destruct Hi'.
      * destruct Hd. exists i', i, k. split_and!; [done..|]. by destruct Hi.
Qed.

(** C9.  When of any two occurrences of a section keyword the earlier one
    is empty, [splittokens] succeeds; and when it fails, the error is
    [DuplicateSection] and some keyword occurs again after an occurrence of it
    with content. *)
Theorem splittokens_empty_repeats (r : Reader) :
  sectiontokens r = ∅ →
  ((∀ i j k, i < j → keyword_at (processedtokens r) i k →
             keyword_at (processedtokens r) j k →
             ¬ content_after (processedtokens r) i) →
   ∃ r', splittokens r = Ok r')
  ∧ ((∀ r', splittokens r ≠ Ok r') →
       splittokens r = Throw DuplicateSection
       ∧ ∃ i j k, i < j ∧ recorded_at (processedtokens r) i k
                  ∧ keyword_at (processedtokens r) j k).
Proof.
  intros Hempty.
  destruct (splittokens_spec r Hempty) as [[Hd Hr]|(Hd & r' & Hr & Hst)].
  - split; [|done].
    intros Hrep. destruct Hd as (i & j & k & Hlt & [Hi Hc] & Hj).
    by destruct (Hrep i j k).
  - split; [by exists r'|]. intros Hne. by destruct (Hne r').
Qed.


(** ** Iterators and tokens *)

Section Iterators.

Implicit Types (toks : list ProcessedToken) (it : nat).

Lemma deref_Some toks it t : toks !! it = Some t → deref toks it = Ok t.
Proof. unfold deref. by intros ->. Qed.

Lemma type_at_Some toks it t ty :
  toks !! it = Some t → type_at toks it ty = Ok (bool_decide (ptype t = ty)).
Proof. unfold type_at. by intros ->%deref_Some. Qed.

Lemma type_differs_at_Some toks it t ty :
  toks !! it = Some t → type_differs_at toks it ty = Ok (bool_decide (ptype t ≠ ty)).
Proof. unfold type_differs_at. by intros ->%deref_Some. Qed.

Lemma name_at_VARID toks it n : toks !! it = Some (TokVARID n) → name_at toks it = Ok n.
Proof. unfold name_at. by intros ->%deref_Some. Qed.

Lemma name_at_CONID toks it n : toks !! it = Some (TokCONID n) → name_at toks it = Ok n.
Proof. unfold name_at. by intros ->%deref_Some. Qed.

Lemma value_at_CONST toks it v : toks !! it = Some (TokCONST v) → value_at toks it = Ok v.
Proof. unfold value_at. by intros ->%deref_Some. Qed.

Lemma dir_at_COMP toks it d : toks !! it = Some (TokCOMP d) → dir_at toks it = Ok d.
Proof. unfold dir_at. by intros ->%deref_Some. Qed.

Lemma sostype_at_SOSTYPE toks it s :
  toks !! it = Some (TokSOSTYPE s) → sostype_at toks it = Ok s.
Proof. unfold sostype_at. by intros ->%deref_Some. Qed.

Lemma differs_ne it (end_ : nat) : it ≠ end_ → differs it end_ = Ok true.
Proof. intros. unfold differs. by rewrite bool_decide_eq_true_2. Qed.

Lemma differs_eq it : differs it it = Ok false.
Proof. unfold differs. by rewrite bool_decide_eq_false_2 by (intros H; by apply H). Qed.

Lemma step_ne it (end_ : nat) : it ≠ end_ → step it end_ = S it.
Proof. intros. unfold step. by rewrite decide_True. Qed.

Lemma step_eq it : step it it = it.
Proof. unfold step. by rewrite decide_False by (intros H; by apply H). Qed.

End Iterators.


#[local] Arguments differs : simpl never.
#[local] Arguments step : simpl never.
#[local] Arguments type_at : simpl never.
#[local] Arguments type_differs_at : simpl never.
#[local] Arguments name_at : simpl never.
#[local] Arguments value_at : simpl never.
#[local] Arguments dir_at : simpl never.
#[local] Arguments sostype_at : simpl never.
#[local] Arguments getvarbyname : simpl never.
#[local] Arguments update_var : simpl never.
#[local] Arguments update_model : simpl never.

(** One step of symbolic execution: resolve the comparisons of iterators
    and the reads of tokens from the hypotheses at hand. *)
Ltac index_fact := solve [ assumption | lia | congruence ].

Ltac run_step :=
  match goal with
  | |- context [differs ?a ?a] => rewrite (differs_eq a)
  | |- context [differs ?a ?b] => rewrite (differs_ne a b) by index_fact
  | |- context [step ?a ?a] => rewrite (step_eq a)
  | |- context [step ?a ?b] => rewrite (step_ne a b) by index_fact
  | H : ?toks !! ?i = Some ?t |- context [type_at ?toks ?i ?ty] =>
      rewrite (type_at_Some toks i t ty H)
  | H : ?toks !! ?i = Some ?t |- context [type_differs_at ?toks ?i ?ty] =>
      rewrite (type_differs_at_Some toks i t ty H)
  | H : ?toks !! ?i = Some (TokVARID ?n) |- context [name_at ?toks ?i] =>
      rewrite (name_at_VARID toks i n H)
  | H : ?toks !! ?i = Some (TokCONID ?n) |- context [name_at ?toks ?i] =>
      rewrite (name_at_CONID toks i n H)
  | H : ?toks !! ?i = Some (TokCONST ?v) |- context [value_at ?toks ?i] =>
      rewrite (value_at_CONST toks i v H)
  | H : ?toks !! ?i = Some (TokCOMP ?d) |- context [dir_at ?toks ?i] =>
      rewrite (dir_at_COMP toks i d H)
  | H : ?toks !! ?i = Some (TokSOSTYPE ?d) |- context [sostype_at ?toks ?i] =>
      rewrite (sostype_at_SOSTYPE toks i d H)
  | |- context [bool_decide (ptype ?t = ?ty)] =>
      assert_fails (is_var t);
      let v := eval vm_compute in (bool_decide (ptype t = ty)) in
      change (bool_decide (ptype t = ty)) with v
  | |- context [bool_decide (ptype ?t ≠ ?ty)] =>
      assert_fails (is_var t);
      let v := eval vm_compute in (bool_decide (ptype t ≠ ty)) in
      change (bool_decide (ptype t ≠ ty)) with v
  | |- context [decide (?a = ?b)] =>
      first [ rewrite (decide_True (P := a = b)) by index_fact
            | rewrite (decide_False (P := a = b)) by index_fact ]
  | |- context [bool_decide (?a = ?b)] =>
      first [ rewrite (bool_decide_eq_true_2 (a = b)) by index_fact
            | rewrite (bool_decide_eq_false_2 (a = b)) by index_fact ]
  | |- context [bool_decide (?a ≠ ?b)] =>
      first [ rewrite (bool_decide_eq_true_2 (a ≠ b)) by index_fact
            | rewrite (bool_decide_eq_false_2 (a ≠ b)) by (intros ?; index_fact) ]
  | |- _ => progress cbn [bind and_then lpassert negb andb orb fst snd]
  end.

Ltac run := repeat run_step.

(** From [holds_at toks b seg], the token at each place of [seg]. *)
(** Write the counter [S (length toks - it)] of a loop as [n + 1] turns
    and a rest; the tokens known to stand behind [it] bound it from below. *)
Ltac turns toks it n :=
  replace (length toks - it) with (n + (length toks - it - n)) by lia;
  cbn [Nat.add].

Ltac tokens_upto H n :=
  lazymatch n with
  | 0 => idtac
  | S ?k =>
      let Hk := fresh "Htok" in
      pose proof (H k _ eq_refl) as Hk; cbn [Nat.add] in Hk; tokens_upto H k
  end.

Lemma differs_and_false it (end_ : nat) : differs it end_ &&& Ok false = Ok false.
Proof. unfold differs. cbn. by destruct (bool_decide _). Qed.

Section Bounds.

Implicit Types (toks : list ProcessedToken) (b : Builder) (fuel : nat).

Lemma getvarbyname_registered name b :
  is_Some (variables b !! name) → getvarbyname name b = b.
Proof. intros [v Hv]. unfold getvarbyname. by rewrite Hv. Qed.

Lemma getvarbyname_lookup name b :
  variables (getvarbyname name b) !! name
  = Some (default (Var.new name) (variables b !! name)).
Proof.
  unfold getvarbyname. destruct (variables b !! name) eqn:Hv; simpl.
  - done.
  - by rewrite lookup_insert_eq.
Qed.

Lemma getvarbyname_lookup_ne name name' b :
  name ≠ name' → variables (getvarbyname name b) !! name' = variables b !! name'.
Proof.
  intros Hne. unfold getvarbyname. destruct (variables b !! name); simpl; [done|].
  by rewrite lookup_insert_ne.
Qed.

Lemma getvarbyname_constraints name b :
  Model.constraints (model (getvarbyname name b)) = Model.constraints (model b).
Proof. unfold getvarbyname. by destruct (variables b !! name). Qed.

Lemma getvarbyname_soss name b :
  Model.soss (model (getvarbyname name b)) = Model.soss (model b).
Proof. unfold getvarbyname. by destruct (variables b !! name). Qed.

Lemma getvarbyname_objective name b :
  Model.objective (model (getvarbyname name b)) = Model.objective (model b).
Proof. unfold getvarbyname. by destruct (variables b !! name). Qed.

Lemma getvarbyname_sense name b :
  Model.sense (model (getvarbyname name b)) = Model.sense (model b).
Proof. unfold getvarbyname. by destruct (variables b !! name). Qed.

Lemma update_var_lookup name f b :
  variables (update_var name f b) !! name = f <$> variables b !! name.
Proof. unfold update_var. simpl. by rewrite lookup_alter_eq. Qed.

Lemma update_var_lookup_ne name name' f b :
  name ≠ name' → variables (update_var name f b) !! name' = variables b !! name'.
Proof. intros. unfold update_var. simpl. by rewrite lookup_alter_ne. Qed.

Lemma update_var_registered name name' f b :
  is_Some (variables (update_var name f b) !! name') ↔ is_Some (variables b !! name').
Proof.
  destruct (decide (name = name')) as [->|Hne].
  - rewrite update_var_lookup. by rewrite fmap_is_Some.
  - by rewrite update_var_lookup_ne.
Qed.

Lemma getvarbyname_is_Some name b : is_Some (variables (getvarbyname name b) !! name).
Proof. rewrite getvarbyname_lookup. eauto. Qed.

Lemma boundssec_end fuel toks (begin_ : nat) b :
  boundssec_loop (S fuel) toks begin_ begin_ b = Ok (begin_, b).
Proof. cbn [boundssec_loop]. by rewrite decide_True. Qed.

(** CONST <= VAR <= CONST *)
Lemma boundssec_range fuel toks (begin_ end_ : nat) b lb ub name :
  begin_ < end_ → 4 + begin_ < end_ →
  holds_at toks begin_
    [TokCONST lb; TokCOMP LpComparisonType.LEQ; TokVARID name;
     TokCOMP LpComparisonType.LEQ; TokCONST ub] →
  boundssec_loop (S fuel) toks begin_ end_ b
  = boundssec_loop fuel toks (5 + begin_) end_
      (update_var name (Var.set_upperbound ub)
         (update_var name (Var.set_lowerbound lb) (getvarbyname name b))).
Proof.
  intros Hlt Hlt4 Htoks. tokens_upto Htoks 5.
  cbn [boundssec_loop]. run. done.
Qed.

(** VAR comparison CONST *)
Lemma boundssec_var_comp_const fuel toks (begin_ end_ : nat) b dir value name :
  2 + begin_ < end_ →
  holds_at toks begin_ [TokVARID name; TokCOMP dir; TokCONST value] →
  boundssec_loop (S fuel) toks begin_ end_ b
  = (let* b := bound_var_comp_const dir value name (getvarbyname name b) in
     boundssec_loop fuel toks (3 + begin_) end_ b).
Proof.
  intros Hlt Htoks. tokens_upto Htoks 3.
  cbn [boundssec_loop]. run.
  rewrite ?differs_and_false. run.
  destruct dir; run; done.
Qed.

Lemma holds_at_app_l toks (begin_ : nat) seg1 seg2 :
  holds_at toks begin_ (seg1 ++ seg2) → holds_at toks begin_ seg1.
Proof. intros H i t Hi. apply H. by apply lookup_app_l_Some. Qed.

Lemma holds_at_app_r toks (begin_ : nat) seg1 seg2 :
  holds_at toks begin_ (seg1 ++ seg2) → holds_at toks (length seg1 + begin_) seg2.
Proof.
  intros H i t Hi. rewrite Nat.add_assoc. apply H.
  rewrite lookup_app_r by lia. by replace (i + length seg1 - length seg1) with i by lia.
Qed.

Lemma holds_at_length toks (begin_ : nat) seg :
  holds_at toks begin_ seg → length seg ≤ length toks - begin_.
Proof.
  intros H. destruct (decide (length seg = 0)) as [->|Hne]; [lia|].
  destruct (lookup_lt_is_Some_2 seg (length seg - 1)) as [t Ht]; [lia|].
  apply H, lookup_lt_Some in Ht. lia.
Qed.

Lemma has_section_Some (r : Reader) k p :
  sectiontokens r !! k = Some p → has_section r k = true.
Proof. intros H. unfold has_section, count. by rewrite H. Qed.

Lemma has_section_None (r : Reader) k :
  sectiontokens r !! k = None → has_section r k = false.
Proof. intros H. unfold has_section, count. by rewrite H. Qed.

Lemma at_key_Some (st : sections) k p : st !! k = Some p → at_key st k = p.
Proof. intros H. unfold at_key. by rewrite H. Qed.

Lemma processboundssec_on (r : Reader) (begin_ end_ : nat) :
  sectiontokens r !! LpSectionKeyword.BOUNDS = Some (begin_, end_) →
  processboundssec r
  = (let* (it, b) := boundssec_loop (S (length (processedtokens r) - begin_))
                        (processedtokens r)
                        begin_ end_ (builder r) in
     Ok (with_builder b
           (with_sectiontokens
              (set_first LpSectionKeyword.BOUNDS it (sectiontokens r)) r))).
Proof.
  intros H. unfold processboundssec.
  by rewrite (has_section_Some _ _ _ H), (at_key_Some _ _ _ H).
Qed.

End Bounds.

(** C1 (the code at fault).  In [processboundssec] a variable followed by
    the free marker matches no pattern: the lookahead iterator of the
    "VAR free" test still stands on the variable itself, so the test never
    holds, and the entry ends in the final [lpassert(false)]. *)
Theorem boundssec_free_entry_throws (fuel : nat) (toks : list ProcessedToken)
    (it end_ : nat) (b : Builder) (name : string) :
  it ≠ end_ → toks !! it = Some (TokVARID name) → toks !! S it = Some TokFREE →
  boundssec_loop (S fuel) toks it end_ b = Throw MalformedBound.
Proof.
  intros Hne Hit Hnext. cbn [boundssec_loop]. run.
  destruct (decide (S it = end_)) as [<-|Hne1]; run; [done|].
  destruct (decide (S (S it) = end_)) as [<-|Hne2]; run; [done|].
  destruct (decide (S (S (S it)) = end_)) as [<-|Hne3]; run; [done|].
  destruct (decide (S (S (S (S it))) = end_)) as [<-|Hne4]; run; done.
Qed.

Lemma boundssec_free_entry_throws_witness :
  boundssec_loop 3 [TokSECID LpSectionKeyword.BOUNDS; TokVARID "x"; TokFREE] 1 3
    (Builder_new ObjectiveSense.MIN)
  = Throw MalformedBound.
Proof. by apply (boundssec_free_entry_throws 2 _ 1 3 _ "x"). Defined.

(** The same on a file: its bounds section is the one entry "x free". *)
Lemma read_free_bound_throws :
  read strtod_decimal (Reader_new ["bounds"; " x free"; "end"] ObjectiveSense.MIN)
  = Throw MalformedBound.
Proof. vm_compute. reflexivity. Qed.

(** C7.  A bounds section with the entry 3 <= x <= 7 and one with the
    entries x >= 3 and x <= 7 leave the same variables behind, bounds 3 and 7
    for x among them. *)
Theorem bounds_range_as_two_entries (r1 r2 : Reader) (x : string) (begin1 begin2 : nat) :
  builder r1 = builder r2 →
  sectiontokens r1 !! LpSectionKeyword.BOUNDS = Some (begin1, 5 + begin1) →
  holds_at (processedtokens r1) begin1
    [TokCONST d3; TokCOMP LpComparisonType.LEQ; TokVARID x;
     TokCOMP LpComparisonType.LEQ; TokCONST d7] →
  sectiontokens r2 !! LpSectionKeyword.BOUNDS = Some (begin2, 6 + begin2) →
  holds_at (processedtokens r2) begin2
    [TokVARID x; TokCOMP LpComparisonType.GEQ; TokCONST d3;
     TokVARID x; TokCOMP LpComparisonType.LEQ; TokCONST d7] →
  ∃ r1' r2' v,
    processboundssec r1 = Ok r1' ∧ processboundssec r2 = Ok r2'
    ∧ builder r1' = builder r2'
    ∧ variables (builder r1') !! x = Some v
    ∧ Var.lowerbound v = d3 ∧ Var.upperbound v = d7.
Proof.
  intros Hb Hsec1 Htoks1 Hsec2 Htoks2.
  rewrite (processboundssec_on _ _ _ Hsec1), (processboundssec_on _ _ _ Hsec2).
  pose proof (holds_at_length _ _ _ Htoks1) as Hlen1.
  pose proof (holds_at_length _ _ _ Htoks2) as Hlen2. cbn [length] in Hlen1, Hlen2.
  turns (processedtokens r1) begin1 5. turns (processedtokens r2) begin2 6.
  rewrite (boundssec_range _ _ _ _ _ d3 d7 x) by (lia || done).
  cbn [Nat.add]. rewrite boundssec_end.
  pose proof (holds_at_app_l _ _ [TokVARID x; TokCOMP LpComparisonType.GEQ; TokCONST d3]
                [TokVARID x; TokCOMP LpComparisonType.LEQ; TokCONST d7] Htoks2) as Hfst.
  pose proof (holds_at_app_r _ _ [TokVARID x; TokCOMP LpComparisonType.GEQ; TokCONST d3]
                [TokVARID x; TokCOMP LpComparisonType.LEQ; TokCONST d7] Htoks2) as Hsnd.
  rewrite (boundssec_var_comp_const _ _ _ _ _ LpComparisonType.GEQ d3 x)
    by (lia || done).
  cbn [bound_var_comp_const bind].
  rewrite (boundssec_var_comp_const _ _ _ _ _ LpComparisonType.LEQ d7 x)
    by (cbn [length Nat.add] in *; lia || done).
  cbn [bound_var_comp_const bind Nat.add].
  rewrite boundssec_end. cbn [bind].
  rewrite (getvarbyname_registered x (update_var _ _ _))
    by (apply update_var_registered, getvarbyname_is_Some).
  rewrite <-Hb.
  eexists _, _, _. split_and!; [done..| | |]; cbn [builder with_builder].
  - rewrite !update_var_lookup, getvarbyname_lookup. done.
  - done.
  - done.
Qed.

(** ** The objective *)

(** C10.  With no entry for a minimize or a maximize section,
    [processobjsec] succeeds: the objective is a new, empty expression, the
    sense and everything else are as before. *)
Theorem processobjsec_without_objective (r : Reader) :
  sectiontokens r !! LpSectionKeyword.OBJMIN = None →
  sectiontokens r !! LpSectionKeyword.OBJMAX = None →
  ∃ r', processobjsec r = Ok r'
    ∧ Model.objective (model (builder r')) = Some Expression.new
    ∧ Expression.linterms Expression.new = []
    ∧ Expression.quadterms Expression.new = []
    ∧ Expression.offset Expression.new = d0
    ∧ Expression.name Expression.new = EmptyString
    ∧ Model.sense (model (builder r')) = Model.sense (model (builder r))
    ∧ Model.constraints (model (builder r')) = Model.constraints (model (builder r))
    ∧ Model.variables (model (builder r')) = Model.variables (model (builder r))
    ∧ variables (builder r') = variables (builder r)
    ∧ sectiontokens r' = sectiontokens r.
Proof.
  intros Hmin Hmax. unfold processobjsec.
  rewrite !has_section_None by done.
  eexists. split_and!; done.
Qed.

Lemma processobjsec_without_objective_witness :
  ∃ r', processobjsec (reader_on [TokSECID LpSectionKeyword.END]) = Ok r'
    ∧ Model.objective (model (builder r')) = Some Expression.new.
Proof.
  destruct (processobjsec_without_objective (reader_on [TokSECID LpSectionKeyword.END]))
    as (r' & Hr & Hobj & _); [done..|].
  by exists r'.
Defined.

(** ** The sections that list variables *)

Section Varsec.

Implicit Types (toks : list ProcessedToken) (b : Builder) (names : list string).

Lemma varsec_loop_names body names : ∀ fuel toks (begin_ : nat) b,
  holds_at toks begin_ (TokVARID <$> names) → length names < fuel →
  varsec_loop fuel toks begin_ (length names + begin_) body b
  = Ok (length names + begin_, foldl (entry body) b names).
Proof.
  induction names as [|name names IH]; intros [|fuel] toks begin_ b Htoks Hfuel;
    cbn [length] in *; try lia; cbn [varsec_loop].
  { by rewrite decide_True by done. }
  pose proof (Htoks 0 _ eq_refl) as Htok. cbn [Nat.add] in Htok.
  pose proof (holds_at_app_r toks begin_ [TokVARID name] (fmap (M:=list) TokVARID names) Htoks) as Hrest.
  cbn [length Nat.add] in Hrest.
  run. replace (S (length names) + begin_) with (length names + S begin_) by lia.
  rewrite IH by (done || lia). done.
Qed.

Lemma kind_entry_semi b name name' :
  kind (entry semisec_body b name) name'
  = if decide (name = name') then semi_rule (kind b name') else kind b name'.
Proof.
  unfold kind, entry. case_decide as Hn.
  - subst name'. rewrite update_var_lookup, getvarbyname_lookup.
    destruct (variables b !! name) as [v|]; simpl;
      unfold semisec_body, semi_rule; by repeat case_decide.
  - by rewrite update_var_lookup_ne, getvarbyname_lookup_ne.
Qed.

Lemma kind_entries_semi names : ∀ b name,
  kind (foldl (entry semisec_body) b names) name
  = Nat.iter (listings names name) semi_rule (kind b name).
Proof.
  induction names as [|n names IH]; intros b name; [done|].
  cbn [foldl]. rewrite IH, kind_entry_semi. unfold listings.
  rewrite filter_cons. case_decide; [|done].
  cbn [length]. by rewrite Nat.iter_succ_r.
Qed.

Lemma entries_registered body names : ∀ b name,
  is_Some (variables (foldl (entry body) b names) !! name)
  ↔ name ∈ names ∨ is_Some (variables b !! name).
Proof.
  induction names as [|n names IH]; intros b name; cbn [foldl].
  { rewrite elem_of_nil. naive_solver. }
  rewrite IH, elem_of_cons. unfold entry. rewrite update_var_registered.
  destruct (decide (n = name)) as [->|Hne].
  - pose proof (getvarbyname_is_Some name b). naive_solver.
  - rewrite getvarbyname_lookup_ne by done. naive_solver.
Qed.

Lemma entries_lookup_other body names : ∀ b name,
  name ∉ names → variables (foldl (entry body) b names) !! name = variables b !! name.
Proof.
  induction names as [|n names IH]; intros b name Hin; cbn [foldl]; [done|].
  apply not_elem_of_cons in Hin as [Hne Hin]. rewrite IH by done.
  unfold entry. by rewrite update_var_lookup_ne, getvarbyname_lookup_ne.
Qed.

Lemma listings_one_elem names name : listings names name = 1 → name ∈ names.
Proof.
  unfold listings. intros H.
  destruct (filter (λ n, n = name) names) as [|n l] eqn:Hf; [done|].
  assert (n ∈ filter (λ n, n = name) names) as Hn by (rewrite Hf; left).
  apply list_elem_of_filter in Hn as [-> Hn]. done.
Qed.

End Varsec.

(** C2 (as amended).  With an entry for the integer section in the
    section map, [processsemisec] goes through the variables the semicontinuous
    section lists, and each listing makes a variable that is general-integer
    at that point semi-integer and any other variable semicontinuous.  A
    variable listed once so ends semi-integer if it was general-integer and
    semicontinuous otherwise; a variable listed more than once ends
    semicontinuous, whatever it was; a variable not listed keeps what it had.
    With no entry for the integer section nothing is processed. *)
Theorem processsemisec_kinds (r : Reader) (names : list string) (begin_ : nat) :
  sectiontokens r !! LpSectionKeyword.SEMI = Some (begin_, length names + begin_) →
  holds_at (processedtokens r) begin_ (TokVARID <$> names) →
  (is_Some (sectiontokens r !! LpSectionKeyword.GEN) →
   ∃ r', processsemisec r = Ok r'
     ∧ (∀ name, kind (builder r') name
                = Nat.iter (listings names name) semi_rule (kind (builder r) name))
     ∧ (∀ name, listings names name = 1 →
          ∃ v, variables (builder r') !! name = Some v
             ∧ Var.type v = if decide (kind (builder r) name = VariableType.GENERAL)
                            then VariableType.SEMIINTEGER
                            else VariableType.SEMICONTINUOUS)
     ∧ (∀ name, 2 ≤ listings names name →
          kind (builder r') name = VariableType.SEMICONTINUOUS)
     ∧ (∀ name, name ∉ names →
          variables (builder r') !! name = variables (builder r) !! name))
  ∧ (sectiontokens r !! LpSectionKeyword.GEN = None → processsemisec r = Ok r).
Proof.
  intros Hsemi Htoks. unfold processsemisec. split.
  - intros [p Hgen]. rewrite (has_section_Some _ _ _ Hgen). cbn [negb].
    unfold varsec. rewrite (at_key_Some _ _ _ Hsemi).
    pose proof (holds_at_length _ _ _ Htoks) as Hlen. rewrite length_fmap in Hlen.
    rewrite varsec_loop_names by (done || lia). cbn [bind].
    eexists. split; [done|]. cbn [builder with_builder].
    split_and!.
    + intros name. apply kind_entries_semi.
    + intros name Hone.
      pose proof (kind_entries_semi names (builder r) name) as Hk.
      rewrite Hone in Hk. cbn [Nat.iter nat_rect] in Hk.
      destruct (proj2 (entries_registered semisec_body names (builder r) name))
        as [v Hv]; [left; by apply listings_one_elem|].
      exists v. split; [done|]. unfold kind in Hk at 1. by rewrite Hv in Hk.
    + intros name Htwo. rewrite (kind_entries_semi names (builder r) name).
      destruct (listings names name) as [|[|n]]; [lia..|].
      cbn [Nat.iter nat_rect]. unfold semi_rule. repeat case_decide; congruence.
    + intros name Hin. by apply entries_lookup_other.
  - intros Hgen. by rewrite (has_section_None _ _ Hgen).
Qed.

(** ** Expressions *)

Section Expressions.

Implicit Types (toks : list ProcessedToken) (b : Builder) (fuel it : nat)
  (expr : Expression.t) (isobj : bool).

Lemma getvarbyname_twice name b :
  getvarbyname name (getvarbyname name b) = getvarbyname name b.
Proof. apply getvarbyname_registered, getvarbyname_is_Some. Qed.

(** No label at the start of the range. *)
Lemma parseexpression_unnamed toks it (end_ : nat) expr isobj b t :
  it ≠ end_ → toks !! it = Some t → ptype t ≠ ProcessedTokenType.CONID →
  parseexpression toks it end_ expr isobj b
  = expression_loop (S (length toks - it)) toks it end_ expr isobj b.
Proof.
  intros Hne Htok Hty. unfold parseexpression. run. done.
Qed.

Lemma expression_end fuel toks it expr isobj b :
  expression_loop (S fuel) toks it it expr isobj b = Ok (it, expr, b).
Proof. cbn [expression_loop]. by rewrite decide_True. Qed.

(** const var *)
Lemma expression_const_var fuel toks it (end_ : nat) expr isobj b coef name :
  S it < end_ → holds_at toks it [TokCONST coef; TokVARID name] →
  expression_loop (S fuel) toks it end_ expr isobj b
  = expression_loop fuel toks (2 + it) end_
      (Expression.push_linterm (linterm coef name) expr) isobj (getvarbyname name b).
Proof.
  intros Hlt Htoks. tokens_upto Htoks 2.
  cbn [expression_loop]. run. done.
Qed.

(** A token that starts no term ends the expression. *)
Lemma expression_stop fuel toks it (end_ : nat) expr isobj b t :
  it ≠ end_ → toks !! it = Some t →
  ptype t ≠ ProcessedTokenType.CONST → ptype t ≠ ProcessedTokenType.VARID →
  ptype t ≠ ProcessedTokenType.BRKOP →
  expression_loop (S fuel) toks it end_ expr isobj b = Ok (it, expr, b).
Proof.
  intros Hne Htok H1 H2 H3. cbn [expression_loop]. run.
  rewrite ?differs_and_false. run. done.
Qed.

(** var hat const, the exponent being 2 *)
Lemma quadratic_var_hat fuel toks it (end_ : nat) expr b name e :
  2 + it < end_ → holds_at toks it [TokVARID name; TokHAT; TokCONST e] →
  deqb e d2 = true →
  quadratic_loop (S fuel) toks it end_ expr b
  = quadratic_loop fuel toks (3 + it) end_
      (Expression.push_quadterm (quadterm d1 name name) expr) (getvarbyname name b).
Proof.
  intros Hlt Htoks He. tokens_upto Htoks 3.
  cbn [quadratic_loop]. run.
  rewrite ?differs_and_false. run. rewrite He. run.
  by rewrite getvarbyname_twice.
Qed.

Lemma quadratic_close fuel toks it (end_ : nat) expr b :
  it ≠ end_ → toks !! it = Some TokBRKCL →
  quadratic_loop (S fuel) toks it end_ expr b = Ok (it, expr, b).
Proof. intros Hne Htok. cbn [quadratic_loop]. run. done. Qed.

(** [==] on doubles holds exactly of two doubles that compare equal. *)
Lemma deqb_compare (x y : double) : deqb x y = true ↔ SFcompare x y = Some Eq.
Proof.
  unfold deqb, SFeqb. destruct (SFcompare x y) as [[]|]; split; congruence.
Qed.

Lemma close_group_halved toks it (end_ : nat) :
  toks !! it = Some TokBRKCL → halved toks it end_ →
  close_group toks it end_ true = Ok (3 + it).
Proof.
  intros Htok (Hne1 & Hne2 & Hslash & v & Hv & Hv2%deqb_compare).
  unfold close_group. run. rewrite Hv2. run. done.
Qed.

Lemma close_group_not_halved toks it (end_ : nat) :
  toks !! it = Some TokBRKCL → (it < end_ ≤ length toks)%nat →
  ¬ halved toks it end_ →
  close_group toks it end_ true = Throw MalformedExpression.
Proof.
  intros Htok [Hlt Hend] Hnot. unfold close_group.
  destruct (decide (S it = end_)) as [<-|Hne1]; [by run|].
  destruct (decide (S (S it) = end_)) as [<-|Hne2]; [by run|].
  destruct (lookup_lt_is_Some_2 toks (S it)) as [t1 Ht1]; [lia|].
  destruct (lookup_lt_is_Some_2 toks (S (S it))) as [t2 Ht2]; [lia|].
  destruct (decide (ptype t1 = ProcessedTokenType.SLASH)) as [Hs|Hs]; [|by run].
  destruct (decide (ptype t2 = ProcessedTokenType.CONST)) as [Hc|Hc]; [|by run].
  destruct t1; try done. destruct t2 as [| | | |v| | | | | | | | |]; try done.
  run. destruct (deqb v d2) eqn:Hv; [|done].
  destruct Hnot. split_and!; [done..|]. exists v. by rewrite <- deqb_compare.
Qed.

Lemma close_group_plain toks it (end_ : nat) :
  it ≠ end_ → toks !! it = Some TokBRKCL →
  close_group toks it end_ false = Ok (S it).
Proof. intros Hne Htok. unfold close_group. run. done. Qed.

(** A bracketed group: the inner loop, then the closing. *)
Lemma expression_group fuel toks it (end_ : nat) expr isobj b :
  S it < end_ → toks !! it = Some TokBRKOP →
  expression_loop (S fuel) toks it end_ expr isobj b
  = (let* (j, expr, b) :=
       quadratic_loop (S (length toks - S it)) toks (S it) end_ expr b in
     let* j := close_group toks j end_ isobj in
     expression_loop fuel toks j end_ expr isobj b).
Proof.
  intros Hlt Htok. cbn [expression_loop]. run.
  rewrite ?differs_and_false. run. done.
Qed.

End Expressions.

(** ** Constraints *)

Section Constraints.

Implicit Types (toks : list ProcessedToken) (b : Builder) (fuel it : nat)
  (expr : Expression.t).

Lemma processconsec_on (r : Reader) (begin_ end_ : nat) :
  sectiontokens r !! LpSectionKeyword.CON = Some (begin_, end_) →
  processconsec r
  = (let* (it, b) := consec_loop (S (length (processedtokens r) - begin_))
                        (processedtokens r)
                        begin_ end_ (builder r) in
     Ok (with_builder b
           (with_sectiontokens
              (set_first LpSectionKeyword.CON it (sectiontokens r)) r))).
Proof.
  intros H. unfold processconsec.
  by rewrite (has_section_Some _ _ _ H), (at_key_Some _ _ _ H).
Qed.

Lemma consec_end fuel toks it b : consec_loop (S fuel) toks it it b = Ok (it, b).
Proof. cbn [consec_loop]. by rewrite decide_True. Qed.

(** expression <= constant *)
Lemma consec_leq fuel toks it (end_ : nat) b j expr b' value :
  it ≠ end_ →
  parseexpression toks it end_ Expression.new false b = Ok (j, expr, b') →
  S j < end_ → holds_at toks j [TokCOMP LpComparisonType.LEQ; TokCONST value] →
  consec_loop (S fuel) toks it end_ b
  = consec_loop fuel toks (2 + j) end_
      (update_model
         (push_constraint
            {| Constraint.lowerbound := dneg infinity;
               Constraint.upperbound := value;
               Constraint.expr := expr |}) b').
Proof.
  intros Hne Hexpr Hlt Htoks. tokens_upto Htoks 2.
  cbn [consec_loop Constraint.expr Constraint.new]. run.
  rewrite Hexpr. run. done.
Qed.

(** expression, then something that is no comparison *)
Lemma consec_no_comparison fuel toks it (end_ : nat) b j expr b' t :
  it ≠ end_ →
  parseexpression toks it end_ Expression.new false b = Ok (j, expr, b') →
  j ≠ end_ → toks !! j = Some t → ptype t ≠ ProcessedTokenType.COMP →
  consec_loop (S fuel) toks it end_ b = Throw MalformedExpression.
Proof.
  intros Hne Hexpr Hj Htok Hty.
  cbn [consec_loop Constraint.expr Constraint.new]. run.
  rewrite Hexpr. run. done.
Qed.

End Constraints.

(** C6.  A constraint section that holds constant c1, variable x1,
    constant c2, variable x2, the comparison <=, constant k makes
    [processconsec] append one constraint: linear terms (c1, x1), (c2, x2) in
    this order, nothing else in the expression, upper bound k, and the lower
    bound a new constraint has, which is -infinity. *)
Theorem processconsec_two_terms_leq (r : Reader) (begin_ : nat)
    (c1 c2 k : double) (x1 x2 : string) :
  sectiontokens r !! LpSectionKeyword.CON = Some (begin_, 6 + begin_) →
  holds_at (processedtokens r) begin_
    [TokCONST c1; TokVARID x1; TokCONST c2; TokVARID x2;
     TokCOMP LpComparisonType.LEQ; TokCONST k] →
  ∃ r' con,
    processconsec r = Ok r'
    ∧ Model.constraints (model (builder r'))
      = (Model.constraints (model (builder r)) ++ [con])%list
    ∧ Expression.linterms (Constraint.expr con)
      = [{| LinTerm.coef := c1; LinTerm.var := x1 |};
         {| LinTerm.coef := c2; LinTerm.var := x2 |}]
    ∧ Expression.quadterms (Constraint.expr con) = []
    ∧ Expression.offset (Constraint.expr con) = d0
    ∧ Constraint.upperbound con = k
    ∧ Constraint.lowerbound con = Constraint.lowerbound Constraint.new
    ∧ Constraint.lowerbound con = dneg infinity
    ∧ is_Some (variables (builder r') !! x1)
    ∧ is_Some (variables (builder r') !! x2).
Proof.
  intros Hsec Htoks.
  pose proof (holds_at_app_l _ _ [TokCONST c1; TokVARID x1] [_; _; _; _] Htoks) as H1.
  pose proof (holds_at_app_r _ _ [TokCONST c1; TokVARID x1] [_; _; _; _] Htoks) as Hrest.
  pose proof (holds_at_app_l _ _ [TokCONST c2; TokVARID x2] [_; _] Hrest) as H2.
  pose proof (holds_at_app_r _ _ [TokCONST c2; TokVARID x2] [_; _] Hrest) as H3.
  pose proof (holds_at_length _ _ _ Htoks) as Hlen.
  cbn [length Nat.add] in *.
  pose proof (Htoks 0 _ eq_refl) as Hfirst. pose proof (H3 0 _ eq_refl) as Hcomp.
  cbn [Nat.add] in *.
  assert (Hexpr : parseexpression (processedtokens r) begin_ (6 + begin_)
                    Expression.new false (builder r)
                  = Ok (4 + begin_,
                        Expression.push_linterm (linterm c2 x2)
                          (Expression.push_linterm (linterm c1 x1) Expression.new),
                        getvarbyname x2 (getvarbyname x1 (builder r)))).
  { rewrite (parseexpression_unnamed _ _ _ _ _ _ (TokCONST c1)) by (lia || done).
    turns (processedtokens r) begin_ 6.
    rewrite (expression_const_var _ _ _ _ _ _ _ c1 x1) by (lia || done).
    rewrite (expression_const_var _ _ _ _ _ _ _ c2 x2) by (cbn [Nat.add]; lia || done).
    cbn [Nat.add].
    by rewrite (expression_stop _ _ _ _ _ _ _ (TokCOMP LpComparisonType.LEQ)) by (lia || done). }
  rewrite (processconsec_on _ _ _ Hsec).
  turns (processedtokens r) begin_ 6.
  rewrite (consec_leq _ _ begin_ (6 + begin_) _ _ _ _ k ltac:(lia) Hexpr) by (cbn [Nat.add]; lia || done).
  cbn [Nat.add]. rewrite consec_end. cbn [bind].
  eexists _, _. split; [reflexivity|].
  unfold update_model, push_constraint.
  cbn [builder with_builder model variables Model.constraints].
  rewrite !getvarbyname_constraints.
  split; [reflexivity|]. split_and!; try reflexivity.
  - destruct (decide (x1 = x2)) as [->|Hne].
    + apply getvarbyname_is_Some.
    + rewrite getvarbyname_lookup_ne by done. apply getvarbyname_is_Some.
  - apply getvarbyname_is_Some.
Qed.

Lemma deqb_d2 : deqb d2 d2 = true.
Proof. reflexivity. Qed.

(** The inner loop on  x ^ 2 ]  *)
Lemma quadratic_square fuel toks (it end_ : nat) expr b x :
  3 + it < end_ →
  holds_at toks it [TokVARID x; TokHAT; TokCONST d2; TokBRKCL] →
  quadratic_loop (S (S fuel)) toks it end_ expr b
  = Ok (3 + it, Expression.push_quadterm (quadterm d1 x x) expr, getvarbyname x b).
Proof.
  intros Hlt Htoks.
  pose proof (holds_at_app_l _ _ [TokVARID x; TokHAT; TokCONST d2] [_] Htoks) as H1.
  pose proof (Htoks 3 _ eq_refl) as Hclose.
  rewrite (quadratic_var_hat _ _ _ _ _ _ x d2) by (lia || done || apply deqb_d2).
  by rewrite quadratic_close by (lia || done).
Qed.

(** The group  [ x ^ 2 ] / 2  in the objective *)
Lemma parseexpression_square_objective toks (begin_ : nat) expr b x :
  holds_at toks begin_
    [TokBRKOP; TokVARID x; TokHAT; TokCONST d2; TokBRKCL; TokSLASH; TokCONST d2] →
  parseexpression toks begin_ (7 + begin_) expr true b
  = Ok (7 + begin_, Expression.push_quadterm (quadterm d1 x x) expr, getvarbyname x b).
Proof.
  intros Htoks.
  pose proof (holds_at_length _ _ _ Htoks) as Hlen.
  pose proof (Htoks 0 _ eq_refl) as Hopen.
  pose proof (holds_at_app_r _ _ [TokBRKOP] [_; _; _; _; _; _] Htoks) as Hin.
  pose proof (holds_at_app_l _ _ [TokVARID x; TokHAT; TokCONST d2; TokBRKCL] [_; _] Hin)
    as Hgroup.
  pose proof (Htoks 4 _ eq_refl) as Hclose.
  pose proof (Htoks 5 _ eq_refl) as Hslash.
  pose proof (Htoks 6 _ eq_refl) as Htwo.
  cbn [length Nat.add] in *.
  rewrite (parseexpression_unnamed _ _ _ _ _ _ TokBRKOP) by (lia || done).
  turns toks begin_ 1.
  rewrite expression_group by (lia || done).
  turns toks (S begin_) 1.
  rewrite (quadratic_square _ _ _ _ _ _ x) by (lia || done).
  cbn [bind Nat.add].
  rewrite close_group_halved; [|done|].
  2:{ split_and!; [lia|lia|done|]. exists d2. by split. }
  cbn [bind Nat.add]. by rewrite expression_end.
Qed.

(** The group  [ x ^ 2 ]  outside the objective, before a token [t] that
    starts no term *)
Lemma parseexpression_square_plain toks (begin_ end_ : nat) b x t :
  5 + begin_ < end_ →
  holds_at toks begin_ [TokBRKOP; TokVARID x; TokHAT; TokCONST d2; TokBRKCL; t] →
  ptype t ≠ ProcessedTokenType.CONST → ptype t ≠ ProcessedTokenType.VARID →
  ptype t ≠ ProcessedTokenType.BRKOP →
  parseexpression toks begin_ end_ Expression.new false b
  = Ok (5 + begin_, Expression.push_quadterm (quadterm d1 x x) Expression.new,
        getvarbyname x b).
Proof.
  intros Hlt Htoks Ht1 Ht2 Ht3.
  pose proof (holds_at_length _ _ _ Htoks) as Hlen.
  pose proof (Htoks 0 _ eq_refl) as Hopen.
  pose proof (holds_at_app_r _ _ [TokBRKOP] [_; _; _; _; _] Htoks) as Hin.
  pose proof (holds_at_app_l _ _ [TokVARID x; TokHAT; TokCONST d2; TokBRKCL] [_] Hin)
    as Hgroup.
  pose proof (Htoks 4 _ eq_refl) as Hclose.
  pose proof (Htoks 5 _ eq_refl) as Hnext.
  cbn [length Nat.add] in *.
  rewrite (parseexpression_unnamed _ _ _ _ _ _ TokBRKOP) by (lia || done).
  turns toks begin_ 1.
  rewrite expression_group by (lia || done).
  turns toks (S begin_) 1.
  rewrite (quadratic_square _ _ _ _ _ _ x) by (lia || done).
  cbn [bind Nat.add].
  rewrite close_group_plain by (lia || done). cbn [bind].
  by rewrite (expression_stop _ _ _ _ _ _ _ t) by (lia || done).
Qed.

(** C5.  In [parseexpression], after a bracketed group whose inner loop
    stopped at the closing bracket: with is-objective set, the parse goes on
    behind the slash and the constant 2 when they follow, and throws when
    they do not; without it, the parse goes on behind the bracket.  So
    [ x ^ 2 ] / 2  gives an objective one quadratic term, 1.0 x x; in a
    constraint the group parses, and a slash behind it makes [processconsec]
    throw. *)
Theorem quadratic_group_closing :
  (∀ fuel toks (it end_ : nat) expr b j expr' b',
     (S it < end_)%nat → toks !! it = Some TokBRKOP →
     quadratic_loop (S (length toks - S it)) toks (S it) end_ expr b
     = Ok (j, expr', b') →
     toks !! j = Some TokBRKCL → (j < end_ ≤ length toks)%nat →
     (halved toks j end_ →
      expression_loop (S fuel) toks it end_ expr true b
      = expression_loop fuel toks (3 + j) end_ expr' true b')
     ∧ (¬ halved toks j end_ →
        expression_loop (S fuel) toks it end_ expr true b = Throw MalformedExpression)
     ∧ expression_loop (S fuel) toks it end_ expr false b
       = expression_loop fuel toks (S j) end_ expr' false b')
  ∧ (∀ toks (begin_ : nat) expr b x,
       holds_at toks begin_
         [TokBRKOP; TokVARID x; TokHAT; TokCONST d2; TokBRKCL; TokSLASH; TokCONST d2] →
       ∃ expr',
         parseexpression toks begin_ (7 + begin_) expr true b
         = Ok (7 + begin_, expr', getvarbyname x b)
         ∧ Expression.quadterms expr'
           = (Expression.quadterms expr
              ++ [{| QuadTerm.coef := d1; QuadTerm.var1 := x; QuadTerm.var2 := x |}])%list
         ∧ Expression.linterms expr' = Expression.linterms expr
         ∧ Expression.offset expr' = Expression.offset expr
         ∧ Expression.name expr' = Expression.name expr)
  ∧ (∀ (r : Reader) (begin_ end_ : nat) x,
       sectiontokens r !! LpSectionKeyword.CON = Some (begin_, end_) →
       (5 + begin_ < end_)%nat →
       holds_at (processedtokens r) begin_
         [TokBRKOP; TokVARID x; TokHAT; TokCONST d2; TokBRKCL; TokSLASH] →
       processconsec r = Throw MalformedExpression)
  ∧ (∀ (r : Reader) (begin_ : nat) x k,
       sectiontokens r !! LpSectionKeyword.CON = Some (begin_, 7 + begin_) →
       holds_at (processedtokens r) begin_
         [TokBRKOP; TokVARID x; TokHAT; TokCONST d2; TokBRKCL;
          TokCOMP LpComparisonType.LEQ; TokCONST k] →
       ∃ r' con,
         processconsec r = Ok r'
         ∧ Model.constraints (model (builder r'))
           = (Model.constraints (model (builder r)) ++ [con])%list
         ∧ Expression.quadterms (Constraint.expr con)
           = [{| QuadTerm.coef := d1; QuadTerm.var1 := x; QuadTerm.var2 := x |}]
         ∧ Expression.linterms (Constraint.expr con) = []
         ∧ Constraint.upperbound con = k).
Proof.
  split_and!.
  - intros fuel toks it end_ expr b j expr' b' Hlt Hopen Hquad Hclose Hj.
    rewrite !expression_group by done. rewrite Hquad. cbn [bind].
    split_and!.
    + intros Hh. by rewrite close_group_halved.
    + intros Hh. by rewrite close_group_not_halved.
    + by rewrite close_group_plain by (lia || done).
  - intros toks begin_ expr b x Htoks. eexists. split.
    + by apply parseexpression_square_objective.
    + by split_and!.
  - intros r begin_ end_ x Hsec Hlt Htoks.
    pose proof (Htoks 5 _ eq_refl) as Hslash. cbn [Nat.add] in Hslash.
    rewrite (processconsec_on _ _ _ Hsec).
    by rewrite (consec_no_comparison _ _ begin_ end_ _ (5 + begin_) _ _ TokSLASH
                  ltac:(lia) (parseexpression_square_plain _ _ _ _ x TokSLASH Hlt Htoks
                                ltac:(done) ltac:(done) ltac:(done)))
      by (cbn [Nat.add]; lia || done).
  - intros r begin_ x k Hsec Htoks.
    pose proof (holds_at_length _ _ _ Htoks) as Hlen.
    pose proof (holds_at_app_l _ _ [_; _; _; _; _; TokCOMP LpComparisonType.LEQ] [TokCONST k]
                  Htoks) as Hexpr.
    pose proof (holds_at_app_r _ _ [_; _; _; _; _] [TokCOMP LpComparisonType.LEQ; TokCONST k]
                  Htoks) as Hcomp.
    cbn [length Nat.add] in Hlen, Hcomp.
    apply (parseexpression_square_plain _ _ (7 + begin_) (builder r)) in Hexpr;
      [|lia|done..].
    rewrite (processconsec_on _ _ _ Hsec).
    turns (processedtokens r) begin_ 1.
    rewrite (consec_leq _ _ begin_ (7 + begin_) _ _ _ _ k ltac:(lia) Hexpr)
      by (cbn [Nat.add]; lia || done).
    cbn [Nat.add]. rewrite consec_end. cbn [bind].
    eexists _, _. split; [reflexivity|].
    unfold update_model, push_constraint.
    cbn [builder with_builder model variables Model.constraints].
    rewrite !getvarbyname_constraints. by split_and!.
Qed.

(** ** Special ordered sets *)

Section Sos.

Implicit Types (toks : list ProcessedToken) (b : Builder) (fuel it : nat)
  (entries : list (string * double)).

Lemma processsossec_on (r : Reader) (begin_ end_ : nat) :
  sectiontokens r !! LpSectionKeyword.SOS = Some (begin_, end_) →
  processsossec r
  = (let* (it, b) := sossec_loop (S (length (processedtokens r) - begin_))
                        (processedtokens r)
                        begin_ end_ (builder r) in
     Ok (with_builder b
           (with_sectiontokens
              (set_first LpSectionKeyword.SOS it (sectiontokens r)) r))).
Proof.
  intros H. unfold processsossec.
  by rewrite (has_section_Some _ _ _ H), (at_key_Some _ _ _ H).
Qed.

Lemma sossec_end fuel toks it b : sossec_loop (S fuel) toks it it b = Ok (it, b).
Proof. cbn [sossec_loop]. by rewrite decide_True. Qed.

Lemma sos_entries_end fuel toks it entries b :
  sos_entries (S fuel) toks it it entries b = Ok (it, entries, b).
Proof. cbn [sos_entries]. by rewrite decide_True. Qed.

(** label constant: the label names a variable, the constant is its
    weight *)
Lemma sos_entries_entry fuel toks it (end_ : nat) entries b name weight :
  (S it < end_)%nat → holds_at toks it [TokCONID name; TokCONST weight] →
  sos_entries (S fuel) toks it end_ entries b
  = sos_entries fuel toks (2 + it) end_ (entries ++ [(name, weight)])
      (getvarbyname name b).
Proof.
  intros Hlt Htoks. tokens_upto Htoks 2.
  cbn [sos_entries]. run. done.
Qed.

(** label type entries *)
Lemma sossec_set fuel toks it (end_ : nat) b name sostype j entries b' :
  (S it < end_)%nat → holds_at toks it [TokCONID name; TokSOSTYPE sostype] →
  sos_entries (S (length toks - (2 + it))) toks (2 + it) end_ [] b
  = Ok (j, entries, b') →
  sossec_loop (S fuel) toks it end_ b
  = sossec_loop fuel toks j end_
      (update_model
         (push_sos {| SOS.name := name;
                      SOS.type := if decide (sostype = SosType.SOS1) then 1 else 2;
                      SOS.entries := entries |}) b').
Proof.
  intros Hlt Htoks Hentries. tokens_upto Htoks 2.
  cbn [sossec_loop]. run. cbn [Nat.add] in Hentries. rewrite Hentries. run. done.
Qed.

End Sos.

(** On tokens: a special-ordered-set section that holds the label of
    the set, the type S1, and two labels with a constant each makes
    [processsossec] append one set of that name, of type 1, whose entries are
    the two labels, taken as variable names, with their constants, in this
    order. *)
Lemma processsossec_two_entries (r : Reader) (begin_ : nat)
    (name x1 x2 : string) (w1 w2 : double) :
  sectiontokens r !! LpSectionKeyword.SOS = Some (begin_, 6 + begin_) →
  holds_at (processedtokens r) begin_
    [TokCONID name; TokSOSTYPE SosType.SOS1;
     TokCONID x1; TokCONST w1; TokCONID x2; TokCONST w2] →
  ∃ r', processsossec r = Ok r'
    ∧ Model.soss (model (builder r'))
      = (Model.soss (model (builder r))
         ++ [{| SOS.name := name; SOS.type := 1;
                SOS.entries := [(x1, w1); (x2, w2)] |}])%list
    ∧ is_Some (variables (builder r') !! x1)
    ∧ is_Some (variables (builder r') !! x2).
Proof.
  intros Hsec Htoks.
  pose proof (holds_at_app_l _ _ [TokCONID name; TokSOSTYPE SosType.SOS1] [_; _; _; _] Htoks)
    as Hhead.
  pose proof (holds_at_app_r _ _ [TokCONID name; TokSOSTYPE SosType.SOS1] [_; _; _; _] Htoks)
    as Hrest.
  pose proof (holds_at_app_l _ _ [TokCONID x1; TokCONST w1] [_; _] Hrest) as H1.
  pose proof (holds_at_app_r _ _ [TokCONID x1; TokCONST w1] [_; _] Hrest) as H2.
  pose proof (holds_at_length _ _ _ Htoks) as Hlen.
  cbn [length Nat.add] in *.
  rewrite (processsossec_on _ _ _ Hsec).
  assert (Hent : sos_entries (S (length (processedtokens r) - (2 + begin_)))
                   (processedtokens r) (2 + begin_) (6 + begin_) [] (builder r)
                 = Ok (6 + begin_, [(x1, w1); (x2, w2)],
                       getvarbyname x2 (getvarbyname x1 (builder r)))).
  { turns (processedtokens r) (2 + begin_) 2.
    rewrite (sos_entries_entry _ _ _ _ _ _ x1 w1) by (cbn [Nat.add]; lia || done).
    rewrite (sos_entries_entry _ _ _ _ _ _ x2 w2) by (cbn [Nat.add]; lia || done).
    cbn [Nat.add]. by rewrite sos_entries_end. }
  turns (processedtokens r) begin_ 1.
  rewrite (sossec_set _ _ begin_ (6 + begin_) _ name SosType.SOS1 _ _ _
             ltac:(lia) Hhead Hent).
  cbn [Nat.add]. rewrite sossec_end. cbn [bind].
  eexists. split; [reflexivity|].
  unfold update_model, push_sos.
  cbn [builder with_builder model variables Model.soss].
  rewrite !getvarbyname_soss. split; [done|]. split.
  - destruct (decide (x1 = x2)) as [->|Hne].
    + apply getvarbyname_is_Some.
    + rewrite getvarbyname_lookup_ne by done. apply getvarbyname_is_Some.
  - apply getvarbyname_is_Some.
Qed.

(** ** The lexer *)


Section Strings.

Implicit Types (s chars : string) (c : ascii) (pos i : nat).







End Strings.



(** ** Examples *)

Lemma holds_at_take_drop (toks seg : list ProcessedToken) (begin_ : nat) :
  take (length seg) (drop begin_ toks) = seg → holds_at toks begin_ seg.
Proof.
  intros <- i t Hi. apply lookup_take_Some in Hi as [Hi _].
  rewrite lookup_drop in Hi. by rewrite Nat.add_comm.
Qed.

(** C3, the claim as it stands fails: the bounds keyword twice, the first
    time with nothing behind it; [splittokens] accepts the tokens, and so does
    [read] the file. *)
Lemma splittokens_accepts_repeated_keyword :
  keyword_at [TokSECID LpSectionKeyword.BOUNDS; TokSECID LpSectionKeyword.BOUNDS;
              TokVARID "x"; TokCOMP LpComparisonType.LEQ; TokCONST d1] 0
    LpSectionKeyword.BOUNDS
  ∧ keyword_at [TokSECID LpSectionKeyword.BOUNDS; TokSECID LpSectionKeyword.BOUNDS;
                TokVARID "x"; TokCOMP LpComparisonType.LEQ; TokCONST d1] 1
      LpSectionKeyword.BOUNDS
  ∧ (∃ r', splittokens
             (reader_on [TokSECID LpSectionKeyword.BOUNDS;
                         TokSECID LpSectionKeyword.BOUNDS;
                         TokVARID "x"; TokCOMP LpComparisonType.LEQ; TokCONST d1])
           = Ok r'
         ∧ sectiontokens r' = {[ LpSectionKeyword.BOUNDS := (2, 5) ]})
  ∧ (∃ b, read strtod_decimal
            (Reader_new ["bounds"; "bounds"; " x <= 1"; "end"] ObjectiveSense.MIN)
          = Ok b
        ∧ Var.upperbound <$> variables b !! "x" = Some d1).
Proof.
  split_and!; [done|done| |].
  - eexists. split; [vm_compute; reflexivity|]. apply map_eq. intros k.
    by destruct k.
  - eexists. split; [vm_compute; reflexivity|]. vm_compute. reflexivity.
Qed.

Lemma splittokens_duplicate_section_witness :
  splittokens
    (reader_on [TokSECID LpSectionKeyword.BOUNDS; TokVARID "x"; TokFREE;
                TokSECID LpSectionKeyword.BOUNDS])
  = Throw DuplicateSection.
Proof.
  apply (proj1 (splittokens_duplicate_section
                  (reader_on [TokSECID LpSectionKeyword.BOUNDS; TokVARID "x"; TokFREE;
                              TokSECID LpSectionKeyword.BOUNDS]) eq_refl)
           0 3 LpSectionKeyword.BOUNDS).
  - lia.
  - split; [done|]. by exists (TokVARID "x").
  - done.
Defined.

Lemma splittokens_empty_repeats_witness :
  ∃ r', splittokens
          (reader_on [TokSECID LpSectionKeyword.BOUNDS; TokSECID LpSectionKeyword.BOUNDS;
                      TokVARID "x"; TokFREE])
        = Ok r'.
Proof.
  apply (proj1 (splittokens_empty_repeats
                  (reader_on [TokSECID LpSectionKeyword.BOUNDS;
                              TokSECID LpSectionKeyword.BOUNDS;
                              TokVARID "x"; TokFREE]) eq_refl)).
  intros i j k Hlt Hi Hj (t & Ht & Hsec).
  destruct i as [|[|[|[|i]]]]; try done.
  - by injection Ht as <-.
  - destruct j as [|[|[|[|j]]]]; try done; lia.
Defined.

Lemma processsemisec_kinds_witness :
  ∃ r', processsemisec semi_reader = Ok r'
    ∧ kind (builder r') "x" = VariableType.SEMIINTEGER
    ∧ kind (builder r') "y" = VariableType.SEMICONTINUOUS.
Proof.
  destruct (processsemisec_kinds semi_reader ["x"; "y"] 3) as [Hgen _].
  - done.
  - by apply holds_at_take_drop.
  - destruct Hgen as (r' & Hr & Hkind & _); [by exists (2, 2)|].
    exists r'. split; [done|]. by rewrite !Hkind.
Defined.

(** C2, the claim as it stands fails: x is general-integer and the
    semicontinuous section lists it twice; the first listing makes it
    semi-integer, the second finds it semi-integer, not general-integer, and
    makes it semicontinuous.  So does [read] on the file that lists x in the
    integer section and twice in the semicontinuous section. *)
Lemma processsemisec_listed_twice :
  kind (builder semi_twice_reader) "x" = VariableType.GENERAL
  ∧ is_Some (sectiontokens semi_twice_reader !! LpSectionKeyword.GEN)
  ∧ sectiontokens semi_twice_reader !! LpSectionKeyword.SEMI = Some (3, 5)
  ∧ holds_at (processedtokens semi_twice_reader) 3 [TokVARID "x"; TokVARID "x"]
  ∧ (∃ r', processsemisec semi_twice_reader = Ok r'
         ∧ kind (builder r') "x" = VariableType.SEMICONTINUOUS
         ∧ kind (builder r') "x" ≠ VariableType.SEMIINTEGER)
  ∧ (∃ b, read strtod_decimal
            (Reader_new ["gen"; " x"; "semi"; " x x"; "end"] ObjectiveSense.MIN)
          = Ok b
        ∧ kind b "x" = VariableType.SEMICONTINUOUS).
Proof.
  split_and!.
  - reflexivity.
  - by exists (2, 2).
  - reflexivity.
  - by apply holds_at_take_drop.
  - eexists. split; [vm_compute; reflexivity|]. split; [reflexivity|discriminate].
  - eexists. split; [vm_compute; reflexivity|]. reflexivity.
Qed.

Lemma bounds_range_as_two_entries_witness :
  ∃ r1' r2' v,
    processboundssec
      (reader_with [TokSECID LpSectionKeyword.BOUNDS; TokCONST d3;
                    TokCOMP LpComparisonType.LEQ; TokVARID "x";
                    TokCOMP LpComparisonType.LEQ; TokCONST d7]
         {[ LpSectionKeyword.BOUNDS := (1, 6) ]} (Builder_new ObjectiveSense.MIN))
    = Ok r1'
    ∧ processboundssec
        (reader_with [TokSECID LpSectionKeyword.BOUNDS; TokVARID "x";
                      TokCOMP LpComparisonType.GEQ; TokCONST d3; TokVARID "x";
                      TokCOMP LpComparisonType.LEQ; TokCONST d7]
           {[ LpSectionKeyword.BOUNDS := (1, 7) ]} (Builder_new ObjectiveSense.MIN))
      = Ok r2'
    ∧ builder r1' = builder r2'
    ∧ variables (builder r1') !! "x" = Some v
    ∧ Var.lowerbound v = d3 ∧ Var.upperbound v = d7.
Proof.
  apply (bounds_range_as_two_entries _ _ "x" 1 1); try done;
    by apply holds_at_take_drop.
Defined.

Lemma processconsec_two_terms_leq_witness :
  ∃ r' con,
    processconsec
      (reader_with [TokSECID LpSectionKeyword.CON; TokCONST d2; TokVARID "x";
                    TokCONST d3; TokVARID "y"; TokCOMP LpComparisonType.LEQ;
                    TokCONST d7]
         {[ LpSectionKeyword.CON := (1, 7) ]} (Builder_new ObjectiveSense.MIN))
    = Ok r'
    ∧ Model.constraints (model (builder r')) = [con]
    ∧ Expression.linterms (Constraint.expr con)
      = [{| LinTerm.coef := d2; LinTerm.var := "x" |};
         {| LinTerm.coef := d3; LinTerm.var := "y" |}]
    ∧ Constraint.upperbound con = d7
    ∧ Constraint.lowerbound con = dneg infinity.
Proof.
  destruct (processconsec_two_terms_leq
              (reader_with [TokSECID LpSectionKeyword.CON; TokCONST d2; TokVARID "x";
                            TokCONST d3; TokVARID "y"; TokCOMP LpComparisonType.LEQ;
                            TokCONST d7]
                 {[ LpSectionKeyword.CON := (1, 7) ]} (Builder_new ObjectiveSense.MIN))
              1 d2 d3 d7 "x" "y")
    as (r' & con & Hr & Hcons & Hlin & _ & _ & Hub & _ & Hlb & _).
  - done.
  - by apply holds_at_take_drop.
  - by exists r', con.
Defined.

Lemma quadratic_group_closing_witness :
  parseexpression
    [TokSECID LpSectionKeyword.OBJMIN; TokBRKOP; TokVARID "x"; TokHAT; TokCONST d2;
     TokBRKCL; TokSLASH; TokCONST d2] 1 8 Expression.new true
    (Builder_new ObjectiveSense.MIN)
  = Ok (8, {| Expression.linterms := [];
              Expression.quadterms :=
                [{| QuadTerm.coef := d1; QuadTerm.var1 := "x"; QuadTerm.var2 := "x" |}];
              Expression.offset := d0; Expression.name := EmptyString |},
        getvarbyname "x" (Builder_new ObjectiveSense.MIN))
  ∧ processconsec
      (reader_with [TokSECID LpSectionKeyword.CON; TokBRKOP; TokVARID "x"; TokHAT;
                    TokCONST d2; TokBRKCL; TokSLASH; TokCONST d2;
                    TokCOMP LpComparisonType.LEQ; TokCONST d7]
         {[ LpSectionKeyword.CON := (1, 10) ]} (Builder_new ObjectiveSense.MIN))
    = Throw MalformedExpression.
Proof.
  destruct quadratic_group_closing as (_ & Hobj & Hcon & _). split.
  - destruct (Hobj [TokSECID LpSectionKeyword.OBJMIN; TokBRKOP; TokVARID "x"; TokHAT;
                     TokCONST d2; TokBRKCL; TokSLASH; TokCONST d2] 1 Expression.new
                (Builder_new ObjectiveSense.MIN) "x")
      as (expr' & Hparse & Hquad & Hlin & Hoff & Hname);
      [by apply holds_at_take_drop|].
    change (7 + 1) with 8 in Hparse. rewrite Hparse.
    destruct expr'. cbn in Hquad, Hlin, Hoff, Hname.
    by rewrite Hquad, Hlin, Hoff, Hname.
  - apply (Hcon _ 1 10 "x"); [done|lia|]. by apply holds_at_take_drop.
Defined.

(** C8.  The section  setA: S1:: x1:1 x2:2 : on any tokens of this
    form [processsossec] appends one set of the given name, of type 1, whose
    entries are the two labels, taken as variable names, with their
    constants, in this order; the text is classified into tokens of this form,
    and [read] returns a model with the one set setA, type 1, entries
    (x1, 1.0) and (x2, 2.0). *)
Theorem sos_section_set :
  (∀ (r : Reader) (begin_ : nat) (name x1 x2 : string) (w1 w2 : double),
     sectiontokens r !! LpSectionKeyword.SOS = Some (begin_, 6 + begin_) →
     holds_at (processedtokens r) begin_
       [TokCONID name; TokSOSTYPE SosType.SOS1;
        TokCONID x1; TokCONST w1; TokCONID x2; TokCONST w2] →
     ∃ r', processsossec r = Ok r'
       ∧ Model.soss (model (builder r'))
         = (Model.soss (model (builder r))
            ++ [{| SOS.name := name; SOS.type := 1;
                   SOS.entries := [(x1, w1); (x2, w2)] |}])%list
       ∧ is_Some (variables (builder r') !! x1)
       ∧ is_Some (variables (builder r') !! x2))
  ∧ (∀ sense,
       (let* r := tokenize strtod_decimal
                    (Reader_new ["sos"; "setA: S1:: x1:1 x2:2"] sense) in
        Ok (processedtokens r))
       = Ok [TokSECID LpSectionKeyword.SOS; TokCONID "setA"; TokSOSTYPE SosType.SOS1;
             TokCONID "x1"; TokCONST d1; TokCONID "x2"; TokCONST d2])
  ∧ (∀ sense,
       ∃ b, read strtod_decimal (Reader_new ["sos"; "setA: S1:: x1:1 x2:2"] sense) = Ok b
          ∧ Model.soss (model b)
            = [{| SOS.name := "setA"; SOS.type := 1;
                  SOS.entries := [("x1", d1); ("x2", d2)] |}]
          ∧ Model.variables (model b) = ["x1"; "x2"]).
Proof.
  split_and!.
  - apply processsossec_two_entries.
  - intros sense. vm_compute. reflexivity.
  - intros sense. eexists. split; [vm_compute; reflexivity|]. by split.
Qed.

Lemma sos_section_set_witness :
  ∃ r', processsossec
          (reader_with [TokSECID LpSectionKeyword.SOS; TokCONID "setA";
                        TokSOSTYPE SosType.SOS1; TokCONID "x1"; TokCONST d1;
                        TokCONID "x2"; TokCONST d2]
             {[ LpSectionKeyword.SOS := (1, 7) ]} (Builder_new ObjectiveSense.MIN))
        = Ok r'
    ∧ Model.soss (model (builder r'))
      = [{| SOS.name := "setA"; SOS.type := 1;
            SOS.entries := [("x1", d1); ("x2", d2)] |}].
Proof.
  destruct (proj1 sos_section_set
              (reader_with [TokSECID LpSectionKeyword.SOS; TokCONID "setA";
                            TokSOSTYPE SosType.SOS1; TokCONID "x1"; TokCONST d1;
                            TokCONID "x2"; TokCONST d2]
                 {[ LpSectionKeyword.SOS := (1, 7) ]} (Builder_new ObjectiveSense.MIN))
              1 "setA" "x1" "x2" d1 d2) as (r' & Hr & Hsos & _).
  - done.
  - by apply holds_at_take_drop.
  - by exists r'.
Defined.



(** * Further properties of the reader

    The lexer and the classifier end and leave the parse state alone; the
    splitter records ranges that delimit the sections; the section processors
    end, add to the model only, and read well-formed sections as written. *)

(** ** The lexer

    Every call of [readnexttoken] that sets no token uses up input, so the
    loop around it ends. *)

Section Outcomes.

Context {A B : Type}.

Lemma bind_Ok (m : outcome A) (k : A → outcome B) (b : B) :
  bind m k = Ok b ↔ ∃ a, m = Ok a ∧ k a = Ok b.
Proof. destruct m; simpl; naive_solver. Qed.

Lemma bind_OutOfFuel (m : outcome A) (k : A → outcome B) :
  bind m k = OutOfFuel ↔ m = OutOfFuel ∨ ∃ a, m = Ok a ∧ k a = OutOfFuel.
Proof. destruct m; simpl; naive_solver. Qed.

End Outcomes.

Section Lexing.

Variable strtod : string → double * nat.

Lemma get_None s : ∀ pos, String.length s ≤ pos → String.get pos s = None.
Proof.
  induction s as [|c s IH]; intros [|pos] Hle; simpl in *; try done; try lia.
  apply IH. lia.
Qed.

Lemma char_at_NUL s pos : String.length s ≤ pos → char_at s pos = NUL.
Proof. intros Hle. unfold char_at. by rewrite get_None. Qed.

Lemma char_at_lt s pos : char_at s pos ≠ NUL → pos < String.length s.
Proof.
  intros Hc. destruct (decide (pos < String.length s)); [done|].
  destruct Hc. apply char_at_NUL. lia.
Qed.

Lemma length_drop_cr s : String.length (drop_cr s) ≤ String.length s.
Proof.
  induction s as [|c s IH]; [done|]. simpl.
  destruct s as [|c' s]; [case_decide; simpl; lia|].
  simpl in *. lia.
Qed.

Lemma single_character_type c ty :
  single_character c = Some ty →
  ty ≠ RawTokenType.NONE ∧ ty ≠ RawTokenType.FLEND
  ∧ ty ≠ RawTokenType.STR ∧ ty ≠ RawTokenType.CONS ∧ c ≠ NUL.
Proof.
  unfold single_character. repeat case_decide; intros [= <-]; subst; done.
Qed.

(** One call of [readnexttoken] inside a line. *)
Lemma readnexttoken_at_Ok r t set t' r' :
  readnexttoken_at strtod r t = Ok (set, t', r') →
  rawtokens r' = rawtokens r ∧ rawtokenpos r' = rawtokenpos r
  ∧ same_parse r r' ∧ file r' = file r ∧ linebuffer r' = linebuffer r
  ∧ (set = false → t' = t)
  ∧ (set = true → rtype t' ≠ RawTokenType.NONE ∧ rtype t' ≠ RawTokenType.FLEND)
  ∧ (linebufferpos r < String.length (linebuffer r) →
     String.length (linebuffer r) - linebufferpos r' <
     String.length (linebuffer r) - linebufferpos r)
  ∧ (¬ linebufferpos r < String.length (linebuffer r) →
     r' = r ∧ set = false ∧ linebufferpos r = String.length (linebuffer r)).
Proof.
  unfold readnexttoken_at, same_parse.
  destruct (decide (char_at (linebuffer r) (linebufferpos r) = NUL)) as [Hnul|Hnul].
  - rewrite Hnul. rewrite decide_False by done.
    change (single_character NUL) with (@None RawTokenType.t).
    rewrite decide_False by (intros [|]; done).
    rewrite decide_False by (intros [|]; done).
    case_decide as Hpos; [|done]. intros [= <- <- <-]. split_and!; try done; lia.
  - pose proof (char_at_lt _ _ Hnul) as Hlt.
    case_decide.
    { intros [= <- <- <-]. simpl. split_and!; try done; lia. }
    destruct (single_character _) as [ty|] eqn:Hty.
    { apply single_character_type in Hty as (? & ? & _).
      intros [= <- <- <-]. simpl. split_and!; try done; lia. }
    case_decide.
    { intros [= <- <- <-]. simpl. split_and!; try done; lia. }
    case_decide.
    { intros [= <- <- <-]. simpl. split_and!; try done; lia. }
    destruct (strtod _) as [constant used].
    case_decide.
    { intros [= <- <- <-]. simpl. split_and!; try done; lia. }
    case_decide; [|done].
    intros [= <- <- <-]. simpl. split_and!; try done; lia.
Qed.

(** Every call of [readnexttoken] that returns uses up input, but the one
    that reports the end of the file. *)
Lemma readnexttoken_Ok r t set t' r' :
  readnexttoken strtod r t = Ok (set, t', r') →
  rawtokens r' = rawtokens r ∧ rawtokenpos r' = rawtokenpos r
  ∧ same_parse r r'
  ∧ (set = false → t' = t)
  ∧ (set = true → rtype t' ≠ RawTokenType.NONE)
  ∧ (rtype t' = RawTokenType.FLEND ∧ set = true ∧ r' = r ∧ exhausted r
     ∨ (set = true → rtype t' ≠ RawTokenType.FLEND) ∧ unread r' < unread r).
Proof.
  unfold readnexttoken, same_parse. case_decide as Hpos.
  - destruct (file r) as [|line rest] eqn:Hfile.
    { intros [= <- <- <-]. split_and!; try done. left. by split_and!. }
    intros Hr. apply readnexttoken_at_Ok in Hr
      as (? & ? & (? & ? & ?) & Hf & Hl & ? & Hset & Hlt & Hge).
    split_and!; try done; [naive_solver|]. right. split; [naive_solver|].
    pose proof (length_drop_cr line).
    unfold unread. rewrite Hf, Hl, Hfile, Hpos. simpl in *.
    destruct (decide (0 < String.length (drop_cr line))) as [Hz|Hz].
    + specialize (Hlt Hz). lia.
    + destruct (Hge Hz) as (-> & _ & _). simpl. lia.
  - intros Hr. apply readnexttoken_at_Ok in Hr
      as (? & ? & (? & ? & ?) & Hf & Hl & ? & Hset & Hlt & Hge).
    split_and!; try done; [naive_solver|]. right. split; [naive_solver|].
    unfold unread. rewrite Hf, Hl.
    destruct (decide (linebufferpos r < String.length (linebuffer r))) as [Hz|Hz].
    + specialize (Hlt Hz). lia.
    + by destruct (Hge Hz) as (_ & _ & ?).
Qed.

Lemma readnexttoken_fuel r t : readnexttoken strtod r t ≠ OutOfFuel.
Proof.
  unfold readnexttoken, readnexttoken_at.
  repeat first [case_decide | case_match]; done.
Qed.

Lemma same_parse_refl r : same_parse r r.
Proof. done. Qed.

Lemma same_parse_trans r1 r2 r3 : same_parse r1 r2 → same_parse r2 r3 → same_parse r1 r3.
Proof. unfold same_parse. intros (? & ? & ?) (? & ? & ?). split_and!; congruence. Qed.

Lemma exhausted_unread r : exhausted r → unread r = 0.
Proof. intros [Hf Hp]. unfold unread. rewrite Hf, Hp. simpl. lia. Qed.

(** The loop [while( !readnexttoken(rawtokens[i]) ) ;] ends, with a token
    in slot [i]. *)
Lemma fill_loop_spec i : ∀ fuel r, unread r < fuel →
  fill_loop strtod fuel i r ≠ OutOfFuel
  ∧ ∀ r', fill_loop strtod fuel i r = Ok r' → filled i r r' ∧ same_parse r r'.
Proof.
  induction fuel as [|fuel IH]; intros r Hfuel; [lia|]. cbn [fill_loop].
  set (t0 := default RawToken_default (rawtokens r !! i)).
  destruct (readnexttoken strtod r t0) as [[[set t'] r1]| | |] eqn:Hr; cbn [bind];
    [|done..|by apply readnexttoken_fuel in Hr].
  apply readnexttoken_Ok in Hr as (Hraw & Hpos & Hsame & Hfalse & Htrue & Hcase).
  destruct set.
  - split; [done|]. intros r' [= <-]. split; [|done].
    exists t'. cbn. rewrite Hraw. split_and!; [done|by apply Htrue|done|].
    destruct Hcase as [(? & _ & -> & ?)|[Hne ?]].
    + left. split_and!; [done..|]. unfold unread. simpl. lia.
    + right. split; [by apply Hne|done].
  - destruct Hcase as [(_ & [=] & _)|[_ Hlt]].
    rewrite (Hfalse eq_refl), Hraw.
    set (r2 := with_rawtokens _ _ r1).
    assert (Hun : unread r2 = unread r1) by done.
    destruct (IH r2) as [Hfuel2 Hok]; [lia|]. split; [done|].
    intros r' Hr'. destruct (Hok r' Hr') as [(t & Ht & Hty & Hp & Hc) Hs].
    split.
    + exists t. split_and!; [|done|by rewrite Hp|].
      * rewrite Ht. cbn. apply list_insert_insert_eq.
      * destruct Hc as [(? & ? & ?)|[? ?]]; [left|right]; split_and!; try done; lia.
    + apply (same_parse_trans _ r1); [done|]. apply (same_parse_trans _ r2); done.
Qed.

Lemma fill_spec i r :
  fill strtod i r ≠ OutOfFuel
  ∧ ∀ r', fill strtod i r = Ok r' → filled i r r' ∧ same_parse r r'.
Proof. apply fill_loop_spec. lia. Qed.

End Lexing.

(** ** The window of raw tokens *)

Section Window.

Variable strtod : string → double * nat.

Lemma mod5_ne pos k : k < 4 → (S pos + k) mod 5 ≠ pos mod 5.
Proof.
  intros Hk Heq.
  pose proof (Nat.div_mod_eq (S pos + k) 5). pose proof (Nat.div_mod_eq pos 5).
  pose proof (Nat.mod_upper_bound pos 5). lia.
Qed.

Lemma mod5_lt pos : pos mod 5 < 5.
Proof. apply Nat.mod_upper_bound. lia. Qed.

Lemma nonflend_insert (l : list RawToken) i t t0 :
  l !! i = Some t0 →
  length (filter (λ t, rtype t ≠ RawTokenType.FLEND) (<[i := t]> l))
  + (if decide (rtype t0 ≠ RawTokenType.FLEND) then 1 else 0)
  = length (filter (λ t, rtype t ≠ RawTokenType.FLEND) l)
    + (if decide (rtype t ≠ RawTokenType.FLEND) then 1 else 0).
Proof.
  revert i. induction l as [|a l IH]; intros [|i] Hi; simpl in *; try done.
  - injection Hi as ->. rewrite !filter_cons.
    repeat case_decide; rewrite ?length_cons; lia.
  - specialize (IH i Hi). rewrite !filter_cons.
    destruct (decide (rtype a ≠ RawTokenType.FLEND)); rewrite ?length_cons; lia.
Qed.

(** One slot filled: what is still to come does not grow, and shrinks
    when the slot held a token other than the end of the file. *)
Lemma filled_pending i r r' t0 :
  rawtokens r !! i = Some t0 → filled i r r' →
  pending r' ≤ pending r
  ∧ (rtype t0 ≠ RawTokenType.FLEND → pending r' < pending r).
Proof.
  intros Hi (t & Ht & _ & _ & Hc). unfold pending. rewrite Ht.
  pose proof (nonflend_insert _ _ t _ Hi) as Hn.
  destruct (decide (rtype t0 ≠ RawTokenType.FLEND));
    destruct (decide (rtype t ≠ RawTokenType.FLEND));
    destruct Hc as [(Hty & _ & ?)|[Hty ?]]; try done; split; try done; lia.
Qed.

Lemma filled_flend_last i r r' :
  i < length (rawtokens r) → filled i r r' →
  (flend_last r → flend_last r')
  ∧ (exhausted r → exhausted r').
Proof.
  intros Hi (t & Ht & _ & _ & Hc).
  assert (Hex : exhausted r → exhausted r').
  { intros Hex. apply exhausted_unread in Hex.
    destruct Hc as [(_ & ? & _)|[_ ?]]; [done|lia]. }
  split; [|done]. intros Hl t' Hin Hty. rewrite Ht in Hin.
  apply list_elem_of_lookup in Hin as [j Hj].
  destruct (decide (i = j)) as [<-|Hne].
  - rewrite list_lookup_insert_eq in Hj by done. injection Hj as <-.
    destruct Hc as [(_ & ? & _)|[? _]]; done.
  - rewrite list_lookup_insert_ne in Hj by done.
    apply Hex, (Hl t'); [|done]. by apply list_elem_of_lookup_2 in Hj.
Qed.

(** [nextrawtoken(n)] moves the window by [n] tokens. *)
Lemma nextrawtoken_spec n : ∀ r, length (rawtokens r) = 5 →
  nextrawtoken strtod n r ≠ OutOfFuel
  ∧ ∀ r', nextrawtoken strtod n r = Ok r' →
      length (rawtokens r') = 5
      ∧ rawtokenpos r' = rawtokenpos r + n
      ∧ same_parse r r'
      ∧ (∀ k, k + n < 5 → rawtoken r' k = rawtoken r (k + n))
      ∧ pending r' ≤ pending r
      ∧ (0 < n → rtype (rawtoken r 0) ≠ RawTokenType.FLEND → pending r' < pending r)
      ∧ (flend_last r → flend_last r')
      ∧ (exhausted r → exhausted r').
Proof.
  induction n as [|n IH]; intros r Hlen.
  { split; [done|]. intros r' [= <-]. split_and!; try done; try lia.
    intros k _. by rewrite Nat.add_0_r. }
  cbn [nextrawtoken].
  destruct (fill_spec strtod (rawtokenpos r mod 5) r) as [Hfuel Hok].
  destruct (fill strtod (rawtokenpos r mod 5) r) as [r1| | |] eqn:Hr1; cbn [bind];
    [|done..].
  destruct (Hok r1 eq_refl) as [Hfill Hsame]. clear Hok Hfuel.
  pose proof (mod5_lt (rawtokenpos r)) as Hlt.
  destruct (lookup_lt_is_Some_2 (rawtokens r) (rawtokenpos r mod 5)) as [t0 Ht0];
    [by rewrite Hlen|].
  destruct (filled_pending _ _ _ _ Ht0 Hfill) as [Hle Hdec].
  destruct (filled_flend_last (rawtokenpos r mod 5) r r1) as [Hfl Hex];
    [by rewrite Hlen|done|].
  destruct Hfill as (t & Ht & Hty & Hpos & Hc).
  set (r2 := with_rawtokens (rawtokens r1) (S (rawtokenpos r1)) r1).
  assert (Hlen2 : length (rawtokens r2) = 5).
  { cbn. rewrite Ht, length_insert. done. }
  destruct (IH r2 Hlen2) as [Hfuel2 Hok2]. split; [done|].
  intros r' Hr'.
  destruct (Hok2 r' Hr') as (Hl' & Hp' & Hs' & Hwin & Hle' & _ & Hfl' & Hex').
  assert (Hp2 : rawtokenpos r2 = S (rawtokenpos r)) by (cbn; by rewrite Hpos).
  split_and!; [done|rewrite Hp', Hp2; lia| | | | | |].
  - apply (same_parse_trans _ r1); [done|]. by apply (same_parse_trans _ r2).
  - intros k Hk. rewrite Hwin by lia. unfold rawtoken. rewrite Hp2.
    replace (rawtokenpos r + (k + S n)) with (S (rawtokenpos r) + (k + n)) by lia.
    change (rawtokens r2) with (rawtokens r1). rewrite Ht.
    rewrite list_lookup_insert_ne; [done|].
    intros Heq. apply (mod5_ne (rawtokenpos r) (k + n)); [lia|]. done.
  - assert (pending r2 = pending r1) by done. lia.
  - intros _ Hcur. assert (pending r2 = pending r1) by done.
    assert (rtype t0 ≠ RawTokenType.FLEND).
    { unfold rawtoken in Hcur. rewrite Nat.add_0_r, Ht0 in Hcur. done. }
    specialize (Hdec ltac:(done)). lia.
  - intros H. apply Hfl', Hfl, H.
  - intros H. apply Hex', Hex, H.
Qed.

End Window.

(** ** One turn of the classifier *)

Lemma keyword_of_Some str k : keyword_of str = Some k → k ≠ LpSectionKeyword.NONE.
Proof. unfold keyword_of. case_decide; naive_solver. Qed.

Lemma keyword_if (c : bool) str k :
  (if c then keyword_of str else None) = Some k → emitted (TokSECID k).
Proof.
  destruct c; [|done]. intros Hk%keyword_of_Some. split_and!; congruence.
Qed.

Section Classifying.

Variable strtod : string → double * nat.

Lemma turn_Throw r e : turn r (Throw e).
Proof. done. Qed.

Lemma turn_lpassert r e c k :
  (c = true → turn r k) → turn r (let* _ := lpassert e c in k).
Proof. destruct c; [intros H; by apply H|done]. Qed.

Lemma pending_bound r : pending r ≤ unread r + length (rawtokens r).
Proof. unfold pending. pose proof (length_filter (λ t, rtype t ≠ RawTokenType.FLEND) (rawtokens r)). lia. Qed.

Lemma turn_advance n t r :
  length (rawtokens r) = 5 → rtype (rawtoken r 0) ≠ RawTokenType.FLEND →
  0 < n → emitted t →
  turn r (nextrawtoken strtod n (emplace_back t r)).
Proof.
  intros Hlen Hcur Hn Ht.
  destruct (nextrawtoken_spec strtod n (emplace_back t r) Hlen) as [Hfuel Hok].
  split; [done|]. intros r' Hr'.
  destruct (Hok r' Hr') as (Hl & _ & (Hp & Hs & Hb) & _ & _ & Hdec & Hfl & _).
  split_and!; [done|by apply Hdec|done|done| |done].
  exists [t]. split; [done|]. by apply Forall_singleton.
Qed.

Lemma skip_comment_spec : ∀ fuel r,
  length (rawtokens r) = 5 → rtype (rawtoken r 0) ≠ RawTokenType.FLEND →
  pending r < fuel →
  skip_comment strtod fuel r ≠ OutOfFuel
  ∧ ∀ r', skip_comment strtod fuel r = Ok r' →
      length (rawtokens r') = 5 ∧ pending r' < pending r ∧ same_parse r r'
      ∧ (flend_last r → flend_last r').
Proof.
  induction fuel as [|fuel IH]; intros r Hlen Hcur Hfuel; [lia|].
  cbn [skip_comment].
  destruct (nextrawtoken_spec strtod 2 r Hlen) as [Hf Hok].
  destruct (nextrawtoken strtod 2 r) as [r1| | |] eqn:Hr1; cbn [bind]; [|done..].
  destruct (Hok r1 eq_refl) as (Hl & _ & Hs & _ & _ & Hdec & Hfl & _).
  specialize (Hdec ltac:(lia) Hcur).
  destruct (negb _ && negb (istype (rawtoken r1 0) RawTokenType.FLEND)) eqn:Hgo.
  - apply andb_true_iff in Hgo as [_ Hgo]. apply negb_true_iff in Hgo.
    apply bool_decide_eq_false in Hgo.
    destruct (IH r1) as [Hf1 Hok1]; [done|done|lia|]. split; [done|].
    intros r' Hr'. destruct (Hok1 r' Hr') as (? & ? & ? & ?).
    split_and!; [done|lia|by apply (same_parse_trans _ r1)|naive_solver].
  - split; [done|]. intros r' [= <-]. done.
Qed.

Ltac classify Hlen Hcur :=
  lazymatch goal with
  | |- turn _ (Throw _) => apply turn_Throw
  | |- turn _ (bind (lpassert _ _) _) =>
      apply turn_lpassert; intros _; classify Hlen Hcur
  | |- turn _ (nextrawtoken _ _ (emplace_back _ _)) =>
      apply turn_advance; [exact Hlen|exact Hcur|lia|by split_and!]
  | |- turn _ (match ?m with Some _ => _ | None => _ end) =>
      let Hk := fresh "Hk" in
      destruct m eqn:Hk;
      [apply turn_advance; [exact Hlen|exact Hcur|lia|by apply keyword_if in Hk]
      |classify Hlen Hcur]
  | |- turn _ (if ?c then _ else _) => destruct c; classify Hlen Hcur
  end.

Lemma processtoken_spec r :
  length (rawtokens r) = 5 → rtype (rawtoken r 0) ≠ RawTokenType.FLEND →
  turn r (processtoken strtod r).
Proof.
  intros Hlen Hcur. unfold processtoken. cbv zeta.
  destruct (istype (rawtoken r 0) RawTokenType.SLASH && _).
  { pose proof (pending_bound r).
    destruct (skip_comment_spec (S (5 + unread r)) r) as [Hf Hok]; [done|done|lia|].
    destruct (skip_comment strtod _ r) as [r1| | |] eqn:Hr1; cbn [bind]; [|done..].
    destruct (Hok r1 eq_refl) as (Hl & Hdec & (? & ? & ?) & Hfl).
    destruct (nextrawtoken_spec strtod 2 r1 Hl) as [Hf2 Hok2]. split; [done|].
    intros r' Hr'.
    destruct (Hok2 r' Hr') as (Hl' & _ & (Hp & ? & ?) & _ & Hle & _ & Hfl' & _).
    split_and!; [done|lia|congruence|congruence| |naive_solver].
    exists []. rewrite app_nil_r. split; [congruence|done]. }
  classify Hlen Hcur.
Qed.

Lemma processtokens_loop_spec : ∀ fuel r,
  length (rawtokens r) = 5 → pending r < fuel →
  processtokens_loop strtod fuel r ≠ OutOfFuel
  ∧ ∀ r', processtokens_loop strtod fuel r = Ok r' →
      rtype (rawtoken r' 0) = RawTokenType.FLEND
      ∧ length (rawtokens r') = 5
      ∧ sectiontokens r' = sectiontokens r ∧ builder r' = builder r
      ∧ (∃ new, processedtokens r' = processedtokens r ++ new ∧ Forall emitted new)
      ∧ (flend_last r → flend_last r').
Proof.
  induction fuel as [|fuel IH]; intros r Hlen Hfuel; [lia|].
  cbn [processtokens_loop].
  destruct (istype (rawtoken r 0) RawTokenType.FLEND) eqn:Hcur.
  { apply bool_decide_eq_true in Hcur.
    split; [done|]. intros r' [= <-]. split_and!; try done.
    exists []. by rewrite app_nil_r. }
  apply bool_decide_eq_false in Hcur.
  destruct (processtoken_spec r Hlen Hcur) as [Hf Hok].
  destruct (processtoken strtod r) as [r1| | |] eqn:Hr1; cbn [bind]; [|done..].
  destruct (Hok r1 eq_refl) as (Hl & Hdec & Hs & Hb & (new & Hnew & Hem) & Hfl).
  destruct (IH r1) as [Hf1 Hok1]; [done|lia|]. split; [done|].
  intros r' Hr'.
  destruct (Hok1 r' Hr') as (? & ? & ? & ? & (new' & Hnew' & Hem') & ?).
  split_and!; [done|done|congruence|congruence| |naive_solver].
  exists (new ++ new'). rewrite Hnew', Hnew, app_assoc. split; [done|].
  by apply Forall_app.
Qed.

End Classifying.

(** ** Reading all tokens *)

Section Tokenizing.

Variable strtod : string → double * nat.

Lemma fill_slots_read j r r' :
  j < length (rawtokens r) → fill strtod j r = Ok r' → slots_read j r →
  slots_read (S j) r' ∧ length (rawtokens r') = length (rawtokens r)
  ∧ same_parse r r'.
Proof.
  intros Hj Hr' Hslots.
  destruct (fill_spec strtod j r) as [_ Hok].
  destruct (Hok r' Hr') as [Hfill Hsame].
  destruct (filled_flend_last j r r' Hj Hfill) as [_ Hex].
  destruct Hfill as (t & Ht & _ & _ & Hc).
  split_and!; [|by rewrite Ht, length_insert|done].
  intros i t' Hi Hlook Hty. rewrite Ht in Hlook.
  destruct (decide (j = i)) as [<-|Hne].
  - rewrite list_lookup_insert_eq in Hlook by done. injection Hlook as <-.
    destruct Hc as [(_ & ? & _)|[? _]]; done.
  - rewrite list_lookup_insert_ne in Hlook by done.
    apply Hex, (Hslots i t'); [lia|done..].
Qed.

Lemma tokenize_spec r :
  length (rawtokens r) = 5 →
  tokenize strtod r ≠ OutOfFuel
  ∧ ∀ r', tokenize strtod r = Ok r' →
      exhausted r' ∧ rtype (rawtoken r' 0) = RawTokenType.FLEND
      ∧ (∃ new, processedtokens r' = processedtokens r ++ new ∧ Forall emitted new)
      ∧ sectiontokens r' = sectiontokens r ∧ builder r' = builder r.
Proof.
  intros Hlen. unfold tokenize.
  set (r0 := with_rawtokens (rawtokens r) 0 (with_linebufferpos 0 r)).
  assert (Hlen0 : length (rawtokens r0) = 5) by done.
  assert (Hs0 : same_parse r r0) by done.
  assert (Hsl0 : slots_read 0 r0) by (intros j t Hj; lia).
  clearbody r0.
  destruct (fill_spec strtod 0 r0) as [Hf0 _].
  destruct (fill strtod 0 r0) as [r1| | |] eqn:Hr1; cbn [bind]; [|done..].
  destruct (fill_slots_read 0 r0 r1) as (Hsl1 & Hlen1 & Hs1); [lia|done..|].
  destruct (fill_spec strtod 1 r1) as [Hf1 _].
  destruct (fill strtod 1 r1) as [r2| | |] eqn:Hr2; cbn [bind]; [|done..].
  destruct (fill_slots_read 1 r1 r2) as (Hsl2 & Hlen2 & Hs2); [lia|done..|].
  destruct (fill_spec strtod 2 r2) as [Hf2 _].
  destruct (fill strtod 2 r2) as [r3| | |] eqn:Hr3; cbn [bind]; [|done..].
  destruct (fill_slots_read 2 r2 r3) as (Hsl3 & Hlen3 & Hs3); [lia|done..|].
  destruct (fill_spec strtod 3 r3) as [Hf3 _].
  destruct (fill strtod 3 r3) as [r4| | |] eqn:Hr4; cbn [bind]; [|done..].
  destruct (fill_slots_read 3 r3 r4) as (Hsl4 & Hlen4 & Hs4); [lia|done..|].
  destruct (fill_spec strtod 4 r4) as [Hf4 _].
  destruct (fill strtod 4 r4) as [r5| | |] eqn:Hr5; cbn [bind]; [|done..].
  destruct (fill_slots_read 4 r4 r5) as (Hsl5 & Hlen5 & Hs5); [lia|done..|].
  assert (Hlen' : length (rawtokens r5) = 5) by lia.
  assert (Hfl : flend_last r5).
  { intros t Hin Hty. apply list_elem_of_lookup in Hin as [j Hj].
    apply (Hsl5 j t); [|done..]. apply lookup_lt_Some in Hj. lia. }
  assert (Hs : same_parse r r5).
  { repeat (eapply same_parse_trans; [|eassumption]). done. }
  pose proof (pending_bound r5).
  destruct (processtokens_loop_spec strtod (S (5 + unread r5)) r5) as [Hf Hok];
    [done|lia|].
  split; [done|]. intros r' Hr'.
  destruct (Hok r' Hr') as (Hcur & Hl & Hst & Hb & (new & Hnew & Hem) & Hfl').
  destruct Hs as (Hp & ? & ?).
  split_and!; [|done| |congruence..].
  - apply (Hfl' Hfl (rawtoken r' 0)); [|done]. unfold rawtoken.
    destruct (lookup_lt_is_Some_2 (rawtokens r') ((rawtokenpos r' + 0) mod 5))
      as [t Ht]; [rewrite Hl; apply mod5_lt|].
    rewrite Ht. by apply list_elem_of_lookup_2 in Ht.
  - exists new. by rewrite Hnew, Hp.
Qed.

End Tokenizing.

(** ** The ranges the splitter records *)

Section Ranges.

Implicit Types (toks rest pre : list ProcessedToken) (st : sections)
  (k cur : LpSectionKeyword.t) (i j it : nat).

Lemma is_SECID_true t : is_SECID t = true ↔ ∃ k, t = TokSECID k.
Proof.
  unfold is_SECID. rewrite bool_decide_eq_true. destruct t; naive_solver.
Qed.

Lemma is_SECID_false t : is_SECID t = false ↔ ∀ k, t ≠ TokSECID k.
Proof.
  unfold is_SECID. rewrite bool_decide_eq_false. destruct t; naive_solver.
Qed.

(** Closing the open section at the keyword at [it]. *)
Lemma split_inv_close toks it cur st kw :
  toks !! it = Some (TokSECID kw) → split_inv toks it cur st →
  ∀ k b e, k ≠ LpSectionKeyword.NONE →
    (if decide (cur ≠ LpSectionKeyword.NONE) then set_second cur it st else st) !! k
    = Some (b, e) →
    section_range toks k b e.
Proof.
  intros Hit [Hopen Hclosed] k b e Hk Hlook.
  destruct (decide (cur ≠ LpSectionKeyword.NONE)) as [Hcur|Hcur].
  - destruct (Hopen Hcur) as (b0 & e0 & Hst & Hb0 & Hkey & Hcontent & Hplain).
    unfold set_second, at_key in Hlook. rewrite Hst in Hlook. simpl in Hlook.
    destruct (decide (cur = k)) as [->|Hne].
    + rewrite lookup_insert_eq in Hlook. injection Hlook as <- <-.
      assert (b0 ≠ it).
      { intros ->. destruct Hcontent as (t & Ht & Hs). rewrite Hit in Ht.
        injection Ht as <-. done. }
      apply lookup_lt_Some in Hit as Hlt.
      split_and!; [lia|lia|lia|done|done|]. intros _. by exists kw.
    + rewrite lookup_insert_ne in Hlook by done. by apply (Hclosed k b e).
  - apply (Hclosed k b e); [done| |done]. intros ->. by apply Hcur.
Qed.

Lemma splittokens_loop_ranges toks rest : ∀ pre it cur st cur' st',
  toks = pre ++ rest → it = length pre →
  split_inv toks it cur st →
  splittokens_loop rest it cur st = Ok (cur', st') →
  split_inv toks (length toks) cur' st'.
Proof.
  induction rest as [|t rest IH]; intros pre it cur st cur' st' Htoks Hit Hinv.
  { intros [= <- <-]. subst. by rewrite app_nil_r in *. }
  assert (Hat : toks !! it = Some t).
  { rewrite Htoks, Hit. by rewrite list_lookup_middle. }
  assert (Htoks' : toks = (pre ++ [t]) ++ rest) by (by rewrite <-app_assoc).
  assert (Hit' : S it = length (pre ++ [t])) by (rewrite length_app; simpl; lia).
  assert (Hplain : (∀ k, t ≠ TokSECID k) →
    splittokens_loop (t :: rest) it cur st = splittokens_loop rest (S it) cur st).
  { intros Ht. destruct t; try done. by destruct (Ht keyword). }
  assert (Hcase : (∃ k, t = TokSECID k) ∨ ∀ k, t ≠ TokSECID k)
    by (destruct t; eauto).
  destruct Hcase as [[kw ->]|Hno].
  2:{ rewrite Hplain by done. apply (IH (pre ++ [t])); [done..|].
      destruct Hinv as [Hopen Hclosed]. split; [|done].
      intros Hcur. destruct (Hopen Hcur) as (b & e & Hst & Hb & Hkey & Hc & Hpl).
      exists b, e. split_and!; [done|lia|lia|done|done|].
      intros j Hj. destruct (decide (j = it)) as [->|]; [|apply Hpl; lia].
      exists t. split; [done|]. by apply is_SECID_false. }
  pose proof (split_inv_close toks it cur st kw Hat Hinv) as Hclose.
  cbn [splittokens_loop].
  set (st1 := if decide (cur ≠ LpSectionKeyword.NONE) then set_second cur it st else st)
    in *.
  destruct (bool_decide (count st1 kw = 0)) eqn:Hcount; [|done].
  apply bool_decide_eq_true in Hcount. apply count_zero in Hcount.
  cbn [lpassert bind].
  assert (Hempty : split_inv toks (S it) LpSectionKeyword.NONE st1).
  { split; [done|]. intros k b e Hk _. by apply Hclose. }
  destruct rest as [|next rest'] eqn:Hrest.
  { by apply (IH (pre ++ [TokSECID kw])). }
  destruct (is_SECID next) eqn:Hnext.
  { rewrite <-Hrest in *. by apply (IH (pre ++ [TokSECID kw])). }
  rewrite <-Hrest in *.
  apply (IH (pre ++ [TokSECID kw])); [done..|].
  assert (Hnext' : toks !! S it = Some next).
  { rewrite Htoks', Hit', Hrest. by rewrite list_lookup_middle. }
  unfold set_first, at_key. rewrite Hcount. simpl. split.
  - intros Hkw. exists (S it), 0. rewrite lookup_insert_eq.
    split_and!; [done|lia|lia|by rewrite Nat.sub_1_r|by exists next|].
    intros j Hj. lia.
  - intros k b e Hk Hne Hlook. rewrite lookup_insert_ne in Hlook by done.
    by apply Hclose.
Qed.

Lemma splittokens_ranges (r r' : Reader) k (begin_ end_ : nat) :
  sectiontokens r = ∅ → splittokens r = Ok r' →
  k ≠ LpSectionKeyword.NONE → sectiontokens r' !! k = Some (begin_, end_) →
  section_range (processedtokens r) k begin_ end_
  ∧ processedtokens r' = processedtokens r ∧ builder r' = builder r.
Proof.
  intros Hempty. unfold splittokens.
  destruct (splittokens_loop _ _ _ _) as [[cur' st']| | |] eqn:Hloop; try done.
  cbn [bind]. intros [= <-] Hk Hlook. split; [|done]. cbn in Hlook.
  apply (splittokens_loop_ranges (processedtokens r) (processedtokens r) []) in Hloop;
    [|done|done|].
  2:{ rewrite Hempty. split; [done|]. intros k0 b e _ _ Hl. by rewrite lookup_empty in Hl. }
  destruct Hloop as [Hopen Hclosed].
  destruct (decide (cur' ≠ LpSectionKeyword.NONE)) as [Hcur|Hcur].
  - destruct (Hopen Hcur) as (b0 & e0 & Hst & Hb0 & Hkey & Hcontent & Hplain).
    unfold set_second, at_key in Hlook. rewrite Hst in Hlook. simpl in Hlook.
    destruct (decide (cur' = k)) as [->|Hne].
    + rewrite lookup_insert_eq in Hlook. injection Hlook as <- <-.
      destruct Hcontent as (t & Ht & Hs). apply lookup_lt_Some in Ht as Hlt.
      split_and!; [lia|lia|lia|done|done|lia].
    + rewrite lookup_insert_ne in Hlook by done. by apply (Hclosed k).
  - apply (Hclosed k); [done| |done]. intros ->. by apply Hcur.
Qed.

End Ranges.

(** ** Loops with a counter

    [returns Q m]: the loop ends within its counter, and its result, when
    there is one, satisfies [Q]. *)

Section Returns.

Context {A B : Type}.

Lemma returns_bind (Q1 : A → Prop) (Q : B → Prop) (m : outcome A) (k : A → outcome B) :
  returns Q1 m → (∀ a, Q1 a → returns Q (k a)) → returns Q (bind m k).
Proof. destruct m; simpl; auto. Qed.

Lemma returns_reads (Q : B → Prop) (m : outcome A) (k : A → outcome B) :
  reads m → (∀ a, m = Ok a → returns Q (k a)) → returns Q (bind m k).
Proof. destruct m; simpl; auto; done. Qed.

Lemma returns_mono (Q1 Q : A → Prop) (m : outcome A) :
  returns Q1 m → (∀ a, Q1 a → Q a) → returns Q m.
Proof. destruct m; simpl; auto. Qed.

Lemma returns_lpassert (Q : B → Prop) e (c : bool) (k : outcome B) :
  (c = true → returns Q k) → returns Q (let* _ := lpassert e c in k).
Proof. destruct c; simpl; auto. Qed.

Lemma returns_Ok (Q : A → Prop) (m : outcome A) a : returns Q m → m = Ok a → Q a.
Proof. by intros H ->. Qed.

Lemma returns_fuel (Q : A → Prop) (m : outcome A) : returns Q m → m ≠ OutOfFuel.
Proof. by destruct m. Qed.

End Returns.

Section Reads.

Implicit Types (toks : list ProcessedToken) (it : nat).

Lemma reads_deref toks it : reads (deref toks it).
Proof. unfold deref. by destruct (toks !! it). Qed.

Lemma reads_type_at toks it ty : reads (type_at toks it ty).
Proof. unfold type_at, deref. by destruct (toks !! it). Qed.

Lemma reads_type_differs_at toks it ty : reads (type_differs_at toks it ty).
Proof. unfold type_differs_at, deref. by destruct (toks !! it). Qed.

Lemma reads_name_at toks it : reads (name_at toks it).
Proof. unfold name_at, deref. by destruct (toks !! it) as [[]|]. Qed.

Lemma reads_value_at toks it : reads (value_at toks it).
Proof. unfold value_at, deref. by destruct (toks !! it) as [[]|]. Qed.

Lemma reads_dir_at toks it : reads (dir_at toks it).
Proof. unfold dir_at, deref. by destruct (toks !! it) as [[]|]. Qed.

Lemma reads_sostype_at toks it : reads (sostype_at toks it).
Proof. unfold sostype_at, deref. by destruct (toks !! it) as [[]|]. Qed.

Lemma reads_differs it (end_ : nat) : reads (differs it end_).
Proof. done. Qed.

Lemma reads_and_then (a b : outcome bool) : reads a → reads b → reads (a &&& b).
Proof. destruct a as [[]| | |]; simpl; auto. Qed.

Lemma and_then_true (a b : outcome bool) :
  a &&& b = Ok true → a = Ok true ∧ b = Ok true.
Proof. destruct a as [[]| | |]; simpl; naive_solver. Qed.

Lemma type_at_Ok toks it ty c : type_at toks it ty = Ok c → it < length toks.
Proof.
  unfold type_at, deref. destruct (toks !! it) eqn:H; [|done].
  intros _. by apply lookup_lt_Some in H.
Qed.

Lemma type_differs_at_Ok toks it ty c :
  type_differs_at toks it ty = Ok c → it < length toks.
Proof.
  unfold type_differs_at, deref. destruct (toks !! it) eqn:H; [|done].
  intros _. by apply lookup_lt_Some in H.
Qed.

Lemma differs_true it (end_ : nat) : differs it end_ = Ok true → it ≠ end_.
Proof. unfold differs. intros [= H]. by apply bool_decide_eq_true in H. Qed.

Lemma step_le it (end_ : nat) : it ≤ step it end_ ≤ S it.
Proof. unfold step. case_decide; lia. Qed.

End Reads.

Create HintDb reads.
#[local] Hint Resolve reads_deref reads_type_at reads_type_differs_at reads_name_at
  reads_value_at reads_dir_at reads_sostype_at reads_differs reads_and_then : reads.

(** What a condition that held says about the iterators it read. *)
Ltac cond_facts :=
  repeat match goal with
  | H : _ &&& _ = Ok true |- _ => apply and_then_true in H as [? ?]
  end;
  repeat match goal with
  | H : type_at _ _ _ = Ok _ |- _ => apply type_at_Ok in H
  | H : type_differs_at _ _ _ = Ok _ |- _ => apply type_differs_at_Ok in H
  | H : differs _ _ = Ok true |- _ => apply differs_true in H
  end.

(** One step through the body of a loop. *)
Ltac returns_step :=
  lazymatch goal with
  | |- returns _ (Throw _) => exact I
  | |- returns _ Undefined => exact I
  | |- returns _ (bind (lpassert _ _) _) => apply returns_lpassert; intros ?
  | |- returns _ (bind ?m _) =>
      apply returns_reads; [solve [auto 10 with reads]|intros ? ?]
  | |- returns _ (if decide _ then _ else _) => case_decide
  | |- returns _ (if negb ?c then _ else _) => destruct c; cbn [negb]
  | |- returns _ (if ?c then _ else _) => destruct c
  end.

(** ** What the section processors do to the builder

    Every loop over tokens ends, its iterator never moves back, and the
    builder changes by the operations of the loop only: a relation that these
    operations respect holds between the builder before and after. *)

Section Loops.

Variable R : Builder → Builder → Prop.
Variable body : Var.t → Var.t.

Hypothesis R_refl : ∀ b, R b b.
Hypothesis R_trans : ∀ b1 b2 b3, R b1 b2 → R b2 b3 → R b1 b3.
Hypothesis R_getvarbyname : ∀ name b, R b (getvarbyname name b).
Hypothesis R_lowerbound : ∀ name x b, R b (update_var name (Var.set_lowerbound x) b).
Hypothesis R_upperbound : ∀ name x b, R b (update_var name (Var.set_upperbound x) b).
Hypothesis R_body : ∀ name b, R b (update_var name body b).
Hypothesis R_constraint : ∀ c b, R b (update_model (push_constraint c) b).
Hypothesis R_sos : ∀ s b, R b (update_model (push_sos s) b).
Hypothesis R_sense : ∀ s b, R b (update_model (set_sense s) b).
Hypothesis R_objective : ∀ e b, R b (update_model (set_objective e) b).

Ltac rel :=
  solve [ repeat first
    [ apply R_refl
    | assumption
    | eapply R_trans;
      [|first [ apply R_getvarbyname | apply R_lowerbound | apply R_upperbound
              | apply R_body | apply R_constraint | apply R_sos
              | apply R_sense | apply R_objective | eassumption ]] ] ].

Ltac step_facts :=
  repeat match goal with
  | |- context [step ?a ?e] =>
      lazymatch goal with
      | _ : a ≤ step a e ≤ S a |- _ => fail
      | _ => pose proof (step_le a e)
      end
  end.

Ltac recursion IH :=
  eapply returns_mono;
    [apply IH; cond_facts; cbv beta in *; lia
    |intros [[? ?] ?] [? ?]; split; [cond_facts; cbv beta in *; lia|rel]].

Ltac recursion2 IH :=
  eapply returns_mono;
    [apply IH; cond_facts; cbv beta in *; lia
    |intros [? ?] [? ?]; split; [cond_facts; cbv beta in *; lia|rel]].

Lemma quadratic_loop_returns : ∀ fuel toks (it end_ : nat) expr b,
  length toks - it < fuel →
  returns (λ '(it', _, b'), it ≤ it' ∧ R b b') (quadratic_loop fuel toks it end_ expr b).
Proof.
  induction fuel as [|fuel IH]; intros toks it end_ expr b Hfuel; [lia|].
  cbn [quadratic_loop]. step_facts.
  returns_step. returns_step; [|cbn; split; [lia|rel]].
  returns_step. returns_step.
  { repeat returns_step. recursion IH. }
  returns_step. returns_step.
  { repeat returns_step. recursion IH. }
  returns_step. returns_step.
  { repeat returns_step. recursion IH. }
  returns_step. returns_step.
  { repeat returns_step. recursion IH. }
  cbn; split; [lia|rel].
Qed.

Lemma close_group_returns toks (it end_ : nat) isobj :
  returns (λ it', it < it') (close_group toks it end_ isobj).
Proof.
  unfold close_group. step_facts. destruct isobj; repeat returns_step; cbn; lia.
Qed.

Lemma expression_loop_returns : ∀ fuel toks (it end_ : nat) expr isobj b,
  length toks - it < fuel →
  returns (λ '(it', _, b'), it ≤ it' ∧ R b b')
    (expression_loop fuel toks it end_ expr isobj b).
Proof.
  induction fuel as [|fuel IH]; intros toks it end_ expr isobj b Hfuel; [lia|].
  cbn [expression_loop].
  returns_step; [cbn; split; [lia|rel]|].
  returns_step. returns_step.
  { repeat returns_step. recursion IH. }
  returns_step. returns_step.
  { repeat returns_step. recursion IH. }
  returns_step. returns_step.
  { repeat returns_step. recursion IH. }
  returns_step. returns_step; [|cbn; split; [lia|rel]].
  eapply returns_bind; [apply quadratic_loop_returns; lia|].
  intros [[it1 expr1] b1] [Hit1 Hb1].
  eapply returns_bind; [apply close_group_returns|]. intros it2 Hit2.
  recursion IH.
Qed.

Lemma parseexpression_returns toks (it end_ : nat) expr isobj b :
  returns (λ '(it', _, b'), it ≤ it' ∧ R b b')
    (parseexpression toks it end_ expr isobj b).
Proof.
  unfold parseexpression.
  returns_step. destruct a.
  - apply (returns_bind (λ p, p.1 = S it)); [by returns_step|].
    intros [it1 expr1] Hit1. cbn in Hit1. subst it1.
    eapply returns_mono; [apply expression_loop_returns; lia|].
    intros [[? ?] ?] [? ?]. split; [lia|done].
  - cbn [bind]. apply expression_loop_returns. lia.
Qed.

Lemma consec_loop_returns : ∀ fuel toks (begin_ end_ : nat) b,
  length toks - begin_ < fuel →
  returns (λ '(begin', b'), begin_ ≤ begin' ∧ R b b') (consec_loop fuel toks begin_ end_ b).
Proof.
  induction fuel as [|fuel IH]; intros toks begin_ end_ b Hfuel; [lia|].
  cbn [consec_loop].
  returns_step; [cbn; split; [lia|rel]|].
  eapply returns_bind; [apply parseexpression_returns|].
  intros [[it1 expr1] b1] [Hit1 Hb1].
  do 8 returns_step.
  destruct a0; cbn [bind]; try exact I; recursion2 IH.
Qed.

Lemma bound_const_comp_var_returns dir value name b :
  returns (λ b', R b b') (bound_const_comp_var dir value name b).
Proof. destruct dir; cbn; try done; rel. Qed.

Lemma bound_var_comp_const_returns dir value name b :
  returns (λ b', R b b') (bound_var_comp_const dir value name b).
Proof. destruct dir; cbn; try done; rel. Qed.

Lemma boundssec_loop_returns : ∀ fuel toks (begin_ end_ : nat) b,
  length toks - begin_ < fuel →
  returns (λ '(begin', b'), begin_ ≤ begin' ∧ R b b')
    (boundssec_loop fuel toks begin_ end_ b).
Proof.
  induction fuel as [|fuel IH]; intros toks begin_ end_ b Hfuel; [lia|].
  cbn [boundssec_loop]. step_facts.
  returns_step; [cbn; split; [lia|rel]|].
  returns_step. returns_step.
  { repeat returns_step. recursion2 IH. }
  returns_step. returns_step.
  { repeat returns_step. recursion2 IH. }
  returns_step. returns_step.
  { do 4 returns_step.
    eapply returns_bind; [apply bound_const_comp_var_returns|]. intros b1 Hb1.
    recursion2 IH. }
  returns_step. returns_step; [|exact I].
  do 4 returns_step.
  eapply returns_bind; [apply bound_var_comp_const_returns|]. intros b1 Hb1.
  recursion2 IH.
Qed.

Lemma varsec_loop_returns : ∀ fuel toks (begin_ end_ : nat) b,
  length toks - begin_ < fuel →
  returns (λ '(begin', b'), begin_ ≤ begin' ∧ R b b')
    (varsec_loop fuel toks begin_ end_ body b).
Proof.
  induction fuel as [|fuel IH]; intros toks begin_ end_ b Hfuel; [lia|].
  cbn [varsec_loop].
  returns_step; [cbn; split; [lia|rel]|].
  do 3 returns_step. recursion2 IH.
Qed.

Lemma sos_entries_returns : ∀ fuel toks (begin_ end_ : nat) entries b,
  length toks - begin_ < fuel →
  returns (λ '(begin', _, b'), begin_ ≤ begin' ∧ R b b')
    (sos_entries fuel toks begin_ end_ entries b).
Proof.
  induction fuel as [|fuel IH]; intros toks begin_ end_ entries b Hfuel; [lia|].
  cbn [sos_entries].
  returns_step; [cbn; split; [lia|rel]|].
  returns_step. returns_step; [cbn; split; [lia|rel]|].
  returns_step. returns_step. returns_step; [|cbn; split; [lia|rel]].
  returns_step. recursion IH.
Qed.

Lemma sossec_loop_returns : ∀ fuel toks (begin_ end_ : nat) b,
  length toks - begin_ < fuel →
  returns (λ '(begin', b'), begin_ ≤ begin' ∧ R b b')
    (sossec_loop fuel toks begin_ end_ b).
Proof.
  induction fuel as [|fuel IH]; intros toks begin_ end_ b Hfuel; [lia|].
  cbn [sossec_loop].
  returns_step; [cbn; split; [lia|rel]|].
  do 7 returns_step.
  eapply returns_bind; [apply sos_entries_returns; lia|].
  intros [[begin1 entries1] b1] [Hbegin1 Hb1].
  recursion2 IH.
Qed.

Lemma processed_refl r : processed R r r.
Proof. split; [apply R_refl|done]. Qed.

Lemma processed_trans r1 r2 r3 : processed R r1 r2 → processed R r2 r3 → processed R r1 r3.
Proof. intros [? ?] [? ?]. split; [by eapply R_trans|congruence]. Qed.

Lemma processnonesec_returns r : returns (processed R r) (processnonesec r).
Proof. unfold processnonesec. returns_step. apply processed_refl. Qed.

Lemma processendsec_returns r : returns (processed R r) (processendsec r).
Proof. unfold processendsec. returns_step. apply processed_refl. Qed.

Lemma objsec_returns k s r : returns (processed R r) (objsec k s r).
Proof.
  unfold objsec. destruct (at_key _ _) as [begin_ end_].
  eapply returns_bind; [apply parseexpression_returns|].
  intros [[it1 expr1] b1] [Hit1 Hb1]. returns_step. cbn. split; [|done]. cbn. rel.
Qed.

Lemma processobjsec_returns r : returns (processed R r) (processobjsec r).
Proof.
  unfold processobjsec.
  set (r0 := with_builder _ r).
  assert (H0 : processed R r r0) by (split; [cbn; rel|done]).
  clearbody r0.
  destruct (has_section r0 LpSectionKeyword.OBJMIN);
    [|destruct (has_section r0 LpSectionKeyword.OBJMAX)].
  - eapply returns_mono; [apply objsec_returns|]. intros r'. by apply processed_trans.
  - eapply returns_mono; [apply objsec_returns|]. intros r'. by apply processed_trans.
  - done.
Qed.

Lemma processconsec_returns r : returns (processed R r) (processconsec r).
Proof.
  unfold processconsec. returns_step; [|apply processed_refl].
  destruct (at_key _ _) as [begin_ end_].
  eapply returns_bind; [apply consec_loop_returns; lia|].
  intros [begin1 b1] [_ Hb1]. by split.
Qed.

Lemma processboundssec_returns r : returns (processed R r) (processboundssec r).
Proof.
  unfold processboundssec. returns_step; [|apply processed_refl].
  destruct (at_key _ _) as [begin_ end_].
  eapply returns_bind; [apply boundssec_loop_returns; lia|].
  intros [begin1 b1] [_ Hb1]. by split.
Qed.

Lemma varsec_returns k r : returns (processed R r) (varsec k body r).
Proof.
  unfold varsec. destruct (at_key _ _) as [begin_ end_].
  eapply returns_bind; [apply varsec_loop_returns; lia|].
  intros [begin1 b1] [_ Hb1]. by split.
Qed.

Lemma processsossec_returns r : returns (processed R r) (processsossec r).
Proof.
  unfold processsossec. returns_step; [|apply processed_refl].
  destruct (at_key _ _) as [begin_ end_].
  eapply returns_bind; [apply sossec_loop_returns; lia|].
  intros [begin1 b1] [_ Hb1]. by split.
Qed.

End Loops.

Section Sections.

Variable R : Builder → Builder → Prop.

Hypothesis R_refl : ∀ b, R b b.
Hypothesis R_trans : ∀ b1 b2 b3, R b1 b2 → R b2 b3 → R b1 b3.
Hypothesis R_getvarbyname : ∀ name b, R b (getvarbyname name b).
Hypothesis R_lowerbound : ∀ name x b, R b (update_var name (Var.set_lowerbound x) b).
Hypothesis R_upperbound : ∀ name x b, R b (update_var name (Var.set_upperbound x) b).
Hypothesis R_binsec : ∀ name b, R b (update_var name binsec_body b).
Hypothesis R_gensec : ∀ name b, R b (update_var name gensec_body b).
Hypothesis R_semisec : ∀ name b, R b (update_var name semisec_body b).
Hypothesis R_constraint : ∀ c b, R b (update_model (push_constraint c) b).
Hypothesis R_sos : ∀ s b, R b (update_model (push_sos s) b).
Hypothesis R_sense : ∀ s b, R b (update_model (set_sense s) b).
Hypothesis R_objective : ∀ e b, R b (update_model (set_objective e) b).

Lemma processbinsec_returns r : returns (processed R r) (processbinsec r).
Proof.
  unfold processbinsec. destruct (has_section _ _); cbn [negb].
  - by apply varsec_returns.
  - by apply processed_refl.
Qed.

Lemma processgensec_returns r : returns (processed R r) (processgensec r).
Proof.
  unfold processgensec. destruct (has_section _ _); cbn [negb].
  - by apply varsec_returns.
  - by apply processed_refl.
Qed.

Lemma processsemisec_returns r : returns (processed R r) (processsemisec r).
Proof.
  unfold processsemisec. destruct (has_section _ _); cbn [negb].
  - by apply varsec_returns.
  - by apply processed_refl.
Qed.

Lemma processsections_returns r : returns (processed R r) (processsections r).
Proof.
  unfold processsections.
  eapply returns_bind; [by apply processnonesec_returns|]. intros r1 H1.
  eapply returns_bind; [by apply processobjsec_returns|]. intros r2 H2.
  eapply returns_bind; [by apply processconsec_returns|]. intros r3 H3.
  eapply returns_bind; [by apply processboundssec_returns|]. intros r4 H4.
  eapply returns_bind; [by apply processgensec_returns|]. intros r5 H5.
  eapply returns_bind; [by apply processbinsec_returns|]. intros r6 H6.
  eapply returns_bind; [by apply processsemisec_returns|]. intros r7 H7.
  eapply returns_bind; [by apply processsossec_returns|]. intros r8 H8.
  eapply returns_mono; [by apply processendsec_returns|]. intros r9 H9.
  repeat (eapply (processed_trans R R_trans); [|eassumption]). done.
Qed.

End Sections.

Section Kept.

Implicit Types (b : Builder) (name : string).

Lemma kind_getvarbyname name b name' : kind (getvarbyname name b) name' = kind b name'.
Proof.
  unfold kind. destruct (decide (name = name')) as [->|Hne].
  - rewrite getvarbyname_lookup. by destruct (variables b !! name').
  - by rewrite getvarbyname_lookup_ne.
Qed.

Lemma kind_update_var name f b name' :
  (∀ v, Var.type (f v) = Var.type v) →
  kind (update_var name f b) name' = kind b name'.
Proof.
  intros Hf. unfold kind. destruct (decide (name = name')) as [->|Hne].
  - rewrite update_var_lookup. destruct (variables b !! name'); simpl; [|done].
    by rewrite Hf.
  - by rewrite update_var_lookup_ne.
Qed.

Lemma bounds_getvarbyname name b name' :
  bounds (getvarbyname name b) name' = bounds b name'.
Proof.
  unfold bounds. destruct (decide (name = name')) as [->|Hne].
  - rewrite getvarbyname_lookup. by destruct (variables b !! name').
  - by rewrite getvarbyname_lookup_ne.
Qed.

Lemma bounds_update_var name f b name' :
  (∀ v, Var.lowerbound (f v) = Var.lowerbound v
        ∧ Var.upperbound (f v) = Var.upperbound v) →
  bounds (update_var name f b) name' = bounds b name'.
Proof.
  intros Hf. unfold bounds. destruct (decide (name = name')) as [->|Hne].
  - rewrite update_var_lookup. destruct (variables b !! name'); simpl; [|done].
    by destruct (Hf t) as [-> ->].
  - by rewrite update_var_lookup_ne.
Qed.

Lemma grows_refl b : grows b b.
Proof. by split_and!. Qed.

Lemma grows_trans b1 b2 b3 : grows b1 b2 → grows b2 b3 → grows b1 b3.
Proof.
  intros (? & ? & ? & ?) (? & ? & ? & ?).
  split_and!; [by etrans..|]. naive_solver.
Qed.

Lemma grows_getvarbyname name b : grows b (getvarbyname name b).
Proof.
  split_and!.
  - by rewrite getvarbyname_constraints.
  - by rewrite getvarbyname_soss.
  - unfold getvarbyname. destruct (variables b !! name); [done|].
    simpl. by apply prefix_app_r.
  - intros name' Hin. destruct (decide (name = name')) as [->|Hne].
    + apply getvarbyname_is_Some.
    + by rewrite getvarbyname_lookup_ne.
Qed.

Lemma grows_update_var name f b : grows b (update_var name f b).
Proof.
  split_and!; [done..|]. intros name' Hin. by apply update_var_registered.
Qed.

Lemma same_model_getvarbyname name b : same_model b (getvarbyname name b).
Proof.
  split_and!; [apply getvarbyname_objective|apply getvarbyname_sense
              |apply getvarbyname_constraints|apply getvarbyname_soss].
Qed.

Lemma same_model_trans b1 b2 b3 : same_model b1 b2 → same_model b2 b3 → same_model b1 b3.
Proof.
  intros (? & ? & ? & ?) (? & ? & ? & ?). split_and!; congruence.
Qed.

End Kept.

(** ** The section processors end, and what they keep *)

Lemma splittokens_loop_fuel rest : ∀ it cur st,
  splittokens_loop rest it cur st ≠ OutOfFuel.
Proof.
  induction rest as [|t rest IH]; intros it cur st; [done|].
  destruct t; cbn [splittokens_loop]; try apply IH.
  unfold lpassert. destruct (bool_decide _); cbn [bind]; [|done].
  destruct rest as [|next rest']; [apply IH|].
  destruct (is_SECID next); apply IH.
Qed.

Lemma splittokens_fuel r : splittokens r ≠ OutOfFuel.
Proof.
  unfold splittokens. pose proof (splittokens_loop_fuel (processedtokens r) 0
    LpSectionKeyword.NONE (sectiontokens r)).
  by destruct (splittokens_loop _ _ _ _) as [[??]| | |].
Qed.

(** Every loop of the section processors ends. *)
Lemma processsections_fuel (r : Reader) : processsections r ≠ OutOfFuel.
Proof.
  apply (returns_fuel (processed (λ _ _, True) r)).
  by apply processsections_returns.
Qed.

(** X11.  [read] ends on every input: it returns, throws, or stops at an
    undefined read or a failed [assert]; so do the section processors on any
    section map. *)
Theorem read_ends (strtod : string → double * nat) (r : Reader) :
  length (rawtokens r) = 5 →
  read strtod r ≠ OutOfFuel ∧ ∀ r', processsections r' ≠ OutOfFuel.
Proof.
  intros Hlen. split; [|apply processsections_fuel]. unfold read.
  destruct (tokenize_spec strtod r Hlen) as [Hfuel _].
  destruct (tokenize strtod r) as [r1| | |]; cbn [bind]; try done.
  pose proof (splittokens_fuel (clear_linebuffer r1)).
  destruct (splittokens _) as [r2| | |]; cbn [bind]; try done.
  pose proof (processsections_fuel r2).
  by destruct (processsections r2).
Qed.

Lemma read_ends_witness :
  length (rawtokens (Reader_new ["min"; " x"; "end"] ObjectiveSense.MIN)) = 5
  ∧ read strtod_decimal (Reader_new ["min"; " x"; "end"] ObjectiveSense.MIN) ≠ OutOfFuel.
Proof.
  split; [reflexivity|].
  apply (read_ends strtod_decimal (Reader_new ["min"; " x"; "end"] ObjectiveSense.MIN)).
  reflexivity.
Defined.

Lemma kinds_kept (r r' : Reader) :
  processobjsec r = Ok r' ∨ processconsec r = Ok r'
  ∨ processboundssec r = Ok r' ∨ processsossec r = Ok r' →
  ∀ name, kind (builder r') name = kind (builder r) name.
Proof.
  set (R := λ b b' : Builder, ∀ name, kind b' name = kind b name).
  assert (R_refl : ∀ b, R b b) by done.
  assert (R_trans : ∀ b1 b2 b3, R b1 b2 → R b2 b3 → R b1 b3).
  { intros b1 b2 b3 H1 H2 name. by rewrite H2. }
  assert (R_getvarbyname : ∀ name b, R b (getvarbyname name b)).
  { intros name b name'. apply kind_getvarbyname. }
  assert (R_lowerbound : ∀ name x b, R b (update_var name (Var.set_lowerbound x) b)).
  { intros name x b name'. by apply kind_update_var. }
  assert (R_upperbound : ∀ name x b, R b (update_var name (Var.set_upperbound x) b)).
  { intros name x b name'. by apply kind_update_var. }
  intros [H|[H|[H|H]]].
  - by apply (returns_Ok _ _ _ (processobjsec_returns R R_refl R_trans R_getvarbyname
      ltac:(done) ltac:(done) r) H).
  - by apply (returns_Ok _ _ _ (processconsec_returns R R_refl R_trans R_getvarbyname
      ltac:(done) r) H).
  - by apply (returns_Ok _ _ _ (processboundssec_returns R R_refl R_trans R_getvarbyname
      R_lowerbound R_upperbound r) H).
  - by apply (returns_Ok _ _ _ (processsossec_returns R R_refl R_trans R_getvarbyname
      ltac:(done) r) H).
Qed.

(** X13.  The kind of a variable changes in the sections that list variables
    only: the objective, the constraints, the bounds and the sets leave every
    kind as it is. *)
Theorem sections_keep_kinds (r r' : Reader) :
  processobjsec r = Ok r' ∨ processconsec r = Ok r'
  ∨ processboundssec r = Ok r' ∨ processsossec r = Ok r' →
  ∀ name, kind (builder r') name = kind (builder r) name.
Proof. apply kinds_kept. Qed.

Lemma sections_keep_kinds_witness :
  ∃ r', processboundssec
          (reader_with [TokSECID LpSectionKeyword.BOUNDS; TokVARID "x";
                        TokCOMP LpComparisonType.LEQ; TokCONST d3]
             {[ LpSectionKeyword.BOUNDS := (1, 4) ]}
             (entry gensec_body (Builder_new ObjectiveSense.MIN) "x")) = Ok r'
    ∧ kind (builder r') "x" = VariableType.GENERAL.
Proof.
  destruct (processboundssec
          (reader_with [TokSECID LpSectionKeyword.BOUNDS; TokVARID "x";
                        TokCOMP LpComparisonType.LEQ; TokCONST d3]
             {[ LpSectionKeyword.BOUNDS := (1, 4) ]}
             (entry gensec_body (Builder_new ObjectiveSense.MIN) "x")))
    as [r'| | |] eqn:Hr; [|vm_compute in Hr; discriminate Hr..].
  exists r'. split; [reflexivity|].
  rewrite (sections_keep_kinds _ r' (or_intror (or_intror (or_introl Hr))) "x").
  reflexivity.
Defined.

(** X15.  The sections that set bounds and kinds leave the objective, the
    sense, the constraints and the sets as they are. *)
Theorem variable_sections_keep_model (r r' : Reader) :
  processboundssec r = Ok r' ∨ processbinsec r = Ok r'
  ∨ processgensec r = Ok r' ∨ processsemisec r = Ok r' →
  same_model (builder r) (builder r').
Proof.
  assert (R_refl : ∀ b, same_model b b) by done.
  assert (R_var : ∀ name f b, same_model b (update_var name f b)) by done.
  intros [H|[H|[H|H]]].
  - by apply (returns_Ok _ _ _ (processboundssec_returns same_model R_refl
      same_model_trans same_model_getvarbyname ltac:(done) ltac:(done) r) H).
  - by apply (returns_Ok _ _ _ (processbinsec_returns same_model R_refl
      same_model_trans same_model_getvarbyname ltac:(done) r) H).
  - by apply (returns_Ok _ _ _ (processgensec_returns same_model R_refl
      same_model_trans same_model_getvarbyname ltac:(done) r) H).
  - by apply (returns_Ok _ _ _ (processsemisec_returns same_model R_refl
      same_model_trans same_model_getvarbyname ltac:(done) r) H).
Qed.

Lemma variable_sections_keep_model_witness :
  ∃ r', processbinsec
          (reader_with [TokSECID LpSectionKeyword.BIN; TokVARID "x"]
             {[ LpSectionKeyword.BIN := (1, 2) ]} (Builder_new ObjectiveSense.MAX)) = Ok r'
    ∧ Model.sense (model (builder r')) = ObjectiveSense.MAX.
Proof.
  destruct (processbinsec
          (reader_with [TokSECID LpSectionKeyword.BIN; TokVARID "x"]
             {[ LpSectionKeyword.BIN := (1, 2) ]} (Builder_new ObjectiveSense.MAX)))
    as [r'| | |] eqn:Hr; [|vm_compute in Hr; discriminate Hr..].
  exists r'. split; [reflexivity|].
  destruct (variable_sections_keep_model _ r' (or_intror (or_introl Hr)))
    as (_ & Hsense & _).
  exact Hsense.
Defined.

(** X12.  The section processors only ever add to the model. *)
Theorem processsections_grows (r r' : Reader) :
  processsections r = Ok r' →
  grows (builder r) (builder r') ∧ processedtokens r' = processedtokens r.
Proof.
  intros H.
  apply (returns_Ok _ _ _ (processsections_returns grows grows_refl grows_trans
    grows_getvarbyname ltac:(intros; apply grows_update_var)
    ltac:(intros; apply grows_update_var) ltac:(intros; apply grows_update_var)
    ltac:(intros; apply grows_update_var) ltac:(intros; apply grows_update_var)
    ltac:(intros; split_and!; try done; by apply prefix_app_r)
    ltac:(intros; split_and!; try done; by apply prefix_app_r)
    ltac:(done) ltac:(done) r) H).
Qed.

Lemma processsections_grows_witness :
  ∃ r', processsections
          (reader_with [TokSECID LpSectionKeyword.OBJMIN; TokVARID "x";
                        TokSECID LpSectionKeyword.BIN; TokVARID "y"]
             {[ LpSectionKeyword.OBJMIN := (1, 2); LpSectionKeyword.BIN := (3, 4) ]}
             (getvarbyname "z" (Builder_new ObjectiveSense.MIN))) = Ok r'
    ∧ is_Some (variables (builder r') !! "z").
Proof.
  destruct (processsections
          (reader_with [TokSECID LpSectionKeyword.OBJMIN; TokVARID "x";
                        TokSECID LpSectionKeyword.BIN; TokVARID "y"]
             {[ LpSectionKeyword.OBJMIN := (1, 2); LpSectionKeyword.BIN := (3, 4) ]}
             (getvarbyname "z" (Builder_new ObjectiveSense.MIN))))
    as [r'| | |] eqn:Hr; [|vm_compute in Hr; discriminate Hr..].
  exists r'. split; [reflexivity|].
  destruct (processsections_grows _ r' Hr) as ((_ & _ & _ & Hvars) & _).
  apply Hvars. vm_compute. eexists. reflexivity.
Defined.

(** ** The sections that list variables *)

Section Listed.

Implicit Types (toks : list ProcessedToken) (b : Builder) (names : list string).

Lemma kind_entry_gen b name name' :
  kind (entry gensec_body b name) name'
  = if decide (name = name') then gen_rule (kind b name') else kind b name'.
Proof.
  unfold kind, entry. case_decide as Hn.
  - subst name'. rewrite update_var_lookup, getvarbyname_lookup.
    destruct (variables b !! name) as [v|]; simpl;
      unfold gensec_body, gen_rule; by repeat case_decide.
  - by rewrite update_var_lookup_ne, getvarbyname_lookup_ne.
Qed.

Lemma kind_entries_gen names : ∀ b name,
  kind (foldl (entry gensec_body) b names) name
  = Nat.iter (listings names name) gen_rule (kind b name).
Proof.
  induction names as [|n names IH]; intros b name; [done|].
  cbn [foldl]. rewrite IH, kind_entry_gen. unfold listings.
  rewrite filter_cons. case_decide; [|done].
  cbn [length]. by rewrite Nat.iter_succ_r.
Qed.

Lemma bounds_entries body names :
  (∀ v, Var.lowerbound (body v) = Var.lowerbound v
        ∧ Var.upperbound (body v) = Var.upperbound v) →
  ∀ b name, bounds (foldl (entry body) b names) name = bounds b name.
Proof.
  intros Hbody. induction names as [|n names IH]; intros b name; [done|].
  cbn [foldl]. rewrite IH. unfold entry.
  by rewrite bounds_update_var, bounds_getvarbyname.
Qed.

(** A variable a section lists ends up as the section's assignment
    leaves any variable, when assigning twice is as good as once. *)
Lemma entries_lookup_listed body (P : Var.t → Prop) names :
  (∀ v, P (body v)) →
  ∀ b name, name ∈ names →
    ∃ v, variables (foldl (entry body) b names) !! name = Some v ∧ P v.
Proof.
  intros Hbody. induction names as [|n names IH]; intros b name Hin.
  { by apply elem_of_nil in Hin. }
  cbn [foldl]. destruct (decide (name ∈ names)) as [Hin'|Hnot]; [by apply IH|].
  apply elem_of_cons in Hin as [->|?]; [|done].
  rewrite entries_lookup_other by done. unfold entry.
  rewrite update_var_lookup.
  destruct (getvarbyname_is_Some n b) as [v Hv]. rewrite Hv. simpl. eauto.
Qed.

(** A token that is no variable name stops a section that lists
    variables. *)
Lemma varsec_loop_rejects body names : ∀ fuel toks (begin_ end_ : nat) b t,
  holds_at toks begin_ (TokVARID <$> names) →
  toks !! (length names + begin_) = Some t → ptype t ≠ ProcessedTokenType.VARID →
  length names + begin_ < end_ → length names < fuel →
  varsec_loop fuel toks begin_ end_ body b = Throw UnknownToken.
Proof.
  induction names as [|name names IH]; intros [|fuel] toks begin_ end_ b t Htoks Ht Hty Hend Hfuel;
    cbn [length] in *; try lia; cbn [varsec_loop].
  { cbn [Nat.add] in *. by run. }
  pose proof (Htoks 0 _ eq_refl) as Htok. cbn [Nat.add] in Htok.
  pose proof (holds_at_app_r toks begin_ [TokVARID name] (fmap (M:=list) TokVARID names) Htoks) as Hrest.
  cbn [length Nat.add] in Hrest.
  run. apply (IH fuel toks (S begin_) end_ _ t); [done| |done|lia|lia].
  by replace (length names + S begin_) with (S (length names + begin_)) by lia.
Qed.

End Listed.

(** X22.  The binary section makes every variable it lists binary with the
    bounds 0 and 1, whatever kind and bounds the variable had, and leaves the
    other variables as they are. *)
Theorem processbinsec_binary (r : Reader) (names : list string) (begin_ : nat) :
  sectiontokens r !! LpSectionKeyword.BIN = Some (begin_, length names + begin_) →
  holds_at (processedtokens r) begin_ (TokVARID <$> names) →
  ∃ r', processbinsec r = Ok r'
    ∧ (∀ name, name ∈ names →
         ∃ v, variables (builder r') !! name = Some v
            ∧ Var.type v = VariableType.BINARY
            ∧ Var.lowerbound v = d0 ∧ Var.upperbound v = d1)
    ∧ (∀ name, name ∉ names →
         variables (builder r') !! name = variables (builder r) !! name).
Proof.
  intros Hbin Htoks. unfold processbinsec.
  rewrite (has_section_Some _ _ _ Hbin). cbn [negb].
  unfold varsec. rewrite (at_key_Some _ _ _ Hbin).
  pose proof (holds_at_length _ _ _ Htoks) as Hlen. rewrite length_fmap in Hlen.
  rewrite varsec_loop_names by (done || lia). cbn [bind].
  eexists. split; [done|]. cbn [builder with_builder]. split.
  - intros name Hin. by apply (entries_lookup_listed binsec_body).
  - intros name Hin. by apply entries_lookup_other.
Qed.

Lemma processbinsec_binary_witness :
  ∃ r', processbinsec
          (reader_with [TokSECID LpSectionKeyword.BIN; TokVARID "x"; TokVARID "y"]
             {[ LpSectionKeyword.BIN := (1, 3) ]}
             (entry gensec_body (Builder_new ObjectiveSense.MIN) "x")) = Ok r'
    ∧ kind (builder r') "x" = VariableType.BINARY
    ∧ bounds (builder r') "y" = (d0, d1).
Proof.
  destruct (processbinsec_binary
              (reader_with [TokSECID LpSectionKeyword.BIN; TokVARID "x"; TokVARID "y"]
                 {[ LpSectionKeyword.BIN := (1, 3) ]}
                 (entry gensec_body (Builder_new ObjectiveSense.MIN) "x"))
              ["x"; "y"] 1) as (r' & Hr & Hin & _).
  - done.
  - by apply holds_at_take_drop.
  - exists r'. split; [exact Hr|]. split.
    + destruct (Hin "x") as (v & Hv & Hty & _); [set_solver|].
      unfold kind. by rewrite Hv.
    + destruct (Hin "y") as (v & Hv & _ & Hlb & Hub); [set_solver|].
      unfold bounds. rewrite Hv. cbn. by rewrite Hlb, Hub.
Defined.

(** X23.  The integer section: each listing makes a semicontinuous variable
    semi-integer and any other variable general-integer; bounds stay, and so
    do the variables not listed. *)
Theorem processgensec_kinds (r : Reader) (names : list string) (begin_ : nat) :
  sectiontokens r !! LpSectionKeyword.GEN = Some (begin_, length names + begin_) →
  holds_at (processedtokens r) begin_ (TokVARID <$> names) →
  ∃ r', processgensec r = Ok r'
    ∧ (∀ name, kind (builder r') name
               = Nat.iter (listings names name) gen_rule (kind (builder r) name))
    ∧ (∀ name, name ∈ names → is_Some (variables (builder r') !! name))
    ∧ (∀ name, name ∉ names →
         variables (builder r') !! name = variables (builder r) !! name)
    ∧ (∀ name, bounds (builder r') name = bounds (builder r) name).
Proof.
  intros Hgen Htoks. unfold processgensec.
  rewrite (has_section_Some _ _ _ Hgen). cbn [negb].
  unfold varsec. rewrite (at_key_Some _ _ _ Hgen).
  pose proof (holds_at_length _ _ _ Htoks) as Hlen. rewrite length_fmap in Hlen.
  rewrite varsec_loop_names by (done || lia). cbn [bind].
  eexists. split; [done|]. cbn [builder with_builder]. split_and!.
  - intros name. apply kind_entries_gen.
  - intros name Hin. apply entries_registered. by left.
  - intros name Hin. by apply entries_lookup_other.
  - intros name. apply bounds_entries. intros v. unfold gensec_body. by case_decide.
Qed.

Lemma processgensec_kinds_witness :
  ∃ r', processgensec
          (reader_with [TokSECID LpSectionKeyword.GEN; TokVARID "x"; TokVARID "y";
                        TokVARID "x"]
             {[ LpSectionKeyword.GEN := (1, 4) ]}
             (entry semisec_body (Builder_new ObjectiveSense.MIN) "x")) = Ok r'
    ∧ kind (builder r') "x" = VariableType.GENERAL
    ∧ kind (builder r') "y" = VariableType.GENERAL.
Proof.
  destruct (processgensec_kinds
              (reader_with [TokSECID LpSectionKeyword.GEN; TokVARID "x"; TokVARID "y";
                            TokVARID "x"]
                 {[ LpSectionKeyword.GEN := (1, 4) ]}
                 (entry semisec_body (Builder_new ObjectiveSense.MIN) "x"))
              ["x"; "y"; "x"] 1) as (r' & Hr & Hkind & _).
  - done.
  - by apply holds_at_take_drop.
  - exists r'. split; [exact Hr|]. by rewrite !Hkind.
Defined.

(** X24.  In the binary, the integer and the semicontinuous section anything
    but a variable name is an error. *)
Theorem listing_rejects_other_tokens (r : Reader) (names : list string)
    (begin_ end_ : nat) (t : ProcessedToken) :
  holds_at (processedtokens r) begin_ (TokVARID <$> names) →
  processedtokens r !! (length names + begin_) = Some t →
  ptype t ≠ ProcessedTokenType.VARID →
  length names + begin_ < end_ →
  (sectiontokens r !! LpSectionKeyword.BIN = Some (begin_, end_) →
   processbinsec r = Throw UnknownToken)
  ∧ (sectiontokens r !! LpSectionKeyword.GEN = Some (begin_, end_) →
     processgensec r = Throw UnknownToken)
  ∧ (sectiontokens r !! LpSectionKeyword.SEMI = Some (begin_, end_) →
     is_Some (sectiontokens r !! LpSectionKeyword.GEN) →
     processsemisec r = Throw UnknownToken).
Proof.
  intros Htoks Ht Hty Hend.
  apply lookup_lt_Some in Ht as Hlt.
  assert (Hloop : ∀ body,
    varsec_loop (S (length (processedtokens r) - begin_)) (processedtokens r)
      begin_ end_ body (builder r) = Throw UnknownToken).
  { intros body. apply (varsec_loop_rejects body names _ _ _ _ _ t); [done..|lia]. }
  split_and!.
  - intros Hk. unfold processbinsec, varsec.
    by rewrite (has_section_Some _ _ _ Hk), (at_key_Some _ _ _ Hk), Hloop.
  - intros Hk. unfold processgensec, varsec.
    by rewrite (has_section_Some _ _ _ Hk), (at_key_Some _ _ _ Hk), Hloop.
  - intros Hk [p Hg]. unfold processsemisec, varsec.
    by rewrite (has_section_Some _ _ _ Hg), (at_key_Some _ _ _ Hk), Hloop.
Qed.

Lemma listing_rejects_other_tokens_witness :
  processbinsec
    (reader_with [TokSECID LpSectionKeyword.BIN; TokVARID "x"; TokCONST d3]
       {[ LpSectionKeyword.BIN := (1, 3) ]} (Builder_new ObjectiveSense.MIN))
  = Throw UnknownToken.
Proof.
  apply (listing_rejects_other_tokens
           (reader_with [TokSECID LpSectionKeyword.BIN; TokVARID "x"; TokCONST d3]
              {[ LpSectionKeyword.BIN := (1, 3) ]} (Builder_new ObjectiveSense.MIN))
           ["x"] 1 3 (TokCONST d3)).
  - by apply holds_at_take_drop.
  - reflexivity.
  - discriminate.
  - cbn. lia.
  - done.
Defined.



(** ** Linear expressions *)

Section Linear.

Implicit Types (toks : list ProcessedToken) (b : Builder) (fuel it : nat)
  (expr : Expression.t) (isobj : bool) (terms : list term).

(** var *)
Lemma expression_var fuel toks it (end_ : nat) expr isobj b name :
  it ≠ end_ → toks !! it = Some (TokVARID name) →
  expression_loop (S fuel) toks it end_ expr isobj b
  = expression_loop fuel toks (S it) end_
      (Expression.push_linterm (linterm d1 name) expr) isobj (getvarbyname name b).
Proof.
  intros Hne Htok. cbn [expression_loop]. run.
  rewrite ?differs_and_false. run. done.
Qed.

Lemma linear_tokens_cons t terms :
  linear_tokens (t :: terms) = term_tokens t ++ linear_tokens terms.
Proof. done. Qed.

Lemma expression_loop_linear terms : ∀ fuel toks it (end_ : nat) expr isobj b,
  holds_at toks it (linear_tokens terms) →
  length (linear_tokens terms) + it ≤ end_ →
  expression_loop (length terms + fuel) toks it end_ expr isobj b
  = expression_loop fuel toks (length (linear_tokens terms) + it) end_
      (add_terms terms expr) isobj (register terms b).
Proof.
  induction terms as [|[[coef|] name] terms IH]; intros fuel toks it end_ expr isobj b Htoks Hend;
    [done|..]; rewrite linear_tokens_cons in *; rewrite length_app in *;
    pose proof (holds_at_app_l _ _ _ _ Htoks) as Hhead;
    pose proof (holds_at_app_r _ _ _ _ Htoks) as Hrest;
    cbn [length Nat.add term_tokens fst snd] in *.
  - rewrite (expression_const_var _ _ _ _ _ _ _ coef name) by (lia || done).
    rewrite IH by (done || lia). unfold add_terms, register. cbn [foldl].
    do 2 f_equal. lia.
  - rewrite (expression_var _ _ _ _ _ _ _ name) by (lia || apply (Hhead 0); done).
    rewrite IH by (done || lia). unfold add_terms, register. cbn [foldl].
    do 2 f_equal. lia.
Qed.

End Linear.

(** ** The rows of the constraints section *)

Section Rows.

Implicit Types (toks : list ProcessedToken) (b : Builder) (fuel it : nat)
  (expr : Expression.t) (isobj : bool) (terms : list term) (rows : list row).

Lemma length_linear_tokens terms : length terms ≤ length (linear_tokens terms).
Proof.
  induction terms as [|[[coef|] name] terms IH]; [done|..];
    rewrite linear_tokens_cons, length_app; cbn [length term_tokens fst]; lia.
Qed.

Lemma expression_loop_terms terms fuel toks it (end_ : nat) expr isobj b :
  holds_at toks it (linear_tokens terms) →
  ends_at toks (length (linear_tokens terms) + it) end_ →
  length terms < fuel →
  expression_loop fuel toks it end_ expr isobj b
  = Ok (length (linear_tokens terms) + it, add_terms terms expr, register terms b).
Proof.
  intros Htoks Hend Hfuel.
  replace fuel with (length terms + S (fuel - length terms - 1)) by lia.
  rewrite expression_loop_linear; [|done|destruct Hend as [?|[? _]]; lia].
  destruct Hend as [<-|(Hlt & dir & Hdir)].
  - apply expression_end.
  - by rewrite (expression_stop _ _ _ _ _ _ _ (TokCOMP dir)) by (lia || done).
Qed.

Lemma parseexpression_linear toks it (end_ : nat) label terms expr isobj b :
  holds_at toks it (label_tokens label ++ linear_tokens terms) →
  ends_at toks (length (label_tokens label ++ linear_tokens terms) + it) end_ →
  parseexpression toks it end_ expr isobj b
  = Ok (length (label_tokens label ++ linear_tokens terms) + it,
        add_terms terms (set_label label expr), register terms b).
Proof.
  intros Htoks Hend.
  pose proof (holds_at_length _ _ _ Htoks) as Hlen.
  pose proof (length_linear_tokens terms) as Hterms.
  destruct label as [name|]; cbn [label_tokens set_label app] in *.
  - pose proof (Htoks 0 _ eq_refl) as Hname. cbn [Nat.add] in Hname.
    pose proof (holds_at_app_r _ _ [TokCONID name] _ Htoks) as Hrest.
    cbn [length Nat.add] in *.
    assert (it ≠ end_) by (destruct Hend as [?|[? _]]; lia).
    unfold parseexpression. run.
    rewrite (expression_loop_terms terms); [|done| |lia].
    + do 3 f_equal. lia.
    + by replace (length (linear_tokens terms) + S it)
        with (S (length (linear_tokens terms) + it)) by lia.
  - destruct terms as [|t terms].
    { cbn [linear_tokens mbind list_bind length Nat.add] in *.
      destruct Hend as [<-|(Hlt & dir & Hdir)].
      - unfold parseexpression. run. by rewrite expression_end.
      - rewrite (parseexpression_unnamed _ _ _ _ _ _ (TokCOMP dir)) by (lia || done).
        by rewrite (expression_stop _ _ _ _ _ _ _ (TokCOMP dir)) by (lia || done). }
    assert (∃ t0, toks !! it = Some t0 ∧ ptype t0 ≠ ProcessedTokenType.CONID)
      as (t0 & Ht0 & Hty).
    { destruct t as [[coef|] name]; eexists; (split; [apply (Htoks 0); done|done]). }
    assert (it ≠ end_).
    { rewrite linear_tokens_cons, length_app in Hend.
      destruct t as [[coef|] name]; cbn [term_tokens fst length] in Hend;
        destruct Hend as [?|[? _]]; lia. }
    rewrite (parseexpression_unnamed _ _ _ _ _ _ t0) by done.
    rewrite (expression_loop_terms (t :: terms)); [done..|].
    cbn [length] in *. lia.
Qed.

(** One turn of the loop of [processconsec] on a row. *)
Lemma consec_row fuel toks it (end_ : nat) b (c : row) :
  holds_at toks it (row_tokens c) → length (row_tokens c) + it ≤ end_ →
  consec_loop (S fuel) toks it end_ b
  = match row_dir c with
    | LpComparisonType.L | LpComparisonType.G => Throw MalformedExpression
    | _ => consec_loop fuel toks (length (row_tokens c) + it) end_ (add_row b c)
    end.
Proof.
  intros Htoks Hend. unfold row_tokens in *. rewrite app_assoc in *.
  set (head := label_tokens (row_label c) ++ linear_tokens (row_terms c)) in *.
  pose proof (holds_at_app_l _ _ _ _ Htoks) as Hhead.
  pose proof (holds_at_app_r _ _ _ _ Htoks) as Htail.
  rewrite length_app in *. cbn [length] in *.
  pose proof (Htail 0 _ eq_refl) as Hdir. pose proof (Htail 1 _ eq_refl) as Hrhs.
  cbn [Nat.add] in Hdir, Hrhs.
  assert (Hexpr : parseexpression toks it end_ Expression.new false b
                  = Ok (length head + it, row_expr c, register (row_terms c) b)).
  { subst head. apply parseexpression_linear; [done|]. right. split; [lia|].
    by exists (row_dir c). }
  cbn [consec_loop Constraint.expr Constraint.new]. run.
  rewrite Hexpr. run.
  replace (length head + 2 + it) with (S (S (length head + it))) by lia.
  unfold add_row, row_constraint.
  destruct (row_dir c); run; done.
Qed.

Lemma consec_rows rows : ∀ fuel toks it (end_ : nat) b,
  Forall (λ c, weak (row_dir c)) rows →
  holds_at toks it (rows ≫= row_tokens) →
  length (rows ≫= row_tokens) + it ≤ end_ →
  consec_loop (length rows + fuel) toks it end_ b
  = consec_loop fuel toks (length (rows ≫= row_tokens) + it) end_
      (foldl add_row b rows).
Proof.
  induction rows as [|c rows IH]; intros fuel toks it end_ b Hweak Htoks Hend; [done|].
  apply Forall_cons in Hweak as [Hc Hweak].
  change ((c :: rows) ≫= row_tokens) with (row_tokens c ++ (rows ≫= row_tokens)) in *.
  rewrite length_app in *.
  pose proof (holds_at_app_l _ _ _ _ Htoks) as Hhead.
  pose proof (holds_at_app_r _ _ _ _ Htoks) as Hrest.
  cbn [length Nat.add foldl].
  rewrite (consec_row _ _ _ _ _ c) by (done || lia).
  destruct Hc as [-> | [-> | ->]]; (rewrite IH by (done || lia); f_equal; lia).
Qed.

Lemma constraints_register terms : ∀ b,
  Model.constraints (model (register terms b)) = Model.constraints (model b).
Proof.
  induction terms as [|t terms IH]; intros b; [done|].
  unfold register in *. cbn [foldl]. by rewrite IH, getvarbyname_constraints.
Qed.

Lemma constraints_rows rows : ∀ b,
  Model.constraints (model (foldl add_row b rows))
  = Model.constraints (model b) ++ (row_constraint <$> rows).
Proof.
  induction rows as [|c rows IH]; intros b; cbn [foldl fmap list_fmap].
  { by rewrite app_nil_r. }
  rewrite IH. unfold add_row, update_model, push_constraint.
  cbn [model Model.constraints]. rewrite constraints_register.
  by rewrite <-app_assoc.
Qed.

End Rows.

(** X19.  A constraints section made of rows, each a label or none, linear
    terms, one of [<=], [=], [>=] and a constant: [processconsec] appends the
    constraints of the rows in their order. *)
Theorem processconsec_rows (r : Reader) (begin_ : nat) (rows : list row) :
  Forall (λ c, weak (row_dir c)) rows →
  sectiontokens r !! LpSectionKeyword.CON
  = Some (begin_, length (rows ≫= row_tokens) + begin_) →
  holds_at (processedtokens r) begin_ (rows ≫= row_tokens) →
  ∃ r', processconsec r = Ok r'
    ∧ builder r' = foldl add_row (builder r) rows
    ∧ Model.constraints (model (builder r'))
      = Model.constraints (model (builder r)) ++ (row_constraint <$> rows).
Proof.
  intros Hweak Hsec Htoks.
  pose proof (holds_at_length _ _ _ Htoks) as Hlen.
  assert (Hrows : 2 * length rows ≤ length (rows ≫= row_tokens)).
  { clear. induction rows as [|c rows IH]; [done|].
    change ((c :: rows) ≫= row_tokens) with (row_tokens c ++ (rows ≫= row_tokens)).
    unfold row_tokens at 1. rewrite !length_app. cbn [length]. lia. }
  rewrite (processconsec_on _ _ _ Hsec).
  replace (S (length (processedtokens r) - begin_))
    with (length rows + S (length (processedtokens r) - begin_ - length rows)) by lia.
  rewrite consec_rows by (done || lia). rewrite consec_end. cbn [bind].
  eexists. split; [done|]. cbn [builder with_builder]. split; [done|].
  apply constraints_rows.
Qed.

Lemma processconsec_rows_witness :
  ∃ r', processconsec
          (reader_with (TokSECID LpSectionKeyword.CON :: (two_rows ≫= row_tokens))
             {[ LpSectionKeyword.CON := (1, 10) ]} (Builder_new ObjectiveSense.MIN)) = Ok r'
    ∧ Model.constraints (model (builder r')) = row_constraint <$> two_rows.
Proof.
  destruct (processconsec_rows
              (reader_with (TokSECID LpSectionKeyword.CON :: (two_rows ≫= row_tokens))
                 {[ LpSectionKeyword.CON := (1, 10) ]} (Builder_new ObjectiveSense.MIN))
              1 two_rows) as (r' & Hr & _ & Hcons).
  - constructor; [by left|]. constructor; [by right; right|]. constructor.
  - reflexivity.
  - by apply holds_at_take_drop.
  - exists r'. split; [exact Hr|]. exact Hcons.
Defined.

(** X20.  A row written with [<] or [>] is an error. *)
Theorem processconsec_strict (r : Reader) (begin_ end_ : nat) (c : row) :
  row_dir c = LpComparisonType.L ∨ row_dir c = LpComparisonType.G →
  sectiontokens r !! LpSectionKeyword.CON = Some (begin_, end_) →
  holds_at (processedtokens r) begin_ (row_tokens c) →
  length (row_tokens c) + begin_ ≤ end_ →
  processconsec r = Throw MalformedExpression.
Proof.
  intros Hdir Hsec Htoks Hend.
  rewrite (processconsec_on _ _ _ Hsec).
  rewrite (consec_row _ _ _ _ _ c) by done.
  by destruct Hdir as [-> | ->].
Qed.

Lemma processconsec_strict_witness :
  processconsec
    (reader_with [TokSECID LpSectionKeyword.CON; TokVARID "x"; TokCOMP LpComparisonType.L;
                  TokCONST d7]
       {[ LpSectionKeyword.CON := (1, 4) ]} (Builder_new ObjectiveSense.MIN))
  = Throw MalformedExpression.
Proof.
  apply (processconsec_strict
           (reader_with [TokSECID LpSectionKeyword.CON; TokVARID "x";
                         TokCOMP LpComparisonType.L; TokCONST d7]
              {[ LpSectionKeyword.CON := (1, 4) ]} (Builder_new ObjectiveSense.MIN))
           1 4
           {| row_label := None; row_terms := [(None, "x")];
              row_dir := LpComparisonType.L; row_rhs := d7 |}).
  - by left.
  - reflexivity.
  - by apply holds_at_take_drop.
  - cbn. lia.
Defined.

(** ** The objective section *)

Lemma processobjsec_on (r : Reader) k (begin_ end_ : nat) :
  objective_section r k → sectiontokens r !! k = Some (begin_, end_) →
  processobjsec r
  = (let* (it, expr, b) :=
       parseexpression (processedtokens r) begin_ end_ Expression.new true
         (update_model (set_sense (sense_of k))
            (update_model (set_objective Expression.new) (builder r))) in
     let* _ := lpassert MalformedExpression (bool_decide (it = end_)) in
     Ok (with_builder (update_model (set_objective expr) b)
           (with_sectiontokens (set_first k it (sectiontokens r)) r))).
Proof.
  intros [->|[-> Hmin]] Hsec; unfold processobjsec.
  - unfold has_section at 1. cbn [sectiontokens with_builder].
    unfold count. rewrite Hsec. cbn [bool_decide decide_rel].
    unfold objsec. cbn [sectiontokens with_builder builder processedtokens].
    by rewrite (at_key_Some _ _ _ Hsec).
  - unfold has_section. cbn [sectiontokens with_builder].
    unfold count. rewrite Hmin, Hsec.
    unfold objsec. cbn [sectiontokens with_builder builder processedtokens].
    by rewrite (at_key_Some _ _ _ Hsec).
Qed.

Lemma add_terms_fields (terms : list term) (expr : Expression.t) :
  Expression.linterms (add_terms terms expr)
  = Expression.linterms expr ++ (term_of <$> terms)
  ∧ Expression.quadterms (add_terms terms expr) = Expression.quadterms expr
  ∧ Expression.offset (add_terms terms expr) = Expression.offset expr
  ∧ Expression.name (add_terms terms expr) = Expression.name expr.
Proof.
  revert expr. induction terms as [|t terms IH]; intros expr.
  { split_and!; [|done..]. by rewrite app_nil_r. }
  unfold add_terms in *. cbn [foldl].
  destruct (IH (Expression.push_linterm (term_of t) expr)) as (-> & -> & -> & ->).
  split_and!; [|done..]. cbn [Expression.linterms Expression.push_linterm fmap list_fmap].
  by rewrite <- app_assoc.
Qed.

(** X16.  An objective section that holds a label or none and linear terms:
    the objective has the label for its name, one linear term for each term
    written, in their order, with the coefficient written or 1.0 where none
    is, no quadratic term and offset 0; the sense is that of the section; when
    both a minimize and a maximize section are there, the minimize section is
    read and the maximize section is left aside. *)
Theorem processobjsec_linear (r : Reader) (k : LpSectionKeyword.t) (begin_ : nat)
    (label : option string) (terms : list term) :
  objective_section r k →
  sectiontokens r !! k
  = Some (begin_, length (label_tokens label ++ linear_tokens terms) + begin_) →
  holds_at (processedtokens r) begin_ (label_tokens label ++ linear_tokens terms) →
  ∃ r' obj, processobjsec r = Ok r'
    ∧ Model.objective (model (builder r')) = Some obj
    ∧ Expression.linterms obj
      = (λ t : term, {| LinTerm.coef := default d1 t.1; LinTerm.var := t.2 |}) <$> terms
    ∧ Expression.quadterms obj = []
    ∧ Expression.offset obj = d0
    ∧ Expression.name obj = default EmptyString label
    ∧ Model.sense (model (builder r')) = sense_of k
    ∧ Model.constraints (model (builder r')) = Model.constraints (model (builder r))
    ∧ (∀ name, is_Some (variables (builder r') !! name)
               ↔ name ∈ terms.*2 ∨ is_Some (variables (builder r) !! name))
    ∧ (∀ k', k' ≠ k → sectiontokens r' !! k' = sectiontokens r !! k').
Proof.
  intros Hk Hsec Htoks.
  rewrite (processobjsec_on _ _ _ _ Hk Hsec).
  rewrite (parseexpression_linear _ _ _ label terms) by (done || by left).
  cbn [bind]. rewrite bool_decide_eq_true_2 by done. cbn [lpassert bind].
  eexists _, (add_terms terms (set_label label Expression.new)). split; [done|].
  cbn [builder with_builder sectiontokens with_sectiontokens].
  assert (Hreg : ∀ b, Model.sense (model (register terms b)) = Model.sense (model b)
                      ∧ Model.constraints (model (register terms b))
                        = Model.constraints (model b)
                      ∧ ∀ name, is_Some (variables (register terms b) !! name)
                                ↔ name ∈ terms.*2 ∨ is_Some (variables b !! name)).
  { clear. induction terms as [|t terms IH]; intros b.
    { split_and!; [done..|]. intros name. rewrite fmap_nil, elem_of_nil. naive_solver. }
    unfold register in *. cbn [foldl].
    destruct (IH (getvarbyname t.2 b)) as (-> & -> & Hin).
    rewrite getvarbyname_sense, getvarbyname_constraints. split_and!; [done..|].
    intros name. rewrite Hin, fmap_cons, elem_of_cons.
    destruct (decide (t.2 = name)) as [<-|Hne].
    - pose proof (getvarbyname_is_Some t.2 b). naive_solver.
    - rewrite getvarbyname_lookup_ne by done. naive_solver. }
  destruct (Hreg (update_model (set_sense (sense_of k))
                    (update_model (set_objective Expression.new) (builder r))))
    as (Hsense & Hcons & Hin).
  unfold update_model in *.
  cbn [model variables Model.objective Model.sense Model.constraints set_objective
       set_sense] in *.
  destruct (add_terms_fields terms (set_label label Expression.new))
    as (Hlin & Hquad & Hoff & Hname).
  split_and!; [done|by rewrite Hlin; destruct label|by rewrite Hquad; destruct label
              |by rewrite Hoff; destruct label|by rewrite Hname; destruct label
              |by rewrite Hsense|by rewrite Hcons|done|].
  intros k' Hne. unfold set_first. by rewrite lookup_insert_ne.
Qed.

Lemma processobjsec_linear_witness :
  ∃ r', processobjsec
          (reader_with [TokSECID LpSectionKeyword.OBJMAX; TokCONID "obj"; TokCONST d2;
                        TokVARID "x"; TokVARID "y"]
             {[ LpSectionKeyword.OBJMAX := (1, 5) ]} (Builder_new ObjectiveSense.MIN)) = Ok r'
    ∧ Model.objective (model (builder r'))
      = Some {| Expression.linterms := [{| LinTerm.coef := d2; LinTerm.var := "x" |};
                                        {| LinTerm.coef := d1; LinTerm.var := "y" |}];
                Expression.quadterms := []; Expression.offset := d0;
                Expression.name := "obj" |}
    ∧ Model.sense (model (builder r')) = ObjectiveSense.MAX.
Proof.
  destruct (processobjsec_linear
              (reader_with [TokSECID LpSectionKeyword.OBJMAX; TokCONID "obj"; TokCONST d2;
                            TokVARID "x"; TokVARID "y"]
                 {[ LpSectionKeyword.OBJMAX := (1, 5) ]} (Builder_new ObjectiveSense.MIN))
              LpSectionKeyword.OBJMAX 1 (Some "obj") [(Some d2, "x"); (None, "y")])
    as (r' & obj & Hr & Hobj & Hlin & Hquad & Hoff & Hname & Hsense & _).
  - right. split; reflexivity.
  - reflexivity.
  - by apply holds_at_take_drop.
  - exists r'. split; [exact Hr|]. split; [|exact Hsense].
    rewrite Hobj. destruct obj. cbn in Hlin, Hquad, Hoff, Hname.
    by rewrite Hlin, Hquad, Hoff, Hname.
Defined.

(** X17.  An objective that is followed by a comparison is an error: not all
    tokens of the section have been read. *)
Theorem processobjsec_rest (r : Reader) (k : LpSectionKeyword.t) (begin_ end_ : nat)
    (label : option string) (terms : list term) (dir : LpComparisonType.t) :
  objective_section r k →
  sectiontokens r !! k = Some (begin_, end_) →
  holds_at (processedtokens r) begin_
    (label_tokens label ++ linear_tokens terms ++ [TokCOMP dir]) →
  length (label_tokens label ++ linear_tokens terms) + begin_ < end_ →
  processobjsec r = Throw MalformedExpression.
Proof.
  intros Hk Hsec Htoks Hend. rewrite app_assoc in Htoks.
  pose proof (holds_at_app_l _ _ _ _ Htoks) as Hhead.
  pose proof (holds_at_app_r _ _ _ _ Htoks) as Htail.
  rewrite (processobjsec_on _ _ _ _ Hk Hsec).
  rewrite (parseexpression_linear _ _ _ label terms); [|done|].
  - cbn [bind]. rewrite bool_decide_eq_false_2 by lia. done.
  - right. split; [done|]. exists dir. apply (Htail 0). done.
Qed.

Lemma processobjsec_rest_witness :
  processobjsec
    (reader_with [TokSECID LpSectionKeyword.OBJMIN; TokVARID "x";
                  TokCOMP LpComparisonType.LEQ; TokCONST d7]
       {[ LpSectionKeyword.OBJMIN := (1, 4) ]} (Builder_new ObjectiveSense.MIN))
  = Throw MalformedExpression.
Proof.
  apply (processobjsec_rest
           (reader_with [TokSECID LpSectionKeyword.OBJMIN; TokVARID "x";
                         TokCOMP LpComparisonType.LEQ; TokCONST d7]
              {[ LpSectionKeyword.OBJMIN := (1, 4) ]} (Builder_new ObjectiveSense.MIN))
           LpSectionKeyword.OBJMIN 1 4 None [(None, "x")] LpComparisonType.LEQ).
  - by left.
  - reflexivity.
  - intros i t Hi. destruct i as [|[|i]]; try done; by injection Hi as <-.
  - cbn. lia.
Defined.

(** ** The section of special ordered sets *)

Section Sets.

Implicit Types (toks : list ProcessedToken) (b : Builder) (fuel it : nat)
  (entries acc : list (string * double)).

Lemma length_entries entries : length (entries ≫= entry_tokens) = 2 * length entries.
Proof.
  induction entries as [|e entries IH]; [done|].
  change ((e :: entries) ≫= entry_tokens) with (entry_tokens e ++ (entries ≫= entry_tokens)).
  rewrite length_app. cbn [length entry_tokens]. lia.
Qed.

Lemma sos_entries_list entries : ∀ fuel toks it (end_ : nat) acc b,
  holds_at toks it (entries ≫= entry_tokens) →
  2 * length entries + it ≤ end_ →
  sos_entries (length entries + fuel) toks it end_ acc b
  = sos_entries fuel toks (2 * length entries + it) end_ (acc ++ entries)
      (register_entries entries b).
Proof.
  induction entries as [|[name weight] entries IH]; intros fuel toks it end_ acc b Htoks Hend.
  { by rewrite app_nil_r. }
  change (((name, weight) :: entries) ≫= entry_tokens)
    with (entry_tokens (name, weight) ++ (entries ≫= entry_tokens)) in *.
  pose proof (holds_at_app_l _ _ _ _ Htoks) as Hhead.
  pose proof (holds_at_app_r _ _ _ _ Htoks) as Hrest.
  cbn [length Nat.add entry_tokens fst snd] in *.
  rewrite (sos_entries_entry _ _ _ _ _ _ name weight) by (lia || done).
  rewrite IH by (done || lia). unfold register_entries. cbn [foldl fst].
  rewrite <-app_assoc. f_equal. lia.
Qed.


Lemma soss_register entries : ∀ b,
  Model.soss (model (register_entries entries b)) = Model.soss (model b).
Proof.
  induction entries as [|e entries IH]; intros b; [done|].
  unfold register_entries in *. cbn [foldl]. by rewrite IH, getvarbyname_soss.
Qed.

End Sets.

(** X26.  A section that holds one special ordered set, with any number of
    entries: [processsossec] appends the set, of type 1 for S1 and 2 for S2,
    its entries in their order, and registers their variables. *)
Theorem processsossec_set (r : Reader) (begin_ : nat) (name : string)
    (sostype : SosType.t) (entries : list (string * double)) :
  sectiontokens r !! LpSectionKeyword.SOS
  = Some (begin_, length (set_tokens name sostype entries) + begin_) →
  holds_at (processedtokens r) begin_ (set_tokens name sostype entries) →
  ∃ r', processsossec r = Ok r'
    ∧ builder r'
      = update_model (push_sos (set_of name sostype entries))
          (register_entries entries (builder r))
    ∧ Model.soss (model (builder r'))
      = Model.soss (model (builder r)) ++ [set_of name sostype entries].
Proof.
  intros Hsec Htoks. unfold set_tokens in *.
  pose proof (holds_at_app_l _ _ _ _ Htoks) as Hhead.
  pose proof (holds_at_app_r _ _ _ _ Htoks) as Hrest.
  pose proof (holds_at_length _ _ _ Htoks) as Hlen.
  rewrite length_app, length_entries in *. cbn [length Nat.add] in *.
  rewrite (processsossec_on _ _ _ Hsec).
  assert (Hent : sos_entries (S (length (processedtokens r) - (2 + begin_)))
                   (processedtokens r) (2 + begin_)
                   (S (S (2 * length entries + begin_))) [] (builder r)
                 = Ok (S (S (2 * length entries + begin_)), entries,
                       register_entries entries (builder r))).
  { replace (S (length (processedtokens r) - (2 + begin_)))
      with (length entries + S (length (processedtokens r) - (2 + begin_) - length entries))
      by lia.
    rewrite sos_entries_list by (done || lia). cbn [app].
    replace (2 * length entries + (2 + begin_))
      with (S (S (2 * length entries + begin_))) by lia.
    apply sos_entries_end. }
  rewrite (sossec_set _ _ begin_ (S (S (2 * length entries + begin_))) _ name sostype
             _ _ _ ltac:(lia) Hhead Hent).
  destruct (length (processedtokens r) - begin_) as [|fuel] eqn:Hfuel; [lia|].
  rewrite sossec_end. cbn [bind].
  eexists. split; [done|]. cbn [builder with_builder]. split; [done|].
  unfold update_model, push_sos. cbn [model Model.soss].
  by rewrite soss_register.
Qed.

Lemma processsossec_set_witness :
  ∃ r', processsossec
          (reader_with (TokSECID LpSectionKeyword.SOS
                        :: set_tokens "s" SosType.SOS2 [("x", d1); ("y", d2); ("z", d3)])
             {[ LpSectionKeyword.SOS := (1, 9) ]} (Builder_new ObjectiveSense.MIN)) = Ok r'
    ∧ Model.soss (model (builder r'))
      = [set_of "s" SosType.SOS2 [("x", d1); ("y", d2); ("z", d3)]].
Proof.
  destruct (processsossec_set
              (reader_with (TokSECID LpSectionKeyword.SOS
                            :: set_tokens "s" SosType.SOS2 [("x", d1); ("y", d2); ("z", d3)])
                 {[ LpSectionKeyword.SOS := (1, 9) ]} (Builder_new ObjectiveSense.MIN))
              1 "s" SosType.SOS2 [("x", d1); ("y", d2); ("z", d3)])
    as (r' & Hr & _ & Hsoss).
  - reflexivity.
  - by apply holds_at_take_drop.
  - exists r'. split; [exact Hr|]. exact Hsoss.
Defined.



(** ** A group that the end of the objective cuts off *)

Section Unclosed.

Implicit Types (toks : list ProcessedToken) (b : Builder) (fuel it : nat)
  (expr : Expression.t).

Lemma type_at_None toks it ty : toks !! it = None → type_at toks it ty = Undefined.
Proof. intros H. unfold type_at, deref. by rewrite H. Qed.

(** In the objective, at the end of the range: the two lookahead
    iterators have gone past the end, the check that the second is not the end
    holds, and the token at the end of the range is read. *)
Lemma close_group_at_end toks (end_ : nat) :
  close_group toks end_ end_ true
  = (let* c := type_at toks end_ ProcessedTokenType.BRKCL in
     let* _ := lpassert MalformedExpression c in
     let* c := type_at toks (S end_) ProcessedTokenType.SLASH in
     let* _ := lpassert MalformedExpression c in
     let* c := type_at toks (S (S end_)) ProcessedTokenType.CONST in
     let* _ := lpassert MalformedExpression c in
     let* v := value_at toks (S (S end_)) in
     let* _ := lpassert MalformedExpression (deqb v d2) in
     Ok (S (S (S end_)))).
Proof. unfold close_group. run. done. Qed.

(** The inner loop on  x ^ 2  at the end of the range. *)
Lemma quadratic_square_end fuel toks it expr b x :
  holds_at toks it [TokVARID x; TokHAT; TokCONST d2] →
  quadratic_loop (S (S fuel)) toks it (3 + it) expr b
  = Ok (3 + it, Expression.push_quadterm (quadterm d1 x x) expr, getvarbyname x b).
Proof.
  intros Htoks.
  rewrite (quadratic_var_hat _ _ _ _ _ _ x d2) by (lia || done).
  cbn [quadratic_loop]. run. done.
Qed.

End Unclosed.

(** X18.  In the objective, a bracketed group that the end of the section cuts
    off before its closing bracket: the check for the closing tokens lets
    iterators past the end through, and the token behind the section is read.
    When the section is the last thing in the file there is no such token, and
    the read lies outside the token vector; when two tokens or more follow the
    section, so that the iterators stay inside the vector, it is an error. *)
Theorem objective_group_unclosed (r : Reader) (k : LpSectionKeyword.t)
    (begin_ : nat) (x : string) :
  objective_section r k →
  sectiontokens r !! k = Some (begin_, 4 + begin_) →
  holds_at (processedtokens r) begin_ [TokBRKOP; TokVARID x; TokHAT; TokCONST d2] →
  (length (processedtokens r) = 4 + begin_ → processobjsec r = Undefined)
  ∧ (∀ t, 5 + begin_ < length (processedtokens r) →
          processedtokens r !! (4 + begin_) = Some t →
          ptype t ≠ ProcessedTokenType.BRKCL →
          processobjsec r = Throw MalformedExpression).
Proof.
  intros Hk Hsec Htoks.
  pose proof (holds_at_length _ _ _ Htoks) as Hlen. cbn [length] in Hlen.
  pose proof (Htoks 0 _ eq_refl) as Hopen. cbn [Nat.add] in Hopen.
  pose proof (holds_at_app_r _ _ [TokBRKOP] [_; _; _] Htoks) as Hgroup.
  cbn [length Nat.add] in Hgroup.
  rewrite (processobjsec_on _ _ _ _ Hk Hsec).
  rewrite (parseexpression_unnamed _ _ _ _ _ _ TokBRKOP) by (lia || done).
  rewrite expression_group by (lia || done).
  destruct (length (processedtokens r) - S begin_) as [|fuel] eqn:Hfuel; [lia|].
  change (4 + begin_) with (3 + S begin_).
  rewrite (quadratic_square_end _ _ _ _ _ x) by done. cbn [bind].
  rewrite close_group_at_end. split.
  - intros Hend. by rewrite type_at_None by (apply lookup_ge_None; cbn [Nat.add]; lia).
  - intros t _ Ht Hty. rewrite (type_at_Some _ _ t) by done.
    by rewrite bool_decide_eq_false_2.
Qed.

Lemma objective_group_unclosed_witness :
  processobjsec
    (reader_with [TokSECID LpSectionKeyword.OBJMIN; TokBRKOP; TokVARID "x"; TokHAT;
                  TokCONST d2]
       {[ LpSectionKeyword.OBJMIN := (1, 5) ]} (Builder_new ObjectiveSense.MIN))
  = Undefined.
Proof.
  apply (objective_group_unclosed
           (reader_with [TokSECID LpSectionKeyword.OBJMIN; TokBRKOP; TokVARID "x"; TokHAT;
                         TokCONST d2]
              {[ LpSectionKeyword.OBJMIN := (1, 5) ]} (Builder_new ObjectiveSense.MIN))
           LpSectionKeyword.OBJMIN 1 "x").
  - by left.
  - reflexivity.
  - by apply holds_at_take_drop.
  - reflexivity.
Defined.

(** ** Bounds written from either side *)

Section Entries.

Implicit Types (toks : list ProcessedToken) (b : Builder) (fuel : nat).

(** CONST comparison VAR *)
Lemma boundssec_const_comp_var fuel toks (begin_ : nat) b dir value name :
  holds_at toks begin_ [TokCONST value; TokCOMP dir; TokVARID name] →
  boundssec_loop (S fuel) toks begin_ (3 + begin_) b
  = (let* b := bound_const_comp_var dir value name (getvarbyname name b) in
     boundssec_loop fuel toks (3 + begin_) (3 + begin_) b).
Proof.
  intros Htoks. tokens_upto Htoks 3.
  cbn [boundssec_loop Nat.add]. run.
  rewrite ?differs_and_false. run.
  destruct dir; reflexivity.
Qed.

Lemma bound_const_comp_var_mirror dir value name b :
  bound_const_comp_var dir value name b = bound_var_comp_const (mirror dir) value name b.
Proof. by destruct dir. Qed.

Lemma bounds_update_lower name value b name' :
  is_Some (variables b !! name) →
  bounds (update_var name (Var.set_lowerbound value) b) name'
  = if decide (name = name') then (value, (bounds b name').2) else bounds b name'.
Proof.
  intros [v Hv]. unfold bounds. case_decide as Hn.
  - subst name'. by rewrite update_var_lookup, Hv.
  - by rewrite update_var_lookup_ne.
Qed.

Lemma bounds_update_upper name value b name' :
  is_Some (variables b !! name) →
  bounds (update_var name (Var.set_upperbound value) b) name'
  = if decide (name = name') then ((bounds b name').1, value) else bounds b name'.
Proof.
  intros [v Hv]. unfold bounds. case_decide as Hn.
  - subst name'. by rewrite update_var_lookup, Hv.
  - by rewrite update_var_lookup_ne.
Qed.

End Entries.

(** X21.  A bound written with the constant first is the bound written with
    the variable first and the comparison turned round:  value <= x  sets the
    lower bound,  value >= x  the upper bound,  value = x  both, and the other
    variables keep their bounds;  <  and  >  are errors, on either side. *)
Theorem bounds_entry_mirror (r1 r2 : Reader) (x : string) (value : double)
    (dir : LpComparisonType.t) (begin1 begin2 : nat) :
  builder r1 = builder r2 →
  sectiontokens r1 !! LpSectionKeyword.BOUNDS = Some (begin1, 3 + begin1) →
  holds_at (processedtokens r1) begin1 [TokCONST value; TokCOMP dir; TokVARID x] →
  sectiontokens r2 !! LpSectionKeyword.BOUNDS = Some (begin2, 3 + begin2) →
  holds_at (processedtokens r2) begin2 [TokVARID x; TokCOMP (mirror dir); TokCONST value] →
  (weak dir →
   ∃ r1' r2', processboundssec r1 = Ok r1' ∧ processboundssec r2 = Ok r2'
     ∧ builder r1' = builder r2'
     ∧ bounds (builder r1') x = bounded dir value (bounds (builder r1) x)
     ∧ ∀ name, name ≠ x → bounds (builder r1') name = bounds (builder r1) name)
  ∧ (¬ weak dir →
     processboundssec r1 = Throw MalformedBound
     ∧ processboundssec r2 = Throw MalformedBound).
Proof.
  intros Hb Hsec1 Htoks1 Hsec2 Htoks2.
  rewrite (processboundssec_on _ _ _ Hsec1), (processboundssec_on _ _ _ Hsec2).
  pose proof (holds_at_length _ _ _ Htoks1) as Hlen1.
  pose proof (holds_at_length _ _ _ Htoks2) as Hlen2. cbn [length] in Hlen1, Hlen2.
  rewrite (boundssec_const_comp_var _ _ _ _ dir value x) by done.
  rewrite (boundssec_var_comp_const _ _ _ _ _ (mirror dir) value x) by (lia || done).
  rewrite bound_const_comp_var_mirror, <-Hb.
  destruct (length (processedtokens r1) - begin1) as [|fuel1] eqn:Hfuel1; [lia|].
  destruct (length (processedtokens r2) - begin2) as [|fuel2] eqn:Hfuel2; [lia|].
  pose proof (getvarbyname_is_Some x (builder r1)) as Hreg.
  pose proof (bounds_getvarbyname x (builder r1)) as Hget.
  split.
  - intros Hweak.
    assert (∃ b', bound_var_comp_const (mirror dir) value x (getvarbyname x (builder r1))
                  = Ok b'
                  ∧ bounds b' x = bounded dir value (bounds (builder r1) x)
                  ∧ ∀ name, name ≠ x → bounds b' name = bounds (builder r1) name)
      as (b' & -> & Hx & Hother).
    { destruct Hweak as [-> | [-> | ->]]; cbn [mirror bound_var_comp_const bounded];
        (eexists; split; [done|]); split.
      - rewrite bounds_update_lower by done. rewrite decide_True by done.
        by rewrite Hget.
      - intros name Hne. rewrite bounds_update_lower by done.
        rewrite decide_False by done. apply Hget.
      - rewrite bounds_update_lower by (by apply update_var_registered).
        rewrite decide_True by done. rewrite bounds_update_upper by done.
        by rewrite decide_True by done.
      - intros name Hne. rewrite bounds_update_lower by (by apply update_var_registered).
        rewrite decide_False by done. rewrite bounds_update_upper by done.
        rewrite decide_False by done. apply Hget.
      - rewrite bounds_update_upper by done. rewrite decide_True by done.
        by rewrite Hget.
      - intros name Hne. rewrite bounds_update_upper by done.
        rewrite decide_False by done. apply Hget. }
    cbn [bind]. rewrite !boundssec_end. cbn [bind].
    eexists _, _. split_and!; done.
  - intros Hstrict.
    assert (mirror dir = LpComparisonType.L ∨ mirror dir = LpComparisonType.G) as Hmirror.
    { unfold weak in Hstrict. destruct dir; naive_solver. }
    by destruct Hmirror as [-> | ->].
Qed.

Lemma bounds_entry_mirror_witness :
  ∃ r1' r2',
    processboundssec
      (reader_with [TokSECID LpSectionKeyword.BOUNDS; TokCONST d3;
                    TokCOMP LpComparisonType.GEQ; TokVARID "x"]
         {[ LpSectionKeyword.BOUNDS := (1, 4) ]} (Builder_new ObjectiveSense.MIN))
    = Ok r1'
    ∧ processboundssec
        (reader_with [TokSECID LpSectionKeyword.BOUNDS; TokVARID "x";
                      TokCOMP LpComparisonType.LEQ; TokCONST d3]
           {[ LpSectionKeyword.BOUNDS := (1, 4) ]} (Builder_new ObjectiveSense.MIN))
      = Ok r2'
    ∧ builder r1' = builder r2'
    ∧ bounds (builder r1') "x" = (d0, d3).
Proof.
  destruct (bounds_entry_mirror
              (reader_with [TokSECID LpSectionKeyword.BOUNDS; TokCONST d3;
                            TokCOMP LpComparisonType.GEQ; TokVARID "x"]
                 {[ LpSectionKeyword.BOUNDS := (1, 4) ]} (Builder_new ObjectiveSense.MIN))
              (reader_with [TokSECID LpSectionKeyword.BOUNDS; TokVARID "x";
                            TokCOMP LpComparisonType.LEQ; TokCONST d3]
                 {[ LpSectionKeyword.BOUNDS := (1, 4) ]} (Builder_new ObjectiveSense.MIN))
              "x" d3 LpComparisonType.GEQ 1 1) as [Hweak _].
  - reflexivity.
  - reflexivity.
  - by apply holds_at_take_drop.
  - reflexivity.
  - by apply holds_at_take_drop.
  - destruct Hweak as (r1' & r2' & Hr1 & Hr2 & Hb & Hx & _); [by right; right|].
    exists r1', r2'. split; [exact Hr1|]. split; [exact Hr2|]. split; [exact Hb|].
    exact Hx.
Defined.

(** ** Blank input *)

Section Blank.

Variable strtod : string → double * nat.

Lemma suffix_0 s : suffix s 0 = s.
Proof. by destruct s. Qed.

Lemma suffix_cons s : ∀ pos, pos < String.length s →
  suffix s pos = String (char_at s pos) (suffix s (S pos)).
Proof.
  induction s as [|c s IH]; intros [|pos] Hlt; cbn in *; try lia.
  - by destruct s.
  - rewrite IH by lia. done.
Qed.

Lemma suffix_all s : ∀ pos, String.length s ≤ pos → suffix s pos = EmptyString.
Proof.
  induction s as [|c s IH]; intros [|pos] Hle; cbn in *; try done; try lia.
  apply IH. lia.
Qed.

Lemma readnexttoken_at_blank r t :
  linebufferpos r ≤ String.length (linebuffer r) →
  blank (suffix (linebuffer r) (linebufferpos r)) = true →
  ∃ r1, readnexttoken_at strtod r t = Ok (false, t, r1)
        ∧ blank (suffix (linebuffer r) (linebufferpos r1)) = true
        ∧ linebufferpos r1 ≤ String.length (linebuffer r).
Proof.
  intros Hpos Hblank. unfold readnexttoken_at.
  destruct (decide (linebufferpos r < String.length (linebuffer r))) as [Hlt|Hge].
  - rewrite suffix_cons in Hblank by done. cbn [blank] in Hblank.
    set (c := char_at (linebuffer r) (linebufferpos r)) in *.
    assert (Hend : blank (suffix (linebuffer r) (String.length (linebuffer r))) = true)
      by (by rewrite suffix_all).
    destruct (decide (c = " "%char ∨ c = TAB)) as [Hc|Hc].
    + rewrite decide_False by (intros ->; by destruct Hc).
      assert (single_character c = None) as -> by (by destruct Hc as [-> | ->]).
      eexists. split; [done|]. split; [done|]. cbn. lia.
    + apply bool_decide_eq_true in Hblank.
      destruct (decide (c = "\"%char)) as [Hb|Hb].
      { eexists. split; [done|]. split; [done|]. cbn. lia. }
      destruct Hblank as [?|Hs]; [done|].
      assert (single_character c = None) as -> by (by rewrite Hs).
      rewrite decide_True by (by left).
      eexists. split; [done|]. split; [done|]. cbn. lia.
  - rewrite char_at_NUL by lia.
    rewrite decide_False by done.
    change (single_character NUL) with (@None RawTokenType.t).
    cbn. rewrite decide_False by (intros [|]; done).
    rewrite decide_False by (intros [|]; done).
    rewrite decide_True by done. rewrite decide_True by lia. by eexists.
Qed.

Lemma readnexttoken_blank r t :
  blank_rest r → ¬ exhausted r →
  ∃ r1, readnexttoken strtod r t = Ok (false, t, r1)
        ∧ blank_rest r1 ∧ unread r1 < unread r
        ∧ rawtokens r1 = rawtokens r ∧ rawtokenpos r1 = rawtokenpos r
        ∧ same_parse r r1.
Proof.
  intros (Hpos & Hblank & Hfile) Hnot.
  assert (∃ r0, readnexttoken strtod r t = readnexttoken_at strtod r0 t
                ∧ linebufferpos r0 ≤ String.length (linebuffer r0)
                ∧ blank (suffix (linebuffer r0) (linebufferpos r0)) = true
                ∧ Forall (λ line, blank (drop_cr line) = true) (file r0))
    as (r0 & Heq & Hpos0 & Hblank0 & Hfile0).
  { unfold readnexttoken. case_decide as Hp; [|by exists r].
    destruct (file r) as [|line rest] eqn:Hf; [by destruct Hnot|].
    apply Forall_cons in Hfile as [Hline Hrest].
    eexists. split; [done|]. cbn. rewrite suffix_0. split_and!; [lia|done|done]. }
  destruct (readnexttoken_at_blank r0 t Hpos0 Hblank0) as (r1 & Hr1 & Hblank1 & Hpos1).
  exists r1. split; [by rewrite Heq|].
  rewrite <-Heq in Hr1.
  pose proof Hr1 as Hspec. apply readnexttoken_Ok in Hspec
    as (Hraw & Hrp & Hsame & _ & _ & Hcase).
  rewrite Heq in Hr1. apply readnexttoken_at_Ok in Hr1
    as (_ & _ & _ & Hf1 & Hl1 & _ & _ & Hlt & Hge).
  destruct Hcase as [(_ & [=] & _)|[_ Hun]].
  split_and!; try done. split_and!.
  - by rewrite Hl1.
  - by rewrite Hl1.
  - by rewrite Hf1.
Qed.

(** On blank lines the loop [while( !readnexttoken(rawtokens[i]) ) ;]
    runs to the end of the file. *)
Lemma fill_loop_blank i : ∀ fuel r, blank_rest r → unread r < fuel →
  ∃ r', fill_loop strtod fuel i r = Ok r'
    ∧ rawtokens r'
      = <[i := assign_type (default RawToken_default (rawtokens r !! i))
                RawTokenType.FLEND]> (rawtokens r)
    ∧ rawtokenpos r' = rawtokenpos r ∧ same_parse r r'
    ∧ exhausted r' ∧ blank_rest r'.
Proof.
  induction fuel as [|fuel IH]; intros r Hblank Hfuel; [lia|].
  cbn [fill_loop]. set (t0 := default RawToken_default (rawtokens r !! i)).
  destruct (decide (exhausted r)) as [Hex|Hnot].
  - destruct Hex as [Hf Hp]. unfold readnexttoken. rewrite decide_True by done.
    rewrite Hf. cbn [bind]. eexists. split; [done|]. cbn.
    split_and!; try done.
  - destruct (readnexttoken_blank r t0 Hblank Hnot)
      as (r1 & -> & Hblank1 & Hun & Hraw & Hrp & Hsame).
    cbn [bind].
    assert (Hid : <[i := t0]> (rawtokens r1) = rawtokens r1).
    { apply list_insert_id'. intros Hi. rewrite Hraw.
      destruct (lookup_lt_is_Some_2 (rawtokens r) i) as [t Ht]; [by rewrite <-Hraw|].
      unfold t0. by rewrite Ht. }
    rewrite Hid.
    set (r2 := with_rawtokens (rawtokens r1) (rawtokenpos r1) r1).
    destruct (IH r2) as (r' & Hr' & Hraw' & Hrp' & Hsame' & Hex' & Hblank'); [done|..].
    { change (unread r2) with (unread r1). lia. }
    exists r'. split; [done|]. split_and!; try done.
    + rewrite Hraw'. cbn. by rewrite Hraw.
    + rewrite Hrp'. cbn. done.
    + apply (same_parse_trans _ r1); [done|]. by apply (same_parse_trans _ r2).
Qed.

End Blank.

(** With no section at all, the objective is a new expression and
    nothing else happens. *)
Lemma processsections_no_sections (r : Reader) :
  sectiontokens r = ∅ →
  processsections r
  = Ok (with_builder (update_model (set_objective Expression.new) (builder r)) r).
Proof.
  intros Hempty. destruct r as [f lb lp rt rp pt st b]. cbn in Hempty. subst st.
  reflexivity.
Qed.

(** X7.  A file of blank lines and comment lines reads as the empty model,
    whatever [strtod] is. *)
Theorem read_blank_file (strtod : string → double * nat) (lines : list string)
    (sense : ObjectiveSense.t) :
  Forall (λ line, blank (drop_cr line) = true) lines →
  read strtod (Reader_new lines sense) = Ok (empty_model sense).
Proof.
  intros Hlines. unfold read, tokenize.
  set (r0 := with_rawtokens _ 0 (with_linebufferpos 0 (Reader_new lines sense))).
  assert (H0 : blank_rest r0) by (split_and!; [cbn; lia|done|done]).
  assert (Hp0 : rawtokenpos r0 = 0) by done.
  assert (Hs0 : same_parse (Reader_new lines sense) r0) by done.
  assert (Hr0 : rawtokens r0 = replicate 5 RawToken_default) by done.
  clearbody r0.
  destruct (fill_loop_blank strtod 0 (S (unread r0)) r0 H0 ltac:(lia))
    as (r1 & Hf1 & Hr1 & Hp1 & Hs1 & _ & H1).
  destruct (fill_loop_blank strtod 1 (S (unread r1)) r1 H1 ltac:(lia))
    as (r2 & Hf2 & Hr2 & Hp2 & Hs2 & _ & H2).
  destruct (fill_loop_blank strtod 2 (S (unread r2)) r2 H2 ltac:(lia))
    as (r3 & Hf3 & Hr3 & Hp3 & Hs3 & _ & H3).
  destruct (fill_loop_blank strtod 3 (S (unread r3)) r3 H3 ltac:(lia))
    as (r4 & Hf4 & Hr4 & Hp4 & Hs4 & _ & H4).
  destruct (fill_loop_blank strtod 4 (S (unread r4)) r4 H4 ltac:(lia))
    as (r5 & Hf5 & Hr5 & Hp5 & Hs5 & _ & H5).
  unfold fill. rewrite Hf1. cbn [bind]. rewrite Hf2. cbn [bind].
  rewrite Hf3. cbn [bind]. rewrite Hf4. cbn [bind]. rewrite Hf5. cbn [bind].
  assert (Hcur : rtype (rawtoken r5 0) = RawTokenType.FLEND).
  { unfold rawtoken. rewrite Hp5, Hp4, Hp3, Hp2, Hp1, Hp0.
    rewrite Hr5, Hr4, Hr3, Hr2, Hr1, Hr0. done. }
  assert (Hs : same_parse (Reader_new lines sense) r5).
  { repeat (eapply same_parse_trans; [|eassumption]). done. }
  destruct Hs as (Hpt & Hst & Hb).
  unfold processtokens. cbn [processtokens_loop].
  unfold istype at 1. rewrite bool_decide_eq_true_2 by done. cbn [bind].
  unfold splittokens. cbn [processedtokens clear_linebuffer]. rewrite Hpt.
  cbn [processedtokens Reader_new splittokens_loop bind].
  rewrite decide_False by (by intros H).
  rewrite processsections_no_sections by (cbn; by rewrite Hst).
  cbn. by rewrite Hb.
Qed.

Lemma read_blank_file_witness :
  read strtod_decimal (Reader_new [""; "  \ a comment"; " ; "] ObjectiveSense.MIN)
  = Ok (empty_model ObjectiveSense.MIN).
Proof.
  apply (read_blank_file strtod_decimal [""; "  \ a comment"; " ; "] ObjectiveSense.MIN).
  repeat constructor.
Defined.

(** ** The lexer, the splitter and the section checks, for their callers *)

(** X1.  The loop [while( !readnexttoken(rawtokens[i]) ) ;] on a slot [i] of
    the window ends.  When it returns, slot [i] holds a token of a type other
    than [NONE] and nothing else of the window has changed; the token is the
    end-of-file token only when the input is exhausted, and any other token
    has used up input; the processed tokens, the section map and the builder
    are as before. *)
Theorem fill_returns (strtod : string → double * nat) (i : nat) (r : Reader) :
  i < length (rawtokens r) →
  fill strtod i r ≠ OutOfFuel
  ∧ ∀ r', fill strtod i r = Ok r' → filled i r r' ∧ same_parse r r'.
Proof. intros _. apply fill_spec. Qed.

Lemma fill_returns_witness :
  ∃ r', fill strtod_decimal 0 (Reader_new ["  x + y"] ObjectiveSense.MIN) = Ok r'
    ∧ filled 0 (Reader_new ["  x + y"] ObjectiveSense.MIN) r'.
Proof.
  destruct (fill strtod_decimal 0 (Reader_new ["  x + y"] ObjectiveSense.MIN))
    as [r'| | |] eqn:Hr; [|vm_compute in Hr; discriminate Hr..].
  exists r'. split; [reflexivity|].
  apply (fill_returns strtod_decimal 0 (Reader_new ["  x + y"] ObjectiveSense.MIN));
    [cbn; lia|exact Hr].
Defined.

(** X2.  [nextrawtoken(n)], for the [n > 0] that it asserts, moves the window
    of five raw tokens by [n]: the token that was [k + n] places ahead is [k]
    places ahead afterwards; the processed tokens, the section map and the
    builder are as before. *)
Theorem nextrawtoken_window (strtod : string → double * nat) (n : nat) (r r' : Reader) :
  0 < n → length (rawtokens r) = 5 → nextrawtoken strtod n r = Ok r' →
  length (rawtokens r') = 5
  ∧ rawtokenpos r' = rawtokenpos r + n
  ∧ (∀ k, k + n < 5 → rawtoken r' k = rawtoken r (k + n))
  ∧ same_parse r r'.
Proof.
  intros _ Hlen Hr'. destruct (nextrawtoken_spec strtod n r Hlen) as [_ Hok].
  destruct (Hok r' Hr') as (? & ? & ? & ? & _). done.
Qed.

Lemma nextrawtoken_window_witness :
  ∃ r', nextrawtoken strtod_decimal 2 (Reader_new ["x + y"] ObjectiveSense.MIN) = Ok r'
    ∧ length (rawtokens r') = 5 ∧ rawtokenpos r' = 2
    ∧ rawtoken r' 2 = rawtoken (Reader_new ["x + y"] ObjectiveSense.MIN) 4.
Proof.
  destruct (nextrawtoken strtod_decimal 2 (Reader_new ["x + y"] ObjectiveSense.MIN))
    as [r'| | |] eqn:Hr; [|vm_compute in Hr; discriminate Hr..].
  exists r'. split; [reflexivity|].
  destruct (nextrawtoken_window strtod_decimal 2
              (Reader_new ["x + y"] ObjectiveSense.MIN) r' ltac:(lia) eq_refl Hr) as (Hlen & Hpos & Hwin & _).
  split; [exact Hlen|]. split; [exact Hpos|]. apply (Hwin 2). lia.
Defined.

(** X3.  Reading the tokens ends.  When it returns, the input is exhausted and
    the current raw token is the end-of-file token; processed tokens have been
    appended only, none of them the plain [NONE], a line end or the section
    keyword [NONE]; section map and builder are as before. *)
Theorem tokenize_returns (strtod : string → double * nat) (r : Reader) :
  length (rawtokens r) = 5 →
  tokenize strtod r ≠ OutOfFuel
  ∧ ∀ r', tokenize strtod r = Ok r' →
      exhausted r' ∧ rtype (rawtoken r' 0) = RawTokenType.FLEND
      ∧ (∃ new, processedtokens r' = processedtokens r ++ new ∧ Forall emitted new)
      ∧ sectiontokens r' = sectiontokens r ∧ builder r' = builder r.
Proof. apply tokenize_spec. Qed.

Lemma tokenize_returns_witness :
  length (rawtokens (Reader_new ["min"; " x"; "end"] ObjectiveSense.MIN)) = 5
  ∧ tokenize strtod_decimal (Reader_new ["min"; " x"; "end"] ObjectiveSense.MIN) ≠ OutOfFuel.
Proof.
  split; [reflexivity|].
  apply (tokenize_returns strtod_decimal (Reader_new ["min"; " x"; "end"] ObjectiveSense.MIN)).
  reflexivity.
Defined.

(** X9.  The check of [processnonesec] cannot fail in [read]: the tokens
    [processtokens] emits hold no section keyword [NONE], so [splittokens]
    records no section under it. *)
Theorem processnonesec_after_tokenize (strtod : string → double * nat)
    (r r1 r2 : Reader) :
  length (rawtokens r) = 5 → Forall emitted (processedtokens r) →
  sectiontokens r = ∅ →
  tokenize strtod r = Ok r1 → splittokens (clear_linebuffer r1) = Ok r2 →
  processnonesec r2 = Ok r2.
Proof.
  intros Hlen Hold Hempty Hr1 Hr2.
  destruct (tokenize_spec strtod r Hlen) as [_ Hok].
  destruct (Hok r1 Hr1) as (_ & _ & (new & Hnew & Hem) & Hst & _).
  assert (Hall : Forall emitted (processedtokens (clear_linebuffer r1))).
  { cbn. rewrite Hnew. by apply Forall_app. }
  assert (Hst1 : sectiontokens (clear_linebuffer r1) = ∅) by (cbn; congruence).
  destruct (splittokens_spec _ Hst1) as [[_ Hthrow]|(_ & r' & Hr' & Hin)]; [congruence|].
  assert (r' = r2) as -> by congruence.
  unfold processnonesec. rewrite bool_decide_eq_true_2; [done|].
  apply count_zero, eq_None_not_Some. rewrite Hin.
  intros (i & Hkey & _). unfold keyword_at in Hkey.
  rewrite Forall_lookup in Hall. by destruct (Hall i _ Hkey) as (_ & _ & ?).
Qed.

Lemma processnonesec_after_tokenize_witness :
  ∃ r1 r2,
    tokenize strtod_decimal (Reader_new ["min"; " x"; "end"] ObjectiveSense.MIN) = Ok r1
    ∧ splittokens (clear_linebuffer r1) = Ok r2
    ∧ processnonesec r2 = Ok r2.
Proof.
  destruct (tokenize strtod_decimal (Reader_new ["min"; " x"; "end"] ObjectiveSense.MIN))
    as [r1| | |] eqn:Hr1; [|vm_compute in Hr1; discriminate Hr1..].
  destruct (splittokens (clear_linebuffer r1)) as [r2| | |] eqn:Hr2.
  - exists r1, r2. split; [reflexivity|]. split; [exact Hr2|].
    apply (processnonesec_after_tokenize strtod_decimal
             (Reader_new ["min"; " x"; "end"] ObjectiveSense.MIN) r1 r2);
      [reflexivity|constructor|reflexivity|exact Hr1|exact Hr2].
  - vm_compute in Hr1. injection Hr1 as <-. vm_compute in Hr2. discriminate Hr2.
  - vm_compute in Hr1. injection Hr1 as <-. vm_compute in Hr2. discriminate Hr2.
  - vm_compute in Hr1. injection Hr1 as <-. vm_compute in Hr2. discriminate Hr2.
Defined.

(** X10.  [processendsec] accepts the sections exactly when nothing but section
    keywords follows an [end] keyword. *)
Theorem processendsec_content (r r' : Reader) :
  sectiontokens r = ∅ → splittokens r = Ok r' →
  ((∃ i, recorded_at (processedtokens r) i LpSectionKeyword.END) →
   processendsec r' = Throw UnknownToken)
  ∧ ((¬ ∃ i, recorded_at (processedtokens r) i LpSectionKeyword.END) →
     processendsec r' = Ok r').
Proof.
  intros Hempty Hr'.
  destruct (splittokens_spec r Hempty) as [[_ Hthrow]|(_ & r'' & Hr'' & Hin)]; [congruence|].
  assert (r'' = r') as -> by congruence.
  unfold processendsec. split; intros Hend.
  - apply Hin in Hend as [p Hp]. unfold count. by rewrite Hp.
  - rewrite bool_decide_eq_true_2; [done|].
    apply count_zero, eq_None_not_Some. by rewrite Hin.
Qed.

Lemma processendsec_content_witness :
  ∃ r', splittokens (reader_on [TokSECID LpSectionKeyword.END; TokVARID "x"]) = Ok r'
    ∧ processendsec r' = Throw UnknownToken.
Proof.
  destruct (splittokens (reader_on [TokSECID LpSectionKeyword.END; TokVARID "x"]))
    as [r'| | |] eqn:Hr; [|vm_compute in Hr; discriminate Hr..].
  exists r'. split; [reflexivity|].
  apply (processendsec_content
           (reader_on [TokSECID LpSectionKeyword.END; TokVARID "x"]) r' eq_refl Hr).
  exists 0. split; [reflexivity|]. by exists (TokVARID "x").
Defined.

(** X8.  The ranges [splittokens] records: the section of a keyword begins
    right behind the keyword, holds at least one token and no section keyword,
    and ends where the next section keyword stands or the tokens end. *)
Theorem splittokens_section_ranges (r r' : Reader) (k : LpSectionKeyword.t)
    (begin_ end_ : nat) :
  sectiontokens r = ∅ → splittokens r = Ok r' →
  k ≠ LpSectionKeyword.NONE → sectiontokens r' !! k = Some (begin_, end_) →
  section_range (processedtokens r) k begin_ end_
  ∧ processedtokens r' = processedtokens r ∧ builder r' = builder r.
Proof. apply splittokens_ranges. Qed.

Lemma splittokens_section_ranges_witness :
  ∃ r', splittokens (reader_on [TokSECID LpSectionKeyword.BOUNDS; TokVARID "x"; TokFREE;
                                TokSECID LpSectionKeyword.END]) = Ok r'
    ∧ sectiontokens r' !! LpSectionKeyword.BOUNDS = Some (1, 3)
    ∧ section_range [TokSECID LpSectionKeyword.BOUNDS; TokVARID "x"; TokFREE;
                     TokSECID LpSectionKeyword.END] LpSectionKeyword.BOUNDS 1 3.
Proof.
  destruct (splittokens (reader_on [TokSECID LpSectionKeyword.BOUNDS; TokVARID "x"; TokFREE;
                                    TokSECID LpSectionKeyword.END]))
    as [r'| | |] eqn:Hr; [|vm_compute in Hr; discriminate Hr..].
  assert (Hk : sectiontokens r' !! LpSectionKeyword.BOUNDS = Some (1, 3)).
  { vm_compute in Hr. injection Hr as <-. reflexivity. }
  exists r'. split; [reflexivity|]. split; [exact Hk|].
  apply (splittokens_section_ranges
           (reader_on [TokSECID LpSectionKeyword.BOUNDS; TokVARID "x"; TokFREE;
                       TokSECID LpSectionKeyword.END]) r' LpSectionKeyword.BOUNDS 1 3
           eq_refl Hr); [discriminate|exact Hk].
Defined.

(** X14.  Bounds change in the bounds section and the binary section only. *)
Theorem sections_keep_bounds (r r' : Reader) :
  processobjsec r = Ok r' ∨ processconsec r = Ok r' ∨ processgensec r = Ok r'
  ∨ processsemisec r = Ok r' ∨ processsossec r = Ok r' →
  ∀ name, bounds (builder r') name = bounds (builder r) name.
Proof.
  set (R := λ b b' : Builder, ∀ name, bounds b' name = bounds b name).
  assert (R_refl : ∀ b, R b b) by done.
  assert (R_trans : ∀ b1 b2 b3, R b1 b2 → R b2 b3 → R b1 b3).
  { intros b1 b2 b3 H1 H2 name. by rewrite H2. }
  assert (R_getvarbyname : ∀ name b, R b (getvarbyname name b)).
  { intros name b name'. apply bounds_getvarbyname. }
  assert (R_gensec : ∀ name b, R b (update_var name gensec_body b)).
  { intros name b name'. apply bounds_update_var. intros v.
    unfold gensec_body. by case_decide. }
  assert (R_semisec : ∀ name b, R b (update_var name semisec_body b)).
  { intros name b name'. apply bounds_update_var. intros v.
    unfold semisec_body. by case_decide. }
  intros [H|[H|[H|[H|H]]]].
  - by apply (returns_Ok _ _ _ (processobjsec_returns R R_refl R_trans R_getvarbyname
      ltac:(done) ltac:(done) r) H).
  - by apply (returns_Ok _ _ _ (processconsec_returns R R_refl R_trans R_getvarbyname
      ltac:(done) r) H).
  - by apply (returns_Ok _ _ _ (processgensec_returns R R_refl R_trans R_getvarbyname
      R_gensec r) H).
  - by apply (returns_Ok _ _ _ (processsemisec_returns R R_refl R_trans R_getvarbyname
      R_semisec r) H).
  - by apply (returns_Ok _ _ _ (processsossec_returns R R_refl R_trans R_getvarbyname
      ltac:(done) r) H).
Qed.

Lemma sections_keep_bounds_witness :
  ∃ r', processgensec
          (reader_with [TokSECID LpSectionKeyword.GEN; TokVARID "x"]
             {[ LpSectionKeyword.GEN := (1, 2) ]}
             (update_var "x" (Var.set_upperbound d7)
                (getvarbyname "x" (Builder_new ObjectiveSense.MIN)))) = Ok r'
    ∧ bounds (builder r') "x" = (d0, d7).
Proof.
  destruct (processgensec
          (reader_with [TokSECID LpSectionKeyword.GEN; TokVARID "x"]
             {[ LpSectionKeyword.GEN := (1, 2) ]}
             (update_var "x" (Var.set_upperbound d7)
                (getvarbyname "x" (Builder_new ObjectiveSense.MIN)))))
    as [r'| | |] eqn:Hr; [|vm_compute in Hr; discriminate Hr..].
  exists r'. split; [reflexivity|].
  rewrite (sections_keep_bounds _ r' (or_intror (or_intror (or_introl Hr))) "x").
  reflexivity.
Defined.

Section Keywords.

Lemma tolower_same_letter c c' : same_letter c c' = true → tolower c = tolower c'.
Proof.
  assert (Hup : ∀ a a', is_upper a = true → nat_of_ascii a' = nat_of_ascii a + 32 →
                        tolower a = tolower a').
  { intros a a' Ha Ha'. unfold tolower. cbv zeta. fold (is_upper a). rewrite Ha, Ha'.
    unfold is_upper in Ha. apply andb_true_iff in Ha as [Ha%Nat.leb_le _].
    replace (nat_of_ascii a + 32 <=? 90) with false
      by (symmetry; apply Nat.leb_gt; lia).
    rewrite andb_false_r, <- Ha'. by rewrite ascii_nat_embedding. }
  unfold same_letter. intros [[H|H]%orb_true_iff|H]%orb_true_iff.
  - by apply bool_decide_eq_true in H as ->.
  - apply andb_true_iff in H as [Hc Hn%Nat.eqb_eq]. by apply Hup.
  - apply andb_true_iff in H as [Hc Hn%Nat.eqb_eq]. symmetry. by apply Hup.
Qed.

Lemma transform_tolower_same_word s : ∀ s',
  same_word s s' = true → transform_tolower s = transform_tolower s'.
Proof.
  induction s as [|c s IH]; intros [|c' s'] H; try done.
  cbn [same_word] in H. apply andb_true_iff in H as [Hc Hs].
  cbn [transform_tolower]. by rewrite (tolower_same_letter c c'), (IH s').
Qed.

End Keywords.

(** X6.  Section keywords are recognised whatever the case of their letters:
    two strings that differ in nothing but the case of letters, each character
    of the one being that of the other or its upper-case or lower-case form,
    name the same section or both none. *)
Theorem parsesectionkeyword_case (s s' : string) :
  same_word s s' = true → parsesectionkeyword s = parsesectionkeyword s'.
Proof.
  intros H. unfold parsesectionkeyword. by rewrite (transform_tolower_same_word s s').
Qed.

Lemma parsesectionkeyword_case_witness :
  same_word "BoUnDs" "bounds" = true
  ∧ parsesectionkeyword "BoUnDs" = LpSectionKeyword.BOUNDS
  ∧ parsesectionkeyword "SUBJECT TO" = LpSectionKeyword.CON.
Proof.
  split; [reflexivity|]. split.
  - rewrite (parsesectionkeyword_case "BoUnDs" "bounds"); reflexivity.
  - rewrite (parsesectionkeyword_case "SUBJECT TO" "subject to"); reflexivity.
Defined.

(** X5.  Section keywords are reserved words: a string that names a section is
    classified as a section keyword wherever it stands, also where a variable
    or a label would be expected. *)
Theorem keywords_are_reserved (strtod : string → double * nat) (r r' : Reader) :
  length (rawtokens r) = 5 →
  rtype (rawtoken r 0) = RawTokenType.STR →
  parsesectionkeyword (svalue (rawtoken r 0)) ≠ LpSectionKeyword.NONE →
  processtoken strtod r = Ok r' →
  ∃ k, k ≠ LpSectionKeyword.NONE
       ∧ processedtokens r' = processedtokens r ++ [TokSECID k].
Proof.
  intros Hlen Hstr Hkey. unfold processtoken. cbv zeta.
  assert (Hadv : ∀ n k, k ≠ LpSectionKeyword.NONE →
    nextrawtoken strtod n (emplace_back (TokSECID k) r) = Ok r' →
    ∃ k, k ≠ LpSectionKeyword.NONE
         ∧ processedtokens r' = processedtokens r ++ [TokSECID k]).
  { intros n k Hk Hr'. exists k. split; [done|].
    destruct (nextrawtoken_spec strtod n (emplace_back (TokSECID k) r) Hlen) as [_ Hok].
    by destruct (Hok r' Hr') as (_ & _ & (-> & _) & _). }
  assert (istype (rawtoken r 0) RawTokenType.SLASH = false) as ->.
  { unfold istype. apply bool_decide_eq_false. by rewrite Hstr. }
  cbn [andb].
  lazymatch goal with
  | |- context [match ?m with Some _ => _ | None => _ end] =>
      destruct m as [k1|] eqn:Hk1
  end.
  { intros Hr'. apply (Hadv 3 k1); [|done].
    apply keyword_if in Hk1 as (_ & _ & Hk1). by intros ->. }
  lazymatch goal with
  | |- context [match ?m with Some _ => _ | None => _ end] =>
      destruct m as [k2|] eqn:Hk2
  end.
  { intros Hr'. apply (Hadv 2 k2); [|done].
    apply keyword_if in Hk2 as (_ & _ & Hk2). by intros ->. }
  assert (istype (rawtoken r 0) RawTokenType.STR = true) as ->.
  { unfold istype. by apply bool_decide_eq_true. }
  unfold keyword_of. rewrite decide_True by done. intros Hr'. by apply (Hadv 1 _ Hkey).
Qed.

Lemma keywords_are_reserved_witness :
  ∃ r', processtoken strtod_decimal
          (with_rawtokens
             [assign_string RawToken_default "Bounds";
              assign_type RawToken_default RawTokenType.FLEND;
              assign_type RawToken_default RawTokenType.FLEND;
              assign_type RawToken_default RawTokenType.FLEND;
              assign_type RawToken_default RawTokenType.FLEND] 0
             (reader_on [TokCONST d2])) = Ok r'
    ∧ ∃ k, k ≠ LpSectionKeyword.NONE
           ∧ processedtokens r' = [TokCONST d2] ++ [TokSECID k].
Proof.
  destruct (processtoken strtod_decimal
          (with_rawtokens
             [assign_string RawToken_default "Bounds";
              assign_type RawToken_default RawTokenType.FLEND;
              assign_type RawToken_default RawTokenType.FLEND;
              assign_type RawToken_default RawTokenType.FLEND;
              assign_type RawToken_default RawTokenType.FLEND] 0
             (reader_on [TokCONST d2]))) as [r'| | |] eqn:Hr;
    [|vm_compute in Hr; discriminate Hr..].
  exists r'. split; [reflexivity|].
  apply (keywords_are_reserved strtod_decimal
           (with_rawtokens
             [assign_string RawToken_default "Bounds";
              assign_type RawToken_default RawTokenType.FLEND;
              assign_type RawToken_default RawTokenType.FLEND;
              assign_type RawToken_default RawTokenType.FLEND;
              assign_type RawToken_default RawTokenType.FLEND] 0
             (reader_on [TokCONST d2])) r');
    [reflexivity|reflexivity|vm_compute; discriminate|exact Hr].
Defined.

(** ** Comments between slash and asterisk *)

Section Comments.

Variable strtod : string → double * nat.

Lemma nextrawtoken_add n : ∀ m r,
  nextrawtoken strtod (n + m) r
  = (let* r := nextrawtoken strtod n r in nextrawtoken strtod m r).
Proof.
  induction n as [|n IH]; intros m r; [done|]. cbn [Nat.add nextrawtoken].
  destruct (fill strtod _ r) as [r1| | |]; cbn [bind]; [|done..]. apply IH.
Qed.

(** The comment loop moves the window by two tokens at least. *)
Lemma skip_comment_pos : ∀ fuel r r',
  length (rawtokens r) = 5 → skip_comment strtod fuel r = Ok r' →
  rawtokenpos r + 2 ≤ rawtokenpos r' ∧ length (rawtokens r') = 5.
Proof.
  induction fuel as [|fuel IH]; intros r r' Hlen; [done|]. cbn [skip_comment].
  destruct (nextrawtoken_spec strtod 2 r Hlen) as [_ Hok].
  destruct (nextrawtoken strtod 2 r) as [r1| | |]; cbn [bind]; [|done..].
  destruct (Hok r1 eq_refl) as (Hl & Hp & _).
  destruct (_ && _).
  - intros Hr'. destruct (IH r1 r' Hl Hr'). split; [lia|done].
  - intros [= <-]. split; [lia|done].
Qed.

(** One more turn of the comment loop: the two tokens now under the
    window do not close the comment. *)
Lemma skip_comment_on fuel r r2 :
  nextrawtoken strtod 2 r = Ok r2 →
  ¬ (rtype (rawtoken r2 0) = RawTokenType.ASTERISK
     ∧ rtype (rawtoken r2 1) = RawTokenType.SLASH) →
  rtype (rawtoken r2 0) ≠ RawTokenType.FLEND →
  skip_comment strtod (S fuel) r = skip_comment strtod fuel r2.
Proof.
  intros Hr2 Hopen Hfile. cbn [skip_comment]. rewrite Hr2. cbn [bind].
  unfold istype. rewrite (bool_decide_eq_false_2 _ Hfile).
  destruct (bool_decide _) eqn:H0; [|done].
  destruct (bool_decide (rtype (rawtoken r2 1) = _)) eqn:H1; [|done].
  apply bool_decide_eq_true in H0, H1. by destruct Hopen.
Qed.

Lemma skip_comment_off fuel r r2 :
  nextrawtoken strtod 2 r = Ok r2 →
  rtype (rawtoken r2 0) = RawTokenType.ASTERISK →
  rtype (rawtoken r2 1) = RawTokenType.SLASH →
  skip_comment strtod (S fuel) r = Ok r2.
Proof.
  intros Hr2 H0 H1. cbn [skip_comment]. rewrite Hr2. cbn [bind].
  unfold istype. by rewrite (bool_decide_eq_true_2 _ H0), (bool_decide_eq_true_2 _ H1).
Qed.

End Comments.

(** X4.  A comment  /* ... */  is closed only by an asterisk and a slash that
    stand an even number of raw tokens behind its opening: the loop that looks
    for them moves two tokens at a time.  With two tokens inside, the next
    turn starts right behind the comment; with one token inside, the closing
    pair is passed over, and at least the three tokens behind the comment are
    skipped with it. *)
Theorem comment_closes_at_even_distance (strtod : string → double * nat) (r : Reader) :
  length (rawtokens r) = 5 →
  rtype (rawtoken r 0) = RawTokenType.SLASH →
  rtype (rawtoken r 1) = RawTokenType.ASTERISK →
  rtype (rawtoken r 2) ≠ RawTokenType.FLEND →
  (∀ r4, rtype (rawtoken r 4) = RawTokenType.ASTERISK →
         ¬ (rtype (rawtoken r 2) = RawTokenType.ASTERISK
            ∧ rtype (rawtoken r 3) = RawTokenType.SLASH) →
         nextrawtoken strtod 4 r = Ok r4 →
         rtype (rawtoken r4 1) = RawTokenType.SLASH →
         processtoken strtod r = nextrawtoken strtod 2 r4)
  ∧ (∀ r', rtype (rawtoken r 3) = RawTokenType.ASTERISK →
           rtype (rawtoken r 4) = RawTokenType.SLASH →
           processtoken strtod r = Ok r' →
           rawtokenpos r + 8 ≤ rawtokenpos r').
Proof.
  intros Hlen Hslash Hast Ht.
  assert (Hopen : processtoken strtod r
    = (let* r := skip_comment strtod (S (5 + unread r)) r in nextrawtoken strtod 2 r)).
  { unfold processtoken. cbv zeta. unfold istype at 1 2.
    by rewrite (bool_decide_eq_true_2 _ Hslash), (bool_decide_eq_true_2 _ Hast). }
  cbn [Nat.add] in Hopen.
  destruct (nextrawtoken_spec strtod 2 r Hlen) as [_ Hok2].
  split.
  - intros r4 Hclose Hinside Hr4 Hnext. rewrite Hopen.
    change 4 with (2 + 2) in Hr4. rewrite nextrawtoken_add in Hr4.
    destruct (nextrawtoken strtod 2 r) as [r2| | |] eqn:Hr2; try done.
    cbn [bind] in Hr4.
    destruct (Hok2 r2 eq_refl) as (Hl2 & _ & _ & Hwin & _).
    destruct (nextrawtoken_spec strtod 2 r2 Hl2) as [_ Hok4].
    destruct (Hok4 r4 Hr4) as (_ & _ & _ & Hwin4 & _).
    assert (H40 : rawtoken r4 0 = rawtoken r 4).
    { rewrite (Hwin4 0) by lia. cbn [Nat.add]. by rewrite (Hwin 2) by lia. }
    assert (H20 : rawtoken r2 0 = rawtoken r 2) by (by rewrite (Hwin 0) by lia).
    assert (H21 : rawtoken r2 1 = rawtoken r 3) by (by rewrite (Hwin 1) by lia).
    rewrite (skip_comment_on strtod _ r r2 Hr2) by (by rewrite ?H20, ?H21).
    rewrite (skip_comment_off strtod _ r2 r4 Hr4); [done|by rewrite H40|done].
  - intros r' Hstar Hclose. rewrite Hopen.
    destruct (nextrawtoken strtod 2 r) as [r2| | |] eqn:Hr2;
      [|by (cbn [skip_comment]; rewrite Hr2)..].
    destruct (Hok2 r2 eq_refl) as (Hl2 & Hp2 & _ & Hwin & _).
    assert (H20 : rawtoken r2 0 = rawtoken r 2) by (by rewrite (Hwin 0) by lia).
    assert (H21 : rawtoken r2 1 = rawtoken r 3) by (by rewrite (Hwin 1) by lia).
    assert (H22 : rawtoken r2 2 = rawtoken r 4) by (by rewrite (Hwin 2) by lia).
    rewrite (skip_comment_on strtod _ r r2 Hr2);
      [|rewrite H21, Hstar; by intros [_ ?]|by rewrite H20].
    destruct (nextrawtoken_spec strtod 2 r2 Hl2) as [_ Hok4].
    destruct (nextrawtoken strtod 2 r2) as [r4| | |] eqn:Hr4;
      [|by (cbn [skip_comment]; rewrite Hr4)..].
    destruct (Hok4 r4 eq_refl) as (Hl4 & Hp4 & _ & Hwin4 & _).
    assert (H40 : rawtoken r4 0 = rawtoken r 4).
    { rewrite (Hwin4 0) by lia. cbn [Nat.add]. done. }
    rewrite (skip_comment_on strtod _ r2 r4 Hr4);
      [|rewrite H40, Hclose; by intros [? _]|by rewrite H40, Hclose].
    destruct (skip_comment strtod _ r4) as [r6| | |] eqn:Hr6; cbn [bind]; [|done..].
    destruct (skip_comment_pos strtod _ r4 r6 Hl4 Hr6) as [Hp6 Hl6].
    intros Hr'. destruct (nextrawtoken_spec strtod 2 r6 Hl6) as [_ Hok8].
    destruct (Hok8 r' Hr') as (_ & Hp8 & _). lia.
Qed.

Lemma comment_closes_at_even_distance_witness :
  ∃ r', processtoken strtod_decimal comment_reader = Ok r'
    ∧ rawtokenpos comment_reader + 8 ≤ rawtokenpos r'.
Proof.
  destruct (processtoken strtod_decimal comment_reader) as [r'| | |] eqn:Hr;
    [|vm_compute in Hr; discriminate Hr..].
  exists r'. split; [reflexivity|].
  apply (comment_closes_at_even_distance strtod_decimal comment_reader);
    [reflexivity|reflexivity|reflexivity|discriminate|reflexivity|reflexivity|exact Hr].
Defined.

(** ** The keyword free *)

Lemma iskeyword_elem str keywords : iskeyword str keywords = bool_decide (str ∈ keywords).
Proof.
  induction keywords as [|k keywords IH]; cbn [iskeyword].
  - symmetry. apply bool_decide_eq_false. by intros ?%elem_of_nil.
  - destruct (decide (str = k)) as [->|Hk].
    + symmetry. apply bool_decide_eq_true. by left.
    + rewrite IH. apply bool_decide_ext. rewrite elem_of_cons. naive_solver.
Qed.

(** X28.  A string without a NUL character that names no section, alone
    or with the string behind it, and has no colon behind it: it is the free
    marker when it is one of the keywords of [LP_KEYWORD_FREE] as written, and
    a variable of this name when it is none of them and no keyword of
    [LP_KEYWORD_INF].  Unlike the section keywords, the keyword is compared
    without lowering the case of the string, so that another spelling of it,
    as FREE, is a variable. *)
Theorem free_keyword_as_written (strtod : string → double * nat) (r r' : Reader) :
  length (rawtokens r) = 5 →
  rtype (rawtoken r 0) = RawTokenType.STR →
  (rtype (rawtoken r 1) = RawTokenType.MINUS → rtype (rawtoken r 2) = RawTokenType.STR →
   parsesectionkeyword (svalue (rawtoken r 0) +:+ "-" +:+ svalue (rawtoken r 2))
   = LpSectionKeyword.NONE) →
  (rtype (rawtoken r 1) = RawTokenType.STR →
   parsesectionkeyword (svalue (rawtoken r 0) +:+ " " +:+ svalue (rawtoken r 1))
   = LpSectionKeyword.NONE) →
  rtype (rawtoken r 1) ≠ RawTokenType.COLON →
  parsesectionkeyword (svalue (rawtoken r 0)) = LpSectionKeyword.NONE →
  contains (svalue (rawtoken r 0)) NUL = false →
  processtoken strtod r = Ok r' →
  (svalue (rawtoken r 0) ∈ LP_KEYWORD_FREE →
   processedtokens r' = processedtokens r ++ [TokFREE])
  ∧ (svalue (rawtoken r 0) ∉ LP_KEYWORD_FREE → svalue (rawtoken r 0) ∉ LP_KEYWORD_INF →
     processedtokens r' = processedtokens r ++ [TokVARID (svalue (rawtoken r 0))]).
Proof.
  intros Hlen Hstr Hminus Hnext Hncolon Hkey _. unfold processtoken. cbv zeta.
  assert (Hadv : ∀ t, nextrawtoken strtod 1 (emplace_back t r) = Ok r' →
                      processedtokens r' = processedtokens r ++ [t]).
  { intros t Hr'.
    destruct (nextrawtoken_spec strtod 1 (emplace_back t r) Hlen) as [_ Hok].
    by destruct (Hok r' Hr') as (_ & _ & (-> & _) & _). }
  assert (istype (rawtoken r 0) RawTokenType.SLASH = false) as ->.
  { unfold istype. apply bool_decide_eq_false. by rewrite Hstr. }
  assert (istype (rawtoken r 0) RawTokenType.STR = true) as ->.
  { unfold istype. by apply bool_decide_eq_true. }
  assert (istype (rawtoken r 1) RawTokenType.COLON = false) as ->.
  { unfold istype. by apply bool_decide_eq_false. }
  cbn [andb].
  assert ((if istype (rawtoken r 1) RawTokenType.MINUS
              && istype (rawtoken r 2) RawTokenType.STR
           then keyword_of (svalue (rawtoken r 0) +:+ "-" +:+ svalue (rawtoken r 2))
           else None) = None) as ->.
  { destruct (istype (rawtoken r 1) RawTokenType.MINUS) eqn:Hm; [|done].
    destruct (istype (rawtoken r 2) RawTokenType.STR) eqn:Hs; [|done].
    apply bool_decide_eq_true in Hm, Hs. cbn [andb]. unfold keyword_of.
    rewrite (Hminus Hm Hs). by rewrite decide_False by (by intros []). }
  assert ((if istype (rawtoken r 1) RawTokenType.STR
           then keyword_of (svalue (rawtoken r 0) +:+ " " +:+ svalue (rawtoken r 1))
           else None) = None) as ->.
  { destruct (istype (rawtoken r 1) RawTokenType.STR) eqn:Hs; [|done].
    apply bool_decide_eq_true in Hs. unfold keyword_of.
    rewrite (Hnext Hs). by rewrite decide_False by (by intros []). }
  unfold keyword_of. rewrite decide_False by (by intros []).
  rewrite !iskeyword_elem.
  destruct (decide (svalue (rawtoken r 0) ∈ LP_KEYWORD_FREE)) as [Hfree|Hfree].
  { rewrite (bool_decide_eq_true_2 _ Hfree). intros Hr'%Hadv. by split_and!. }
  rewrite (bool_decide_eq_false_2 _ Hfree).
  destruct (decide (svalue (rawtoken r 0) ∈ LP_KEYWORD_INF)) as [Hinf|Hinf].
  { intros _. by split_and!. }
  rewrite (bool_decide_eq_false_2 _ Hinf). intros Hr'%Hadv. by split_and!.
Qed.

Lemma free_keyword_as_written_witness :
  (∃ r', processtoken strtod_decimal free_reader = Ok r'
     ∧ processedtokens r' = [TokVARID "x"] ++ [TokVARID "FREE"])
  ∧ (∃ r', tokenize strtod_decimal
             (Reader_new ["bounds"; " y free"; " x FREE"; "end"] ObjectiveSense.MIN)
           = Ok r'
       ∧ processedtokens r'
         = [TokSECID LpSectionKeyword.BOUNDS; TokVARID "y"; TokFREE;
            TokVARID "x"; TokVARID "FREE"; TokSECID LpSectionKeyword.END]).
Proof.
  split.
  - destruct (processtoken strtod_decimal free_reader) as [r'| | |] eqn:Hr;
      [|vm_compute in Hr; discriminate Hr..].
    exists r'. split; [reflexivity|].
    apply (free_keyword_as_written strtod_decimal free_reader r');
      [reflexivity|reflexivity|discriminate|reflexivity|discriminate|reflexivity
      |reflexivity|exact Hr|..];
      intros H; repeat (apply elem_of_cons in H as [H|H]; [vm_compute in H; discriminate H|]);
      by apply elem_of_nil in H.
  - eexists. split; [vm_compute; reflexivity|]. reflexivity.
Defined.
